(** * node-zk-accelerate: the fixed-width arithmetic core

    A shallow embedding of the native kernels of
    [@digitaldefiance/node-zk-accelerate]:

    - [neon_montgomery.cc]: limb primitives ([add_with_carry],
      [sub_with_borrow], [compare_limbs]), schoolbook multiplication,
      Montgomery reduction, the 4- and 6-limb multipliers and the batch
      multiplier;
    - [vdsp_ops.cc]: the NTT butterfly kernel;
    - [blas_ops.cc] and [sme_ops.cc]: MSM bucket accumulation.

    Integer code is modelled over [Z] with every truncation to 64 or 128
    bits written out; caller-owned [uint64_t] buffers live in one flat
    word-addressed memory and are named by pointers, so that aliasing and
    pointer arithmetic ([a + i * 4]) are those of the source.  The
    [double] kernels are written over an interface of the five
    operations they use; [double] is its IEEE binary64 instance, and the
    statements that depend on rounding are made and proved at that
    instance, from the specification of binary64 in [SpecFloat]. *)

From Stdlib Require Import ZArith Lia List Bool Arith Floats.
From Stdlib Require Uint63.
Import ListNotations.

Local Open Scope Z_scope.

(* ================================================================== *)
(** * Part I: the model                                                *)
(* ================================================================== *)

(** ** Machine integers *)

(** One limb is a [uint64_t]; [W] is its radix. *)
Definition W : Z := 2 ^ 64.

(** The cast [(uint64_t)x]. *)
Definition u64 (x : Z) : Z := x mod 2 ^ 64.

(** Arithmetic carried out in [__uint128_t]. *)
Definition u128 (x : Z) : Z := x mod 2 ^ 128.

(** Arithmetic carried out in [size_t] (64 bits on the supported targets). *)
Definition usize (x : Z) : Z := x mod 2 ^ 64.

(** ** Loops *)

(** [for (i = 0; i < n; i++) s = body i s]. *)
Fixpoint for_loop {S : Type} (n : nat) (body : nat -> S -> S) (s : S) : S :=
  match n with
  | O => s
  | Datatypes.S k => body k (for_loop k body s)
  end.

(** ** Memory *)

(** A buffer of 64-bit words, addressed by word index.  The caller's
    memory is one such buffer; a stack array ([uint64_t t[8]]) is a
    buffer of its own, addressed from 0. *)
Definition mem : Type := nat -> Z.
Definition ptr : Type := nat.
Bind Scope nat_scope with ptr.

Definition rd (m : mem) (p : ptr) : Z := m p.

Definition wr (m : mem) (p : ptr) (v : Z) : mem :=
  fun q => if Nat.eqb q p then v else m q.

(** [memset(m + p, 0, n * sizeof(uint64_t))]. *)
Definition memset0 (m : mem) (p : ptr) (n : nat) : mem :=
  fun q => if (p <=? q)%nat && (q <? p + n)%nat then 0 else m q.

(** [memcpy(dst + p, src + q, n * sizeof(uint64_t))], [src] a different
    object from [dst]. *)
Definition memcpy (dst : mem) (p : ptr) (src : mem) (q : ptr) (n : nat) : mem :=
  fun x => if (p <=? x)%nat && (x <? p + n)%nat then src (q + (x - p))%nat else dst x.

(** Placing a list of words at an address, and reading one back. *)
Fixpoint store (m : mem) (p : ptr) (l : list Z) : mem :=
  match l with
  | [] => m
  | x :: l' => store (wr m p x) (Datatypes.S p) l'
  end.

Definition load (m : mem) (p : ptr) (n : nat) : list Z :=
  map (fun i => m (p + i)%nat) (seq 0 n).

(** ** Limb primitives (neon_montgomery.cc, lines 38-86) *)

Section Limbs.

Variables a b result : ptr.

Definition add_with_carry (h : mem) (limb_count : nat) : mem * Z :=
  for_loop limb_count
    (fun i '(h, carry) =>
       let sum := u128 (rd h (a + i) + rd h (b + i) + carry) in
       (wr h (result + i) (u64 sum), u64 (Z.shiftr sum 64)))
    (h, 0).

Definition sub_with_borrow (h : mem) (limb_count : nat) : mem * Z :=
  for_loop limb_count
    (fun i '(h, borrow) =>
       let diff := u128 (rd h (a + i) - rd h (b + i) - borrow) in
       (wr h (result + i) (u64 diff),
        if Z.shiftr diff 64 =? 0 then 0 else 1))
    (h, 0).

(** The loop runs [i] from [limb_count - 1] down to 0: the recursion
    is on the number of limbs still to inspect. *)
Fixpoint compare_limbs (h : mem) (limb_count : nat) : Z :=
  match limb_count with
  | O => 0
  | Datatypes.S i =>
      if rd h (a + i) <? rd h (b + i) then -1
      else if rd h (a + i) >? rd h (b + i) then 1
      else compare_limbs h i
  end.

End Limbs.

(** ** Schoolbook multiplication and Montgomery reduction *)

Definition mul64_neon (a b : Z) : Z * Z :=
  let product := u128 (a * b) in
  (u64 product, u64 (Z.shiftr product 64)).

(** The carry-propagation loop [while (carry && k < n)], also written
    [for (k = ...; k < n && carry; k++)] in the scalar path.  The fuel is
    the number of limbs left, [n - k]. *)
Fixpoint propagate_carry (fuel : nat) (t : mem) (k : nat) (carry : Z) : mem * Z :=
  match fuel with
  | O => (t, carry)
  | Datatypes.S fuel' =>
      if carry =? 0 then (t, carry)
      else
        let sum := u128 (rd t k + carry) in
        propagate_carry fuel' (wr t k (u64 sum)) (Datatypes.S k) (u64 (Z.shiftr sum 64))
  end.

(** [neon_schoolbook_mul(a, b, result, limb_count)]: [a] and [b] point
    into the caller's memory [h], [result] is the local array. *)
Definition neon_schoolbook_mul (h : mem) (a b : ptr) (result : mem)
    (limb_count : nat) : mem :=
  let result := memset0 result 0 (2 * limb_count) in
  for_loop limb_count
    (fun i result =>
       let '(result, carry) :=
         for_loop limb_count
           (fun j '(result, carry) =>
              let '(lo, hi) := mul64_neon (rd h (a + i)) (rd h (b + j)) in
              let sum := u128 (rd result (i + j) + lo + carry) in
              (wr result (i + j) (u64 sum), u64 (hi + u64 (Z.shiftr sum 64))))
           (result, 0) in
       let k := (i + limb_count)%nat in
       fst (propagate_carry (2 * limb_count - k) result k carry))
    result.

(** The tail shared by both paths: copy the upper half of [t] to
    [result], then subtract the modulus once if the value is not below
    it.  [sub_with_borrow] is called in place. *)
Definition final_reduction (h : mem) (t : mem) (modulus result : ptr)
    (limb_count : nat) : mem :=
  let h := memcpy h result t limb_count limb_count in
  if compare_limbs result modulus h limb_count >=? 0
  then fst (sub_with_borrow result modulus result h limb_count)
  else h.

(** [neon_montgomery_reduce(t, modulus, mu, result, limb_count)]. *)
Definition neon_montgomery_reduce (h : mem) (t : mem) (modulus : ptr) (mu : Z)
    (result : ptr) (limb_count : nat) : mem :=
  let t :=
    for_loop limb_count
      (fun i t =>
         let m := u64 (rd t i * mu) in
         let '(t, carry) :=
           for_loop limb_count
             (fun j '(t, carry) =>
                let '(lo, hi) := mul64_neon m (rd h (modulus + j)) in
                let sum := u128 (rd t (i + j) + lo + carry) in
                (wr t (i + j) (u64 sum), u64 (hi + u64 (Z.shiftr sum 64))))
             (t, 0) in
         let k := (i + limb_count)%nat in
         fst (propagate_carry (2 * limb_count - k) t k carry))
      t in
  final_reduction h t modulus result limb_count.

(** The scalar fallback ([#else] branch).  The source spells it out twice,
    with the constants 4/8 and 6/12; [limb_count] stands for the 4 or the
    6. *)
Definition montgomery_mul_scalar (h : mem) (t : mem) (a b modulus : ptr) (mu : Z)
    (result : ptr) (limb_count : nat) : mem :=
  let t := memset0 t 0 (2 * limb_count) in
  let t :=
    for_loop limb_count
      (fun i t =>
         let '(t, carry) :=
           for_loop limb_count
             (fun j '(t, carry) =>
                let product := u128 (rd h (a + i) * rd h (b + j) + rd t (i + j) + carry) in
                (wr t (i + j) (u64 product), u64 (Z.shiftr product 64)))
             (t, 0) in
         wr t (i + limb_count) carry)
      t in
  let t :=
    for_loop limb_count
      (fun i t =>
         let m := u64 (rd t i * mu) in
         let '(t, carry) :=
           for_loop limb_count
             (fun j '(t, carry) =>
                let product := u128 (m * rd h (modulus + j) + rd t (i + j) + carry) in
                (wr t (i + j) (u64 product), u64 (Z.shiftr product 64)))
             (t, 0) in
         let k := (i + limb_count)%nat in
         fst (propagate_carry (2 * limb_count - k) t k carry))
      t in
  final_reduction h t modulus result limb_count.

Section Montgomery.

(** The compile-time switch [NEON_AVAILABLE]. *)
Variable NEON_AVAILABLE : bool.

(** The contents of the stack array [t] on entry (not initialised by
    its declaration). *)
Variable t : mem.

Definition neon_montgomery_mul_4limb (h : mem) (a b modulus : ptr) (mu : Z)
    (result : ptr) : mem :=
  if NEON_AVAILABLE then
    let t := neon_schoolbook_mul h a b t 4 in
    neon_montgomery_reduce h t modulus mu result 4
  else montgomery_mul_scalar h t a b modulus mu result 4.

Definition neon_montgomery_mul_6limb (h : mem) (a b modulus : ptr) (mu : Z)
    (result : ptr) : mem :=
  if NEON_AVAILABLE then
    let t := neon_schoolbook_mul h a b t 6 in
    neon_montgomery_reduce h t modulus mu result 6
  else montgomery_mul_scalar h t a b modulus mu result 6.

(** [count] is a [size_t], [limb_count] an [int]; the byte count handed
    to [memset] is computed in [size_t], and always a multiple of 8. *)
Definition neon_batch_montgomery_mul (h : mem) (a b modulus : ptr) (mu : Z)
    (results : ptr) (count : nat) (limb_count : Z) : mem :=
  if limb_count =? 4 then
    for_loop count
      (fun i h =>
         neon_montgomery_mul_4limb h (a + i * 4) (b + i * 4) modulus mu
           (results + i * 4))
      h
  else if limb_count =? 6 then
    for_loop count
      (fun i h =>
         neon_montgomery_mul_6limb h (a + i * 6) (b + i * 6) modulus mu
           (results + i * 6))
      h
  else
    let bytes := usize (usize (Z.of_nat count * usize limb_count) * 8) in
    memset0 h results (Z.to_nat (bytes / 8)).

End Montgomery.

(** ** The [double] kernels *)

(** The arithmetic of the element type.  The source fixes it to [double]:
    the instance [binary64] below.  What is proved for every instance
    holds for [double] whatever the rounding does. *)
Class Scalar (T : Type) : Type := {
  s_zero : T;
  s_one : T;
  s_add : T -> T -> T;
  s_sub : T -> T -> T;
  s_mul : T -> T -> T;
  s_opp : T -> T
}.

#[export] Instance binary64 : Scalar float := {|
  s_zero := 0%float;
  s_one := 1%float;
  s_add := PrimFloat.add;
  s_sub := PrimFloat.sub;
  s_mul := PrimFloat.mul;
  s_opp := PrimFloat.opp
|}.

(** [l[i] = v] on an array held as a list; a write past the end (undefined
    in C) leaves the list as it is. *)
Fixpoint upd {A : Type} (l : list A) (i : nat) (v : A) : list A :=
  match l, i with
  | [], _ => []
  | _ :: l', O => v :: l'
  | x :: l', Datatypes.S i' => x :: upd l' i' v
  end.

Section Kernels.

Context {T : Type} {ST : Scalar T}.

Definition get (l : list T) (i : nat) : T := nth i l s_zero.

Definition sum_list (l : list T) : T := fold_left s_add l s_zero.

(** *** vDSP routines (Apple Accelerate), unit strides, as vdsp_ops.cc
    documents them: [vDSP_vmulD] and [vDSP_vaddD] work element by
    element, and [vDSP_vsubD(B, A, C)] computes [A - B]. *)
Definition vDSP_vmulD (a b c : list T) (n : nat) : list T :=
  for_loop n (fun i c => upd c i (s_mul (get a i) (get b i))) c.

Definition vDSP_vaddD (a b c : list T) (n : nat) : list T :=
  for_loop n (fun i c => upd c i (s_add (get a i) (get b i))) c.

Definition vDSP_vsubD (b a c : list T) (n : nat) : list T :=
  for_loop n (fun i c => upd c i (s_sub (get a i) (get b i))) c.

(** The scalar butterfly loop (it appears twice in the source). *)
Definition butterfly_loop (in_even in_odd twiddle_real : list T)
    (out_even out_odd : list T) (n : nat) : list T * list T :=
  for_loop n
    (fun i '(out_even, out_odd) =>
       let t := s_mul (get twiddle_real i) (get in_odd i) in
       (upd out_even i (s_add (get in_even i) t),
        upd out_odd i (s_sub (get in_even i) t)))
    (out_even, out_odd).

(** [vdsp_ntt_butterfly_f64].  [apple] is the compile-time [__APPLE__];
    [temp] is what [malloc(n * sizeof(double))] returns: [None] for
    [NULL], otherwise the fresh buffer with whatever it holds. *)
Definition vdsp_ntt_butterfly_f64 (apple : bool) (temp : option (list T))
    (in_even in_odd twiddle_real twiddle_imag : list T)
    (out_even out_odd : list T) (n : nat) : list T * list T :=
  if apple then
    match temp with
    | None => butterfly_loop in_even in_odd twiddle_real out_even out_odd n
    | Some temp =>
        let temp := vDSP_vmulD twiddle_real in_odd temp n in
        let out_even := vDSP_vaddD in_even temp out_even n in
        let out_odd := vDSP_vsubD temp in_even out_odd n in
        (out_even, out_odd)
    end
  else butterfly_loop in_even in_odd twiddle_real out_even out_odd n.

(** *** Bucket accumulation *)

(** The direct scatter-add of [blas_bucket_accumulate] (label
    [fallback], lines 222-232): the whole function on a non-Apple
    build, for large inputs, and when an allocation fails.  Bucket
    indices are [uint32_t] values, used as array indices only. *)
Definition blas_bucket_accumulate (bucket_indices : list nat)
    (point_coords : list T) (bucket_accum : list T)
    (num_points num_buckets coord_size : nat) : list T :=
  for_loop num_points
    (fun i bucket_accum =>
       let bucket := nth i bucket_indices O in
       if (bucket <? num_buckets)%nat then
         for_loop coord_size
           (fun c bucket_accum =>
              upd bucket_accum (bucket * coord_size + c)
                (s_add (get bucket_accum (bucket * coord_size + c))
                       (get point_coords (i * coord_size + c))))
           bucket_accum
       else bucket_accum)
    bucket_accum.

(** The indicator matrix of the dense path (lines 154-165): [calloc]
    gives zeros, then one entry per in-range point is set to 1.0. *)
Definition blas_indicator (bucket_indices : list nat)
    (num_points num_buckets : nat) : list T :=
  for_loop num_points
    (fun i indicator =>
       let bucket := nth i bucket_indices O in
       if (bucket <? num_buckets)%nat
       then upd indicator (i * num_buckets + bucket) s_one
       else indicator)
    (repeat s_zero (num_points * num_buckets)).

(** [sme_bucket_outer_product], non-Apple branch (lines 130-138).
    [scalars] are [uint64_t], [window_size] is an [int]. *)
Definition sme_bucket_outer_product (scalars : list Z) (points : list T)
    (buckets : list T) (num_scalars num_buckets : nat) (window_size : Z)
    : list T * bool :=
  let bucket_mask := u64 (u64 (Z.shiftl 1 window_size) - 1) in
  (for_loop num_scalars
     (fun i buckets =>
        let bucket_idx := Z.land (nth i scalars 0) bucket_mask in
        if (bucket_idx >? 0) && (bucket_idx <=? Z.of_nat num_buckets) then
          let slot := Z.to_nat (bucket_idx - 1) in
          upd buckets slot (s_add (get buckets slot) (get points i))
        else buckets)
     buckets,
   false).

End Kernels.

(** ** The other kernels of vdsp_ops.cc, blas_ops.cc and sme_ops.cc *)

Section MoreKernels.

Context {T : Type} {ST : Scalar T}.

(** [vDSP_vsmulD] multiplies a vector by a scalar, [vDSP_vmaD] computes
    [A * B + C]; as vdsp_ops.cc documents them. *)
Definition vDSP_vsmulD (a : list T) (scalar : T) (b : list T) (n : nat) : list T :=
  for_loop n (fun i b => upd b i (s_mul (get a i) scalar)) b.

Definition vDSP_vmaD (a b c d : list T) (n : nat) : list T :=
  for_loop n (fun i d => upd d i (s_add (s_mul (get a i) (get b i)) (get c i))) d.

(** The five vector wrappers; [apple] is the compile-time [__APPLE__]. *)
Definition vdsp_vector_add_f64 (apple : bool) (a b c : list T) (n : nat) : list T :=
  if apple then vDSP_vaddD a b c n
  else for_loop n (fun i c => upd c i (s_add (get a i) (get b i))) c.

Definition vdsp_vector_mul_f64 (apple : bool) (a b c : list T) (n : nat) : list T :=
  if apple then vDSP_vmulD a b c n
  else for_loop n (fun i c => upd c i (s_mul (get a i) (get b i))) c.

Definition vdsp_vector_sub_f64 (apple : bool) (a b c : list T) (n : nat) : list T :=
  if apple then vDSP_vsubD b a c n
  else for_loop n (fun i c => upd c i (s_sub (get a i) (get b i))) c.

Definition vdsp_vector_scale_f64 (apple : bool) (a : list T) (scalar : T)
    (b : list T) (n : nat) : list T :=
  if apple then vDSP_vsmulD a scalar b n
  else for_loop n (fun i b => upd b i (s_mul (get a i) scalar)) b.

Definition vdsp_vector_muladd_f64 (apple : bool) (a b c d : list T) (n : nat)
    : list T :=
  if apple then vDSP_vmaD a b c d n
  else for_loop n
         (fun i d => upd d i (s_add (s_mul (get a i) (get b i)) (get c i))) d.

(** [blas_matrix_mul_f64], non-Apple branch (lines 65-80).  [m], [n], [k]
    are [int]s: a loop bounded by a negative one does not run, and the
    first loop is bounded by the product [m * n]. *)
Definition blas_matrix_mul_f64 (a b c : list T) (m n k : Z) (alpha beta : T)
    : list T :=
  let c := for_loop (Z.to_nat (m * n)) (fun i c => upd c i (s_mul (get c i) beta)) c in
  for_loop (Z.to_nat m)
    (fun i c =>
       for_loop (Z.to_nat n)
         (fun j c =>
            let sum :=
              for_loop (Z.to_nat k)
                (fun p sum =>
                   s_add sum (s_mul (get a (i * Z.to_nat k + p))
                                    (get b (p * Z.to_nat n + j))))
                s_zero in
            upd c (i * Z.to_nat n + j)
              (s_add (get c (i * Z.to_nat n + j)) (s_mul alpha sum)))
         c)
    c.

(** [blas_matrix_vector_mul_f64], non-Apple branch (lines 115-122). *)
Definition blas_matrix_vector_mul_f64 (a x y : list T) (m n : Z) (alpha beta : T)
    : list T :=
  for_loop (Z.to_nat m)
    (fun i y =>
       let sum :=
         for_loop (Z.to_nat n)
           (fun j sum => s_add sum (s_mul (get a (i * Z.to_nat n + j)) (get x j)))
           s_zero in
       upd y i (s_add (s_mul alpha sum) (s_mul beta (get y i))))
    y.

(** [sme_matrix_accumulate], non-Apple branch (lines 193-203). *)
Definition sme_matrix_accumulate (a b c : list T) (m n k : Z) : list T * bool :=
  (for_loop (Z.to_nat m)
     (fun i c =>
        for_loop (Z.to_nat n)
          (fun j c =>
             let sum :=
               for_loop (Z.to_nat k)
                 (fun p sum =>
                    s_add sum (s_mul (get a (i * Z.to_nat k + p))
                                     (get b (p * Z.to_nat n + j))))
                 s_zero in
             upd c (i * Z.to_nat n + j) (s_add (get c (i * Z.to_nat n + j)) sum))
          c)
     c,
   false).

End MoreKernels.

(** ** The cached SME probe (sme_ops.cc, lines 26-44) *)

(** The two file-scope flags. *)
Record sme_flags : Type := {
  g_sme_checked : bool;
  g_sme_available : bool
}.

(** The flags at program start. *)
Definition sme_flags_init : sme_flags :=
  {| g_sme_checked := false; g_sme_available := false |}.

(** [sme_available()].  [has_sme_support] is what the probe of
    hardware_detect.cc would answer if it were called now; it is called
    only when the flags say that no answer is stored. *)
Definition sme_available (has_sme_support : bool) (st : sme_flags)
    : bool * sme_flags :=
  if g_sme_checked st then (g_sme_available st, st)
  else
    let st := {| g_sme_checked := true; g_sme_available := has_sme_support |} in
    (g_sme_available st, st).

(** A run of calls, one probe answer per call; the answers returned, in
    order, and the flags at the end. *)
Fixpoint sme_available_calls (probes : list bool) (st : sme_flags)
    : list bool * sme_flags :=
  match probes with
  | [] => ([], st)
  | p :: probes' =>
      let '(r, st) := sme_available p st in
      let '(rs, st) := sme_available_calls probes' st in
      (r :: rs, st)
  end.

(** ** Specification vocabulary *)

(** The integer held by the [n] limbs at [p], least significant first. *)
Fixpoint eval (m : mem) (p : ptr) (n : nat) : Z :=
  match n with
  | O => 0
  | Datatypes.S k => eval m p k + m (p + k)%nat * W ^ Z.of_nat k
  end.

(** Every one of the [n] words at [p] is a [uint64_t] value. *)
Definition limbs_ok (m : mem) (p : ptr) (n : nat) : Prop :=
  forall i, (i < n)%nat -> 0 <= m (p + i)%nat < W.

(** [q] lies in the block of [n] words at [p]. *)
Definition region (p : ptr) (n : nat) (q : ptr) : Prop :=
  (p <= q < p + n)%nat.

Definition disjoint (p : ptr) (n : nat) (q : ptr) (k : nat) : Prop :=
  (p + n <= q \/ q + k <= p)%nat.

(** An in-order loop over the block at [dst] may read the block at [src]
    when it never overwrites a word it has yet to read: the blocks
    coincide or do not overlap. *)
Definition write_safe (dst src : ptr) (n : nat) : Prop :=
  dst = src \/ disjoint dst n src n.

(** [R = 2^(64 L)], the Montgomery radix for [L] limbs. *)
Definition R (L : nat) : Z := 2 ^ (64 * Z.of_nat L).

(** A memory holding nothing but zeros, to build concrete inputs on. *)
Definition zero_mem : mem := fun _ => 0.

(** What [k] rounds of a carry chain over [result] leave of the memory
    [h]: only the first [k] words of [result] have been written, each
    with a [uint64_t] value. *)
Definition chain_frame (h : mem) (result : ptr) (k : nat) (h' : mem) : Prop :=
  (forall q, ~ region result k q -> h' q = h q) /\ limbs_ok h' result k.

(** The bodies of the inner loops, named so that lemmas can speak of
    them: [t[i + j]] receives the low limb of [x * y[j] + t[i + j] +
    carry], the high limb is the next carry.  The NEON functions and the
    scalar branch compute it in two different ways. *)
Definition neon_row_body (h : mem) (x : Z) (y : ptr) (i : nat)
    (j : nat) (st : mem * Z) : mem * Z :=
  let '(t, carry) := st in
  let '(lo, hi) := mul64_neon x (rd h (y + j)) in
  let sum := u128 (rd t (i + j) + lo + carry) in
  (wr t (i + j) (u64 sum), u64 (hi + u64 (Z.shiftr sum 64))).

Definition scalar_row_body (h : mem) (x : Z) (y : ptr) (i : nat)
    (j : nat) (st : mem * Z) : mem * Z :=
  let '(t, carry) := st in
  let product := u128 (x * rd h (y + j) + rd t (i + j) + carry) in
  (wr t (i + j) (u64 product), u64 (Z.shiftr product 64)).

(** The schoolbook loop of the scalar branch. *)
Definition scalar_schoolbook (h : mem) (a b : ptr) (t : mem) (L : nat) : mem :=
  for_loop L
    (fun i t =>
       let '(t, carry) :=
         for_loop L (scalar_row_body h (rd h (a + i)) b i) (t, 0) in
       wr t (i + L) carry)
    (memset0 t 0 (2 * L)).

(** The outer loop of Montgomery reduction over a given inner-loop body. *)
Definition reduce_loop (body : Z -> nat -> nat -> mem * Z -> mem * Z)
    (mu : Z) (L : nat) (t : mem) : mem :=
  for_loop L
    (fun i t =>
       let m := u64 (rd t i * mu) in
       let '(t, carry) := for_loop L (body m i) (t, 0) in
       let k := (i + L)%nat in
       fst (propagate_carry (2 * L - k) t k carry))
    t.

(** What [neon_montgomery_mul_4limb] and [neon_montgomery_mul_6limb] have
    in common, with the limb count as a parameter. *)
Definition montgomery_mul_generic (NEON_AVAILABLE : bool) (t h : mem)
    (a b modulus : ptr) (mu : Z) (result : ptr) (L : nat) : mem :=
  if NEON_AVAILABLE then
    neon_montgomery_reduce h (neon_schoolbook_mul h a b t L) modulus mu result L
  else montgomery_mul_scalar h t a b modulus mu result L.

(** The batch loop over a given single-pair multiplier on [L] limbs. *)
Definition batch_loop (mul : mem -> ptr -> ptr -> ptr -> Z -> ptr -> mem)
    (L : nat) (h : mem) (a b modulus : ptr) (mu : Z) (results : ptr)
    (count : nat) : mem :=
  for_loop count
    (fun i h =>
       mul h (a + i * L)%nat (b + i * L)%nat modulus mu (results + i * L)%nat)
    h.

(** Two memories hold the same [n] words at [p]. *)
Definition same_block (h1 h2 : mem) (p : ptr) (n : nat) : Prop :=
  forall i, (i < n)%nat -> h1 (p + i)%nat = h2 (p + i)%nat.

(** The output array of a batch call does not overlap its inputs. *)
Definition batch_buffers_apart (L : nat) (a b modulus results : ptr)
    (count : nat) : Prop :=
  disjoint results (count * L) a (count * L) /\
  disjoint results (count * L) b (count * L) /\
  disjoint results (count * L) modulus L.

(** Block [i] of the batch output [hb] is what the single-pair multiplier
    [single] writes when run on pair [i] alone: on any memory [h2] that
    has the [i]-th operands and the modulus of [h], whatever else it
    holds. *)
Definition batch_matches_single (L : nat) (hb : mem)
    (single : mem -> ptr -> ptr -> ptr -> Z -> ptr -> mem)
    (h : mem) (a b modulus : ptr) (mu : Z) (results : ptr) (i : nat) : Prop :=
  forall h2,
    same_block h h2 (a + i * L) L ->
    same_block h h2 (b + i * L) L ->
    same_block h h2 modulus L ->
    forall k, (k < L)%nat ->
      hb (results + i * L + k)%nat =
      single h2 (a + i * L)%nat (b + i * L)%nat modulus mu (results + i * L)%nat
        (results + i * L + k)%nat.

(** The contract of Montgomery multiplication on [L] limbs.  The caller
    provides reduced operands, an odd modulus, [mu = -modulus^-1 mod 2^64]
    and an output block that does not overlap the modulus. *)
Definition montgomery_pre (L : nat) (h : mem) (a b modulus : ptr) (mu : Z)
    (result : ptr) : Prop :=
  limbs_ok h a L /\ limbs_ok h b L /\ limbs_ok h modulus L /\
  disjoint result L modulus L /\
  Z.odd (eval h modulus L) = true /\
  0 <= mu < 2 ^ 64 /\ (mu * eval h modulus L + 1) mod 2 ^ 64 = 0 /\
  eval h a L < eval h modulus L /\ eval h b L < eval h modulus L.

(** [h'] holds [a * b * R^-1 mod modulus] at [result], a reduced
    [L]-limb value. *)
Definition montgomery_post (L : nat) (h : mem) (a b modulus : ptr)
    (result : ptr) (h' : mem) : Prop :=
  limbs_ok h' result L /\
  eval h' result L < eval h modulus L /\
  forall Rinv, (R L * Rinv) mod eval h modulus L = 1 mod eval h modulus L ->
    eval h' result L = (eval h a L * eval h b L * Rinv) mod eval h modulus L.

(** What slot [(b, c)] of the bucket array holds after the first [k]
    points, starting from [init]: the coordinates [c] of the points whose
    bucket index is [b], added in the order of the points. *)
Definition slot_after {T : Type} {ST : Scalar T} (bucket_indices : list nat)
    (point_coords : list T) (coord_size : nat) (b c : nat) (init : T)
    (k : nat) : T :=
  for_loop k
    (fun i x =>
       if (nth i bucket_indices O =? b)%nat
       then s_add x (get point_coords (i * coord_size + c))
       else x)
    init.

(** The array [c'] is [c] with [f i] stored at every index [i < n]. *)
Definition filled {T : Type} {ST : Scalar T} (f : nat -> T) (n : nat)
    (c c' : list T) : Prop :=
  length c' = length c /\
  (forall i, (i < n)%nat -> get c' i = f i) /\
  (forall i, (n <= i)%nat -> get c' i = get c i).

(** The dot product of row [i] of the [? x k] matrix [a] with column [j]
    of the [k x n] matrix [b], accumulated from 0 in the order of the
    source. *)
Definition dot {T : Type} {ST : Scalar T} (a b : list T) (n k i j : nat) : T :=
  for_loop k
    (fun p sum => s_add sum (s_mul (get a (i * k + p)) (get b (p * n + j))))
    s_zero.

(** The dot product of row [i] of the [? x n] matrix [a] with the vector
    [x]. *)
Definition row_dot {T : Type} {ST : Scalar T} (a x : list T) (n i : nat) : T :=
  for_loop n (fun j sum => s_add sum (s_mul (get a (i * n + j)) (get x j))) s_zero.

(** The slot index a caller of [blas_bucket_accumulate] passes for a
    scalar: the digit less one, and the out-of-range index [num_buckets]
    for a digit that [sme_bucket_outer_product] skips. *)
Definition index_of_digit (w : Z) (num_buckets : nat) (scalar : Z) : nat :=
  let d := Z.land scalar (2 ^ w - 1) in
  if (d >? 0) && (d <=? Z.of_nat num_buckets) then Z.to_nat (d - 1)
  else num_buckets.

(** The windowed digit of a scalar, as §4.5 of the specification has it. *)
Definition digit (w : Z) (scalar : Z) : Z := Z.land scalar (2 ^ w - 1).

(** *** Integral doubles *)

(** The conversion [(double)z] of an integer [z] with [|z| < 2^63]. *)
Definition double_of_int (z : Z) : float :=
  if z <? 0 then (- of_uint63 (Uint63.of_Z (- z)))%float
  else of_uint63 (Uint63.of_Z z).

(** The double [x] is the integer [z]: [x == (double)z]. *)
Definition represents (x : float) (z : Z) : Prop :=
  (x =? double_of_int z)%float = true.

(** The first [n] elements of the array [l] are the integers [zs]. *)
Definition integral (l : list float) (zs : list Z) (n : nat) : Prop :=
  forall i, (i < n)%nat -> represents (nth i l 0%float) (nth i zs 0).

(** [|zs[0]| + ... + |zs[n-1]|]. *)
Definition abs_total (zs : list Z) (n : nat) : Z :=
  for_loop n (fun i s => s + Z.abs (nth i zs 0)) 0.

(** The integer sum of the (one-dimensional) points whose digit is not
    zero. *)
Definition nonzero_digit_sum (w : Z) (scalars : list Z) (points : list Z)
    (num_points : nat) : Z :=
  for_loop num_points
    (fun i s => if digit w (nth i scalars 0) =? 0 then s else s + nth i points 0)
    0.

(** The integer sum of all coordinates of the points whose bucket index
    is a slot of the array, that is, below [num_buckets]. *)
Definition in_range_sum (bucket_indices : list nat) (point_coords : list Z)
    (num_points num_buckets coord_size : nat) : Z :=
  for_loop num_points
    (fun i s =>
       if (nth i bucket_indices O <? num_buckets)%nat
       then s + for_loop coord_size
                  (fun c x => x + nth (i * coord_size + c) point_coords 0) 0
       else s)
    0.

(** Two doubles are the same number: the same double, or zeros of
    either sign. *)
Definition same_double (x y : float) : Prop :=
  x = y \/ (is_zero x = true /\ is_zero y = true).

(** *** Proof vocabulary for binary64 *)

(** [p * 2^j] on mantissas. *)
Definition pshl (p : positive) (j : nat) : positive := Nat.iter j xO p.

(** The binary64 datum of the integer [+-p], for [p < 2^53]: the
    mantissa is [p] shifted to 53 bits. *)
Definition int_form (s : bool) (p : positive) : spec_float :=
  S754_finite s (pshl p (Z.to_nat (53 - Zpos (digits2_pos p))))
    (Zpos (digits2_pos p) - 53).

Definition Z2SF (z : Z) : spec_float :=
  match z with
  | Z0 => S754_zero false
  | Zpos p => int_form false p
  | Zneg p => int_form true p
  end.

Definition signed (s : bool) (p : positive) : Z := cond_Zopp s (Zpos p).

(** [represents] on specification floats. *)
Definition SFrep (x : spec_float) (z : Z) : Prop :=
  x = Z2SF z \/ (z = 0 /\ x = S754_zero true).

Definition Zsum (l : list Z) : Z := fold_right Z.add 0 l.

Definition Zabs_sum (l : list Z) : Z := fold_right (fun z s => Z.abs z + s) 0 l.

(** The array [l] holds integers that add up to [total], their absolute
    values to no more than [bound]. *)
Definition tracks (l : list float) (total bound : Z) : Prop :=
  exists zl, Forall2 represents l zl /\ Zsum zl = total /\ Zabs_sum zl <= bound.

(** Proof step: four concrete words are [uint64_t] values. *)
Ltac limbs4 :=
  let i := fresh "i" in
  let Hi := fresh "Hi" in
  intros i Hi;
  do 4 (destruct i as [|i]; [vm_compute; split; congruence|]);
  exfalso; lia.

(** Proof step: six concrete words are [uint64_t] values. *)
Ltac limbs6 :=
  let i := fresh "i" in
  let Hi := fresh "Hi" in
  intros i Hi;
  do 6 (destruct i as [|i]; [vm_compute; split; congruence|]);
  exfalso; lia.

(* ================================================================== *)
(** * Part II: lemmas                                                  *)
(* ================================================================== *)

(** ** The radix *)

Lemma W_pos : 0 < W.
Proof. reflexivity. Qed.

Lemma W_sq : 2 ^ 128 = W * W.
Proof. reflexivity. Qed.

Lemma Wpow_pos (n : nat) : 0 < W ^ Z.of_nat n.
Proof. apply Z.pow_pos_nonneg; [apply W_pos | lia]. Qed.

Lemma Wpow_S (n : nat) : W ^ Z.of_nat (S n) = W * W ^ Z.of_nat n.
Proof. rewrite Nat2Z.inj_succ, Z.pow_succ_r by lia. reflexivity. Qed.

Lemma Wpow_add (n k : nat) :
  W ^ Z.of_nat (n + k) = W ^ Z.of_nat n * W ^ Z.of_nat k.
Proof. rewrite Nat2Z.inj_add, Z.pow_add_r by lia. reflexivity. Qed.

Lemma Wpow_le (n k : nat) : (n <= k)%nat -> W ^ Z.of_nat n <= W ^ Z.of_nat k.
Proof.
  intros H. apply Z.pow_le_mono_r; [apply W_pos | lia].
Qed.

Lemma u64_mod (x : Z) : u64 x = x mod W.
Proof. reflexivity. Qed.

Lemma u128_mod (x : Z) : u128 x = x mod (W * W).
Proof. reflexivity. Qed.

Lemma shiftr64 (x : Z) : Z.shiftr x 64 = x / W.
Proof. rewrite Z.shiftr_div_pow2 by lia. reflexivity. Qed.

Lemma u64_small (x : Z) : 0 <= x < W -> u64 x = x.
Proof. intros H. rewrite u64_mod. apply Z.mod_small, H. Qed.

Lemma u128_small (x : Z) : 0 <= x < W * W -> u128 x = x.
Proof. intros H. rewrite u128_mod. apply Z.mod_small, H. Qed.

Lemma u64_range (x : Z) : 0 <= u64 x < W.
Proof. rewrite u64_mod. apply Z.mod_pos_bound, W_pos. Qed.

Lemma W_def : W = 2 ^ 64.
Proof. reflexivity. Qed.

Lemma W_ge_4 : 4 <= W.
Proof. discriminate. Qed.

Global Opaque W.

Lemma div_W_bound (x k : Z) : 0 <= x < k * W -> 0 <= x / W < k.
Proof.
  intros H. pose proof W_pos. split.
  - apply Z.div_pos; lia.
  - apply Z.div_lt_upper_bound; lia.
Qed.

Lemma div_mod_W (x : Z) : x mod W + W * (x / W) = x.
Proof. pose proof W_pos. rewrite (Z.div_mod x W) at 3 by lia. ring. Qed.

(** ** Loops *)

Lemma for_loop_ext {S : Type} (n : nat) (f g : nat -> S -> S) (s : S) :
  (forall i x, (i < n)%nat -> f i x = g i x) ->
  for_loop n f s = for_loop n g s.
Proof.
  induction n as [|n IH]; intros H; simpl; [reflexivity|].
  rewrite IH by (intros; apply H; lia). apply H. lia.
Qed.

Lemma for_loop_0 {S : Type} (body : nat -> S -> S) (s : S) :
  for_loop 0 body s = s.
Proof. reflexivity. Qed.

Lemma for_loop_S {S : Type} (n : nat) (body : nat -> S -> S) (s : S) :
  for_loop (Datatypes.S n) body s = body n (for_loop n body s).
Proof. reflexivity. Qed.

(** The loop-invariant rule. *)
Lemma for_loop_inv {S : Type} (P : nat -> S -> Prop) (n : nat)
    (body : nat -> S -> S) (s : S) :
  P O s ->
  (forall i x, (i < n)%nat -> P i x -> P (Datatypes.S i) (body i x)) ->
  P n (for_loop n body s).
Proof.
  intros H0 Hstep. induction n as [|n IH]; simpl; [exact H0|].
  apply Hstep; [lia|]. apply IH. intros i x Hi. apply Hstep. lia.
Qed.

(** ** Memory *)

Lemma wr_same (m : mem) (p : ptr) (v : Z) : wr m p v p = v.
Proof. unfold wr. rewrite Nat.eqb_refl. reflexivity. Qed.

Lemma wr_other (m : mem) (p q : ptr) (v : Z) : q <> p -> wr m p v q = m q.
Proof. intros H. unfold wr. apply Nat.eqb_neq in H. rewrite H. reflexivity. Qed.

Lemma memset0_in (m : mem) (p : ptr) (n : nat) (q : ptr) :
  region p n q -> memset0 m p n q = 0.
Proof.
  unfold region, memset0. intros H.
  replace (p <=? q)%nat with true by (symmetry; apply Nat.leb_le; lia).
  replace (q <? p + n)%nat with true by (symmetry; apply Nat.ltb_lt; lia).
  reflexivity.
Qed.

Lemma memset0_out (m : mem) (p : ptr) (n : nat) (q : ptr) :
  ~ region p n q -> memset0 m p n q = m q.
Proof.
  unfold region, memset0. intros H.
  destruct (Nat.leb_spec p q); destruct (Nat.ltb_spec q (p + n)); simpl;
    try reflexivity; lia.
Qed.

Lemma memcpy_in (dst : mem) (p : ptr) (src : mem) (q : ptr) (n i : nat) :
  (i < n)%nat -> memcpy dst p src q n (p + i)%nat = src (q + i)%nat.
Proof.
  intros H. unfold memcpy.
  replace (p <=? p + i)%nat with true by (symmetry; apply Nat.leb_le; lia).
  replace (p + i <? p + n)%nat with true by (symmetry; apply Nat.ltb_lt; lia).
  simpl. f_equal. lia.
Qed.

Lemma memcpy_out (dst : mem) (p : ptr) (src : mem) (q : ptr) (n : nat) (x : ptr) :
  ~ region p n x -> memcpy dst p src q n x = dst x.
Proof.
  unfold region, memcpy. intros H.
  destruct (Nat.leb_spec p x); destruct (Nat.ltb_spec x (p + n)); simpl;
    try reflexivity; lia.
Qed.

(** ** Limb values *)

Lemma eval_ext (m1 m2 : mem) (p1 p2 : ptr) (n : nat) :
  (forall i, (i < n)%nat -> m1 (p1 + i)%nat = m2 (p2 + i)%nat) ->
  eval m1 p1 n = eval m2 p2 n.
Proof.
  induction n as [|n IH]; intros H; simpl; [reflexivity|].
  rewrite IH by (intros; apply H; lia). rewrite H by lia. reflexivity.
Qed.

Lemma limbs_ok_ext (m1 m2 : mem) (p1 p2 : ptr) (n : nat) :
  (forall i, (i < n)%nat -> m1 (p1 + i)%nat = m2 (p2 + i)%nat) ->
  limbs_ok m2 p2 n -> limbs_ok m1 p1 n.
Proof. intros H Hok i Hi. rewrite H by exact Hi. apply Hok, Hi. Qed.

Lemma limbs_ok_le (m : mem) (p : ptr) (n k : nat) :
  (k <= n)%nat -> limbs_ok m p n -> limbs_ok m p k.
Proof. intros Hk Hok i Hi. apply Hok. lia. Qed.

Lemma eval_bounds (m : mem) (p : ptr) (n : nat) :
  limbs_ok m p n -> 0 <= eval m p n < W ^ Z.of_nat n.
Proof.
  induction n as [|n IH]; intros Hok; simpl eval.
  - simpl. lia.
  - assert (H1 := IH (limbs_ok_le _ _ _ _ (Nat.le_succ_diag_r n) Hok)).
    assert (H2 := Hok n (Nat.lt_succ_diag_r n)).
    rewrite Wpow_S. pose proof (Wpow_pos n). nia.
Qed.

Lemma eval_split (m : mem) (p : ptr) (n k : nat) :
  eval m p (n + k) = eval m p n + W ^ Z.of_nat n * eval m (p + n) k.
Proof.
  induction k as [|k IH].
  - rewrite Nat.add_0_r. simpl. lia.
  - rewrite Nat.add_succ_r. simpl eval. rewrite IH, Wpow_add.
    replace (p + (n + k))%nat with (p + n + k)%nat by lia. ring.
Qed.

Lemma eval_wr_out (m : mem) (p : ptr) (n : nat) (q : ptr) (v : Z) :
  ~ region p n q -> eval (wr m q v) p n = eval m p n.
Proof.
  unfold region. intros H. apply eval_ext. intros i Hi.
  apply wr_other. lia.
Qed.

Lemma eval_wr_in (m : mem) (p : ptr) (n i : nat) (v : Z) :
  (i < n)%nat ->
  eval (wr m (p + i) v) p n = eval m p n + (v - m (p + i)%nat) * W ^ Z.of_nat i.
Proof.
  induction n as [|n IH]; intros Hi; [lia|].
  simpl eval. destruct (Nat.eq_dec i n) as [->|Hne].
  - rewrite wr_same, eval_wr_out by (unfold region; lia). ring.
  - rewrite IH by lia. rewrite wr_other by lia. ring.
Qed.

Lemma limbs_ok_wr (m : mem) (p : ptr) (n : nat) (q : ptr) (v : Z) :
  limbs_ok m p n -> 0 <= v < W -> limbs_ok (wr m q v) p n.
Proof.
  intros Hok Hv i Hi. destruct (Nat.eq_dec (p + i) q) as [<-|Hne].
  - rewrite wr_same. exact Hv.
  - rewrite wr_other by exact Hne. apply Hok, Hi.
Qed.

(** A value below [W^k] has all limbs from [k] on equal to zero. *)
Lemma eval_small_limb_zero (m : mem) (p : ptr) (n k j : nat) :
  limbs_ok m p n -> eval m p n < W ^ Z.of_nat k ->
  (k <= j < n)%nat -> m (p + j)%nat = 0.
Proof.
  intros Hok Hlt Hj.
  replace n with (j + Datatypes.S (n - j - 1))%nat in Hlt, Hok by lia.
  rewrite eval_split in Hlt.
  assert (H1 : 0 <= eval m p j).
  { apply eval_bounds. eapply limbs_ok_le; [|exact Hok]. lia. }
  assert (H2 : limbs_ok m (p + j) (Datatypes.S (n - j - 1))).
  { intros i Hi. replace (p + j + i)%nat with (p + (j + i))%nat by lia.
    apply Hok. lia. }
  replace (Datatypes.S (n - j - 1)) with (1 + (n - j - 1))%nat in Hlt by lia.
  rewrite eval_split in Hlt.
  assert (H3 : 0 <= eval m (p + j + 1) (n - j - 1)).
  { apply eval_bounds. intros i Hi.
    replace (p + j + 1 + i)%nat with (p + j + (1 + i))%nat by lia.
    apply H2. lia. }
  simpl eval in Hlt. rewrite Nat.add_0_r in Hlt.
  assert (H4 := H2 O ltac:(lia)). rewrite Nat.add_0_r in H4.
  assert (H5 := Wpow_le k j ltac:(lia)).
  pose proof (Wpow_pos j). pose proof (Wpow_pos k).
  pose proof W_pos.
  destruct (Z.eq_dec (m (p + j)%nat) 0) as [E|E]; [exact E|exfalso].
  assert (1 <= m (p + j)%nat) by lia. nia.
Qed.

(** ** One limb of a carry chain *)

Lemma add_step (x y c : Z) :
  0 <= x < W -> 0 <= y < W -> 0 <= c <= 1 ->
  let sum := u128 (x + y + c) in
  u64 sum + W * u64 (Z.shiftr sum 64) = x + y + c /\
  0 <= u64 (Z.shiftr sum 64) <= 1.
Proof.
  intros Hx Hy Hc. pose proof W_ge_4. cbv zeta.
  rewrite u128_small by nia. rewrite shiftr64.
  assert (Hq : 0 <= (x + y + c) / W < 2) by (apply div_W_bound; lia).
  rewrite (u64_small (_ / W)) by lia. rewrite u64_mod.
  split; [apply div_mod_W | lia].
Qed.

Lemma sub_step (x y c : Z) :
  0 <= x < W -> 0 <= y < W -> 0 <= c <= 1 ->
  let diff := u128 (x - y - c) in
  let borrow := if Z.shiftr diff 64 =? 0 then 0 else 1 in
  u64 diff - W * borrow = x - y - c /\ 0 <= borrow <= 1.
Proof.
  intros Hx Hy Hc. pose proof W_ge_4. cbv zeta.
  rewrite shiftr64, u128_mod, u64_mod.
  destruct (Z_le_gt_dec 0 (x - y - c)) as [Hpos|Hneg].
  - rewrite (Z.mod_small (x - y - c)) by nia.
    rewrite (Z.div_small (x - y - c)) by lia.
    rewrite Z.mod_small by lia. simpl. lia.
  - assert (E : (x - y - c) mod (W * W) = x - y - c + W * W).
    { symmetry. apply Z.mod_unique with (q := -1); nia. }
    rewrite E.
    assert (Eq : (x - y - c + W * W) / W = W - 1).
    { symmetry. apply Z.div_unique with (r := x - y - c + W); nia. }
    assert (Er : (x - y - c + W * W) mod W = x - y - c + W).
    { symmetry. apply Z.mod_unique with (q := W - 1); nia. }
    rewrite Eq, Er.
    destruct (Z.eqb_spec (W - 1) 0); lia.
Qed.

(** ** [add_with_carry] and [sub_with_borrow] against big-integer
    arithmetic *)

Section CarryChain.

Variables (h : mem) (a b result : ptr) (L : nat).
Hypothesis Ha : limbs_ok h a L.
Hypothesis Hb : limbs_ok h b L.
Hypothesis Hsafe_a : write_safe result a L.
Hypothesis Hsafe_b : write_safe result b L.

Lemma chain_reads (k : nat) (h' : mem) :
  (k < L)%nat -> chain_frame h result k h' ->
  h' (a + k)%nat = h (a + k)%nat /\ h' (b + k)%nat = h (b + k)%nat.
Proof.
  intros Hk [Hf _]. unfold write_safe, disjoint in *.
  split; apply Hf; unfold region; lia.
Qed.

Lemma chain_frame_step (k : nat) (h' : mem) (v : Z) :
  chain_frame h result k h' -> 0 <= v < W ->
  chain_frame h result (Datatypes.S k) (wr h' (result + k) v).
Proof.
  intros [Hf Hok] Hv. split.
  - intros q Hq. unfold region in *. rewrite wr_other by lia.
    apply Hf. unfold region. lia.
  - intros i Hi. destruct (Nat.eq_dec i k) as [->|Hne].
    + rewrite wr_same. exact Hv.
    + rewrite wr_other by lia. apply Hok. lia.
Qed.

Lemma add_with_carry_spec :
  let '(h', carry) := add_with_carry a b result h L in
  0 <= carry <= 1 /\
  carry * W ^ Z.of_nat L + eval h' result L = eval h a L + eval h b L /\
  limbs_ok h' result L /\
  (forall q, ~ region result L q -> h' q = h q).
Proof.
  unfold add_with_carry.
  set (body := fun (i : nat) '(h0, carry) => _).
  assert (Hinv : forall k, (k <= L)%nat ->
    let '(h', carry) := for_loop k body (h, 0) in
    0 <= carry <= 1 /\
    carry * W ^ Z.of_nat k + eval h' result k = eval h a k + eval h b k /\
    chain_frame h result k h').
  { induction k as [|k IH]; intros Hk.
    - simpl. split; [lia|]. split; [lia|]. split; [reflexivity|]. intros i Hi. lia.
    - simpl for_loop. specialize (IH ltac:(lia)).
      destruct (for_loop k body (h, 0)) as [h' c].
      destruct IH as (Hc & Hval & Hfr). unfold body, rd.
      destruct (chain_reads k h' ltac:(lia) Hfr) as [Ea Eb].
      rewrite Ea, Eb.
      destruct (add_step (h (a + k)%nat) (h (b + k)%nat) c
                  (Ha k ltac:(lia)) (Hb k ltac:(lia)) Hc) as [Hs Hc'].
      cbv zeta in Hs, Hc'. split; [exact Hc'|]. split.
      + simpl eval. rewrite wr_same.
        rewrite eval_wr_out by (unfold region; lia).
        rewrite Wpow_S. nia.
      + apply chain_frame_step; [exact Hfr | apply u64_range]. }
  specialize (Hinv L (Nat.le_refl L)).
  destruct (for_loop L body (h, 0)) as [h' c].
  destruct Hinv as (Hc & Hval & Hf & Hok). auto.
Qed.

Lemma sub_with_borrow_spec :
  let '(h', borrow) := sub_with_borrow a b result h L in
  0 <= borrow <= 1 /\
  eval h' result L = eval h a L - eval h b L + borrow * W ^ Z.of_nat L /\
  limbs_ok h' result L /\
  (forall q, ~ region result L q -> h' q = h q).
Proof.
  unfold sub_with_borrow.
  set (body := fun (i : nat) '(h0, borrow) => _).
  assert (Hinv : forall k, (k <= L)%nat ->
    let '(h', borrow) := for_loop k body (h, 0) in
    0 <= borrow <= 1 /\
    eval h' result k = eval h a k - eval h b k + borrow * W ^ Z.of_nat k /\
    chain_frame h result k h').
  { induction k as [|k IH]; intros Hk.
    - simpl. split; [lia|]. split; [lia|]. split; [reflexivity|]. intros i Hi. lia.
    - simpl for_loop. specialize (IH ltac:(lia)).
      destruct (for_loop k body (h, 0)) as [h' c].
      destruct IH as (Hc & Hval & Hfr). unfold body, rd.
      destruct (chain_reads k h' ltac:(lia) Hfr) as [Ea Eb].
      rewrite Ea, Eb.
      destruct (sub_step (h (a + k)%nat) (h (b + k)%nat) c
                  (Ha k ltac:(lia)) (Hb k ltac:(lia)) Hc) as [Hs Hc'].
      cbv zeta in Hs, Hc'. split; [exact Hc'|]. split.
      + simpl eval. rewrite wr_same.
        rewrite eval_wr_out by (unfold region; lia).
        rewrite Wpow_S. nia.
      + apply chain_frame_step; [exact Hfr | apply u64_range]. }
  specialize (Hinv L (Nat.le_refl L)).
  destruct (for_loop L body (h, 0)) as [h' c].
  destruct Hinv as (Hc & Hval & Hf & Hok). auto.
Qed.

End CarryChain.

Lemma R_Wpow (L : nat) : R L = W ^ Z.of_nat L.
Proof. unfold R. rewrite W_def, <- Z.pow_mul_r by lia. reflexivity. Qed.

Lemma R_pos (L : nat) : 0 < R L.
Proof. rewrite R_Wpow. apply Wpow_pos. Qed.

Lemma compare_limbs_spec (h : mem) (a b : ptr) (L : nat) :
  limbs_ok h a L -> limbs_ok h b L ->
  (compare_limbs a b h L = -1 /\ eval h a L < eval h b L) \/
  (compare_limbs a b h L = 0 /\ eval h a L = eval h b L) \/
  (compare_limbs a b h L = 1 /\ eval h a L > eval h b L).
Proof.
  induction L as [|L IH]; intros Ha Hb.
  - right. left. split; reflexivity.
  - assert (Ha' : limbs_ok h a L) by (eapply limbs_ok_le; [|exact Ha]; lia).
    assert (Hb' : limbs_ok h b L) by (eapply limbs_ok_le; [|exact Hb]; lia).
    pose proof (eval_bounds _ _ _ Ha') as Ba.
    pose proof (eval_bounds _ _ _ Hb') as Bb.
    pose proof (Ha L ltac:(lia)) as La. pose proof (Hb L ltac:(lia)) as Lb.
    simpl. unfold rd.
    destruct (Z.ltb_spec (h (a + L)%nat) (h (b + L)%nat)) as [Hlt|Hge].
    + left. split; [reflexivity|]. nia.
    + destruct (Z.gtb_spec (h (a + L)%nat) (h (b + L)%nat)) as [Hgt|Hle].
      * right. right. split; [reflexivity|]. nia.
      * assert (E : h (a + L)%nat = h (b + L)%nat) by lia. rewrite E.
        destruct (IH Ha' Hb') as [[-> ?]|[[-> ?]|[-> ?]]]; auto; [left|right; left|right;right]; split; auto; lia.
Qed.

(** ** Claim C3 *)

(** C3.  For every limb length [L] (in particular 4 and 6) and every pair
    of [L]-limb numbers [a], [b]: [add_with_carry] returns a carry in
    {0, 1} and [L] limbs, each a [uint64_t] value, with
    [carry * 2^(64 L) + result = a + b], and [sub_with_borrow] returns
    [L] such limbs with [result = a - b + borrow * 2^(64 L)] and
    [borrow = 1] exactly when [a < b]; all as unsigned big integers.  The
    output block may be one of the inputs or a block apart from them. *)
Theorem carry_chain_totality (L : nat) (h : mem) (a b result : ptr) :
  limbs_ok h a L -> limbs_ok h b L ->
  write_safe result a L -> write_safe result b L ->
  (let '(h', carry) := add_with_carry a b result h L in
   (carry = 0 \/ carry = 1) /\
   limbs_ok h' result L /\
   carry * R L + eval h' result L = eval h a L + eval h b L) /\
  (let '(h', borrow) := sub_with_borrow a b result h L in
   (borrow = 0 \/ borrow = 1) /\
   limbs_ok h' result L /\
   eval h' result L = eval h a L - eval h b L + borrow * R L /\
   (borrow = 1 <-> eval h a L < eval h b L)).
Proof.
  intros Ha Hb Sa Sb. rewrite R_Wpow. split.
  - pose proof (add_with_carry_spec h a b result L Ha Hb Sa Sb) as H.
    destruct (add_with_carry a b result h L) as [h' c].
    destruct H as (Hc & Hv & Hok & _).
    split; [lia|]. split; [exact Hok | exact Hv].
  - pose proof (sub_with_borrow_spec h a b result L Ha Hb Sa Sb) as H.
    destruct (sub_with_borrow a b result h L) as [h' c].
    destruct H as (Hc & Hv & Hok & _).
    pose proof (eval_bounds _ _ _ Hok) as Br.
    pose proof (eval_bounds _ _ _ Ha) as Ba.
    pose proof (eval_bounds _ _ _ Hb) as Bb.
    split; [lia|]. split; [exact Hok|]. split; [exact Hv|]. nia.
Qed.

(** The worst case for [L = 4]: every limb of both operands is
    [0xFFFFFFFFFFFFFFFF]. *)
Lemma carry_chain_totality_witness :
  let ones := [2 ^ 64 - 1; 2 ^ 64 - 1; 2 ^ 64 - 1; 2 ^ 64 - 1] in
  let h := store (store zero_mem 0 ones) 4 ones in
  (let '(h', carry) := add_with_carry 0 4 8 h 4 in
   (carry = 0 \/ carry = 1) /\
   limbs_ok h' 8 4 /\
   carry * R 4 + eval h' 8 4 = eval h 0 4 + eval h 4 4) /\
  (let '(h', borrow) := sub_with_borrow 0 4 8 h 4 in
   (borrow = 0 \/ borrow = 1) /\
   limbs_ok h' 8 4 /\
   eval h' 8 4 = eval h 0 4 - eval h 4 4 + borrow * R 4 /\
   (borrow = 1 <-> eval h 0 4 < eval h 4 4)).
Proof.
  intros ones h. apply (carry_chain_totality 4 h 0 4 8).
  - limbs4.
  - limbs4.
  - right. unfold disjoint. lia.
  - right. unfold disjoint. lia.
Defined.

(** ** Multiply-accumulate on one limb *)

(** The scalar path forms [x * y + t + carry] in 128 bits and splits it. *)
Lemma mac_scalar_spec (x y tv c : Z) :
  0 <= x < W -> 0 <= y < W -> 0 <= tv < W -> 0 <= c < W ->
  let product := u128 (x * y + tv + c) in
  0 <= u64 product < W /\ 0 <= u64 (Z.shiftr product 64) < W /\
  u64 product + W * u64 (Z.shiftr product 64) = x * y + tv + c.
Proof.
  intros Hx Hy Ht Hc. cbv zeta. pose proof W_ge_4.
  assert (Hb : 0 <= x * y + tv + c < W * W) by nia.
  rewrite u128_small by exact Hb. rewrite shiftr64.
  pose proof (div_W_bound _ _ Hb) as Hq.
  rewrite (u64_small (_ / W)) by exact Hq.
  split; [apply u64_range|]. split; [exact Hq|].
  rewrite u64_mod. apply div_mod_W.
Qed.

(** The NEON path multiplies first, adds the low half in 128 bits, and adds
    the high half to the carry in 64 bits: that last sum never wraps. *)
Lemma mac_neon_spec (x y tv c : Z) :
  0 <= x < W -> 0 <= y < W -> 0 <= tv < W -> 0 <= c < W ->
  let '(lo, hi) := mul64_neon x y in
  let sum := u128 (tv + lo + c) in
  0 <= u64 sum < W /\ 0 <= u64 (hi + u64 (Z.shiftr sum 64)) < W /\
  u64 sum + W * u64 (hi + u64 (Z.shiftr sum 64)) = x * y + tv + c.
Proof.
  intros Hx Hy Ht Hc. unfold mul64_neon. cbv zeta. pose proof W_ge_4.
  assert (Hp : 0 <= x * y < W * W) by nia.
  rewrite (u128_small (x * y)) by exact Hp. rewrite !shiftr64.
  pose proof (div_W_bound _ _ Hp) as Hhi.
  rewrite (u64_small (x * y / W)) by exact Hhi.
  rewrite (u64_mod (x * y)).
  pose proof (Z.mod_pos_bound (x * y) W W_pos) as Hlo.
  pose proof (div_mod_W (x * y)) as Hxy.
  set (lo := (x * y) mod W) in *. set (hi := x * y / W) in *.
  assert (Hs : 0 <= tv + lo + c < 3 * W) by lia.
  rewrite u128_small by nia.
  assert (Hq : 0 <= (tv + lo + c) / W < 3) by (apply div_W_bound; lia).
  rewrite (u64_small ((tv + lo + c) / W)) by lia.
  pose proof (div_mod_W (tv + lo + c)) as Hsum.
  pose proof (Z.mod_pos_bound (tv + lo + c) W W_pos) as Hr.
  assert (Hc' : 0 <= hi + (tv + lo + c) / W < W) by nia.
  rewrite (u64_small (hi + _)) by exact Hc'.
  rewrite u64_mod. split; [exact Hr|]. split; [exact Hc'|]. lia.
Qed.

Lemma eval_wr0 (m : mem) (n q : nat) (v : Z) :
  (q < n)%nat ->
  eval (wr m q v) 0 n = eval m 0 n + (v - m q) * W ^ Z.of_nat q.
Proof. intros H. apply (eval_wr_in m 0 n q v H). Qed.

Lemma limbs_ok0 (m : mem) (n q : nat) :
  limbs_ok m 0 n -> (q < n)%nat -> 0 <= m q < W.
Proof. intros H Hq. apply (H q Hq). Qed.

(** ** One row: [t += x * y * W^i] *)

Section MacRow.

Variables (h : mem) (x : Z) (y : ptr) (i L N : nat).
Variable body : nat -> mem * Z -> mem * Z.

Hypothesis HiL : (i + L <= N)%nat.
Hypothesis Hbody : forall j t c,
  (j < L)%nat -> 0 <= t (i + j)%nat < W -> 0 <= c < W ->
  exists v c',
    body j (t, c) = (wr t (i + j) v, c') /\
    0 <= v < W /\ 0 <= c' < W /\
    v + W * c' = x * h (y + j)%nat + t (i + j)%nat + c.

Lemma mac_row_spec (t : mem) :
  limbs_ok t 0 N ->
  let '(t', c) := for_loop L body (t, 0) in
  limbs_ok t' 0 N /\ 0 <= c < W /\
  eval t' 0 N + c * W ^ Z.of_nat (i + L)
    = eval t 0 N + x * eval h y L * W ^ Z.of_nat i /\
  (forall q, ~ region i L q -> t' q = t q).
Proof.
  intros Ht.
  assert (Hinv : forall k, (k <= L)%nat ->
    let '(t', c) := for_loop k body (t, 0) in
    limbs_ok t' 0 N /\ 0 <= c < W /\
    eval t' 0 N + c * W ^ Z.of_nat (i + k)
      = eval t 0 N + x * eval h y k * W ^ Z.of_nat i /\
    (forall q, ~ region i k q -> t' q = t q)).
  { induction k as [|k IH]; intros Hk.
    - simpl. pose proof W_pos. split; [exact Ht|]. split; [lia|].
      split; [lia|]. reflexivity.
    - simpl for_loop. specialize (IH ltac:(lia)).
      destruct (for_loop k body (t, 0)) as [t' c].
      destruct IH as (Hok & Hc & Hval & Hfr).
      pose proof (limbs_ok0 _ _ (i + k) Hok ltac:(lia)) as Htik.
      destruct (Hbody k t' c ltac:(lia) Htik Hc) as (v & c' & Hb & Hv & Hc' & Hmac).
      destruct (body k (t', c)) as [t2 c2] eqn:E.
      pose proof (eq_trans (eq_sym Hb) E) as E2. inversion E2; subst t2 c2.
      clear E E2 Hb.
      split; [apply limbs_ok_wr; assumption|]. split; [exact Hc'|]. split.
      + rewrite eval_wr0 by lia. simpl eval.
        replace (i + Datatypes.S k)%nat with (Datatypes.S (i + k)) by lia.
        rewrite Wpow_S. rewrite Wpow_add in *.
        set (Pi := W ^ Z.of_nat i) in *. set (Pk := W ^ Z.of_nat k) in *.
        replace v with (x * h (y + k)%nat + t' (i + k)%nat + c - W * c') by lia.
        ring_simplify. ring_simplify in Hval. lia.
      + intros q Hq. unfold region in *. rewrite wr_other by lia.
        apply Hfr. unfold region. lia. }
  exact (Hinv L (Nat.le_refl L)).
Qed.

End MacRow.

(** ** Carry propagation *)

Lemma propagate_carry_spec (N : nat) :
  forall fuel t k c,
    (k + fuel = N)%nat -> limbs_ok t 0 N -> 0 <= c < W ->
    let '(t', c') := propagate_carry fuel t k c in
    limbs_ok t' 0 N /\ 0 <= c' /\
    eval t' 0 N + c' * W ^ Z.of_nat N = eval t 0 N + c * W ^ Z.of_nat k /\
    (forall q, (q < k)%nat -> t' q = t q).
Proof.
  induction fuel as [|fuel IH]; intros t k c Hk Hok Hc.
  - simpl. replace k with N by lia. split; [exact Hok|]. split; [lia|].
    split; [reflexivity|]. reflexivity.
  - simpl. destruct (Z.eqb_spec c 0) as [->|Hnz].
    + split; [exact Hok|]. split; [lia|]. split; [lia|]. reflexivity.
    + unfold rd. pose proof W_ge_4.
      pose proof (limbs_ok0 _ _ k Hok ltac:(lia)) as Htk.
      assert (Hs : 0 <= t k + c < 2 * W) by lia.
      rewrite u128_small by nia. rewrite shiftr64.
      pose proof (div_W_bound _ 2 Hs) as Hq.
      rewrite (u64_small (_ / W)) by lia. rewrite u64_mod.
      pose proof (Z.mod_pos_bound (t k + c) W W_pos) as Hr.
      pose proof (div_mod_W (t k + c)) as Hdm.
      specialize (IH (wr t k ((t k + c) mod W)) (Datatypes.S k) ((t k + c) / W)
                    ltac:(lia) (limbs_ok_wr _ _ _ _ _ Hok Hr) ltac:(lia)).
      destruct (propagate_carry fuel _ _ _) as [t' c'].
      destruct IH as (Hok' & Hc' & Hval & Hfr).
      split; [exact Hok'|]. split; [exact Hc'|]. split.
      * rewrite Hval, eval_wr0 by lia. rewrite Wpow_S.
        set (Pk := W ^ Z.of_nat k).
        replace ((t k + c) mod W) with (t k + c - W * ((t k + c) / W)) by lia.
        ring.
      * intros q Hlt. rewrite Hfr by lia. apply wr_other. lia.
Qed.

(** ** The inner-loop bodies *)

Lemma neon_row_body_ok (h : mem) (x : Z) (y : ptr) (i L : nat) :
  0 <= x < W -> limbs_ok h y L ->
  forall j t c,
    (j < L)%nat -> 0 <= t (i + j)%nat < W -> 0 <= c < W ->
    exists v c',
      neon_row_body h x y i j (t, c) = (wr t (i + j) v, c') /\
      0 <= v < W /\ 0 <= c' < W /\
      v + W * c' = x * h (y + j)%nat + t (i + j)%nat + c.
Proof.
  intros Hx Hy j t c Hj Ht Hc. unfold neon_row_body, rd.
  pose proof (mac_neon_spec x (h (y + j)%nat) (t (i + j)%nat) c Hx (Hy j Hj) Ht Hc) as H.
  destruct (mul64_neon x (h (y + j)%nat)) as [lo hi]. cbv zeta in H.
  destruct H as (Hv & Hc' & E). eauto 6.
Qed.

Lemma scalar_row_body_ok (h : mem) (x : Z) (y : ptr) (i L : nat) :
  0 <= x < W -> limbs_ok h y L ->
  forall j t c,
    (j < L)%nat -> 0 <= t (i + j)%nat < W -> 0 <= c < W ->
    exists v c',
      scalar_row_body h x y i j (t, c) = (wr t (i + j) v, c') /\
      0 <= v < W /\ 0 <= c' < W /\
      v + W * c' = x * h (y + j)%nat + t (i + j)%nat + c.
Proof.
  intros Hx Hy j t c Hj Ht Hc. unfold scalar_row_body, rd.
  pose proof (mac_scalar_spec x (h (y + j)%nat) (t (i + j)%nat) c Hx (Hy j Hj) Ht Hc) as H.
  cbv zeta in H. destruct H as (Hv & Hc' & E). eauto 6.
Qed.

(** A row followed by carry propagation adds [x * y * W^i] to [t], as long
    as the sum fits the [N] limbs of [t]. *)
Lemma row_propagate_spec (h : mem) (x : Z) (y : ptr) (i L N : nat)
    (body : nat -> mem * Z -> mem * Z) (t : mem) :
  (i + L <= N)%nat ->
  (forall j t c,
    (j < L)%nat -> 0 <= t (i + j)%nat < W -> 0 <= c < W ->
    exists v c',
      body j (t, c) = (wr t (i + j) v, c') /\
      0 <= v < W /\ 0 <= c' < W /\
      v + W * c' = x * h (y + j)%nat + t (i + j)%nat + c) ->
  limbs_ok t 0 N ->
  let '(t1, c) := for_loop L body (t, 0) in
  let t2 := fst (propagate_carry (N - (i + L)) t1 (i + L) c) in
  limbs_ok t2 0 N /\
  (eval t 0 N + x * eval h y L * W ^ Z.of_nat i < W ^ Z.of_nat N ->
   eval t2 0 N = eval t 0 N + x * eval h y L * W ^ Z.of_nat i).
Proof.
  intros HiL Hbody Ht.
  pose proof (mac_row_spec h x y i L N body HiL Hbody t Ht) as Hrow.
  destruct (for_loop L body (t, 0)) as [t1 c].
  destruct Hrow as (Hok1 & Hc & Hval & _).
  pose proof (propagate_carry_spec N (N - (i + L)) t1 (i + L) c
                ltac:(lia) Hok1 Hc) as Hp.
  destruct (propagate_carry (N - (i + L)) t1 (i + L) c) as [t2 c2].
  destruct Hp as (Hok2 & Hc2 & Hval2 & _). cbv zeta. simpl fst.
  split; [exact Hok2|]. intros Hfit.
  pose proof (eval_bounds _ _ _ Hok2) as B2. pose proof (Wpow_pos N).
  assert (c2 = 0) by nia. subst c2. lia.
Qed.

Lemma eval_S (m : mem) (p : ptr) (k : nat) :
  eval m p (S k) = eval m p k + m (p + k)%nat * W ^ Z.of_nat k.
Proof. reflexivity. Qed.

Lemma eval_zero (m : mem) (p : ptr) (n : nat) :
  (forall i, (i < n)%nat -> m (p + i)%nat = 0) -> eval m p n = 0.
Proof.
  induction n as [|k IH]; intros Hz; [reflexivity|].
  rewrite eval_S, IH, Hz by (intros; try apply Hz; lia). reflexivity.
Qed.

Lemma eval_memset0 (t : mem) (n : nat) :
  limbs_ok (memset0 t 0 n) 0 n /\ eval (memset0 t 0 n) 0 n = 0.
Proof.
  assert (Hz : forall i, (i < n)%nat -> memset0 t 0 n (0 + i)%nat = 0).
  { intros i Hi. apply memset0_in. unfold region. lia. }
  split.
  - intros i Hi. rewrite Hz by exact Hi. pose proof W_pos. lia.
  - apply eval_zero, Hz.
Qed.

(** ** Schoolbook multiplication *)

Lemma neon_schoolbook_mul_spec (h : mem) (a b : ptr) (t : mem) (L : nat) :
  limbs_ok h a L -> limbs_ok h b L ->
  let t' := neon_schoolbook_mul h a b t L in
  limbs_ok t' 0 (2 * L) /\ eval t' 0 (2 * L) = eval h a L * eval h b L.
Proof.
  intros Ha Hb. cbv zeta. unfold neon_schoolbook_mul.
  assert (Hinv : forall k, (k <= L)%nat ->
    let t' := for_loop k
      (fun i result =>
         let '(result, carry) :=
           for_loop L (neon_row_body h (rd h (a + i)) b i) (result, 0) in
         fst (propagate_carry (2 * L - (i + L)) result (i + L) carry))
      (memset0 t 0 (2 * L)) in
    limbs_ok t' 0 (2 * L) /\ eval t' 0 (2 * L) = eval h a k * eval h b L).
  { induction k as [|k IH]; intros Hk.
    - cbv zeta. rewrite for_loop_0.
      destruct (eval_memset0 t (2 * L)) as [H1 H2].
      rewrite H2. simpl. split; [exact H1|reflexivity].
    - cbv zeta. rewrite for_loop_S. specialize (IH ltac:(lia)). cbv zeta in IH.
      set (tk := for_loop k _ _) in *. destruct IH as [Hok Hval].
      pose proof (row_propagate_spec h (rd h (a + k)) b k L (2 * L)
        (neon_row_body h (rd h (a + k)) b k) tk ltac:(lia)
        (neon_row_body_ok h _ b k L (Ha k ltac:(lia)) Hb) Hok) as Hrp.
      destruct (for_loop L _ (tk, 0)) as [t1 c]. cbv zeta in Hrp.
      destruct Hrp as [Hok2 Hval2]. split; [exact Hok2|].
      rewrite Hval2.
      + rewrite Hval, eval_S. unfold rd. ring.
      + rewrite Hval. unfold rd.
        assert (Ha' : limbs_ok h a (S k)) by (eapply limbs_ok_le; [|exact Ha]; lia).
        pose proof (eval_bounds _ _ _ Ha') as Ba. rewrite eval_S in Ba.
        pose proof (eval_bounds _ _ _ Hb) as Bb.
        pose proof (Wpow_le (S k + L) (2 * L) ltac:(lia)) as Hle.
        rewrite Wpow_add in Hle. nia. }
  exact (Hinv L (Nat.le_refl L)).
Qed.

Lemma scalar_schoolbook_spec (h : mem) (a b : ptr) (t : mem) (L : nat) :
  limbs_ok h a L -> limbs_ok h b L ->
  let t' := scalar_schoolbook h a b t L in
  limbs_ok t' 0 (2 * L) /\ eval t' 0 (2 * L) = eval h a L * eval h b L.
Proof.
  intros Ha Hb. cbv zeta. unfold scalar_schoolbook.
  assert (Hinv : forall k, (k <= L)%nat ->
    let t' := for_loop k
      (fun i t =>
         let '(t, carry) :=
           for_loop L (scalar_row_body h (rd h (a + i)) b i) (t, 0) in
         wr t (i + L) carry)
      (memset0 t 0 (2 * L)) in
    limbs_ok t' 0 (2 * L) /\ eval t' 0 (2 * L) = eval h a k * eval h b L).
  { induction k as [|k IH]; intros Hk.
    - cbv zeta. rewrite for_loop_0.
      destruct (eval_memset0 t (2 * L)) as [H1 H2].
      rewrite H2. simpl. split; [exact H1|reflexivity].
    - cbv zeta. rewrite for_loop_S. specialize (IH ltac:(lia)). cbv zeta in IH.
      set (tk := for_loop k _ _) in *. destruct IH as [Hok Hval].
      pose proof (mac_row_spec h (rd h (a + k)) b k L (2 * L)
        (scalar_row_body h (rd h (a + k)) b k) ltac:(lia)
        (scalar_row_body_ok h _ b k L (Ha k ltac:(lia)) Hb) tk Hok) as Hrow.
      destruct (for_loop L _ (tk, 0)) as [t1 c].
      destruct Hrow as (Hok1 & Hc & Hval1 & Hfr).
      assert (Ha' : limbs_ok h a k) by (eapply limbs_ok_le; [|exact Ha]; lia).
      pose proof (eval_bounds _ _ _ Ha') as Ba.
      pose proof (eval_bounds _ _ _ Hb) as Bb.
      assert (Hz : t1 (k + L)%nat = 0).
      { rewrite Hfr by (unfold region; lia).
        apply (eval_small_limb_zero tk 0 (2 * L) (k + L) (k + L) Hok); [|lia].
        rewrite Hval, Wpow_add. pose proof (Wpow_pos k). pose proof (Wpow_pos L). nia. }
      split; [apply limbs_ok_wr; assumption|].
      rewrite eval_wr0 by lia. rewrite Hz, eval_S. unfold rd in *. lia. }
  exact (Hinv L (Nat.le_refl L)).
Qed.

(** ** Montgomery reduction *)

Lemma limb_div (m : mem) (n i : nat) :
  limbs_ok m 0 n -> (i < n)%nat ->
  m i = (eval m 0 n / W ^ Z.of_nat i) mod W.
Proof.
  intros Hok Hi.
  replace n with (i + (1 + (n - i - 1)))%nat in Hok |- * by lia.
  rewrite eval_split, eval_split. simpl (0 + i)%nat.
  change (eval m i 1) with (0 + m (i + 0)%nat * W ^ 0).
  rewrite Nat.add_0_r, Z.pow_0_r, Z.add_0_l, Z.mul_1_r.
  change (W ^ Z.of_nat 1) with (W ^ 1). rewrite Z.pow_1_r.
  assert (B : 0 <= eval m 0 i < W ^ Z.of_nat i).
  { apply eval_bounds. eapply limbs_ok_le; [|exact Hok]. lia. }
  pose proof (Hok i ltac:(lia)) as Bi. simpl in Bi.
  pose proof (Wpow_pos i) as Hp. set (rest := eval m (i + 1) (n - i - 1)).
  assert (E : (eval m 0 i + W ^ Z.of_nat i * (m i + W * rest)) / W ^ Z.of_nat i
              = m i + W * rest).
  { symmetry. apply Z.div_unique with (r := eval m 0 i); [lia|ring]. }
  rewrite E. apply Z.mod_unique with (q := rest); [lia|ring].
Qed.

Section ReduceLoop.

Variables (h : mem) (modulus : ptr) (mu : Z) (L : nat).
Variable body : Z -> nat -> nat -> mem * Z -> mem * Z.

Hypothesis Hm : limbs_ok h modulus L.
Hypothesis Hmu : (mu * eval h modulus L + 1) mod W = 0.
Hypothesis Hbody : forall m i j t c,
  0 <= m < W ->
  (j < L)%nat -> 0 <= t (i + j)%nat < W -> 0 <= c < W ->
  exists v c',
    body m i j (t, c) = (wr t (i + j) v, c') /\
    0 <= v < W /\ 0 <= c' < W /\
    v + W * c' = m * h (modulus + j)%nat + t (i + j)%nat + c.

(** Each round clears one more low limb of [t] by adding a multiple of
    the modulus. *)
Lemma reduce_loop_spec (t : mem) :
  limbs_ok t 0 (2 * L) ->
  eval t 0 (2 * L) + W ^ Z.of_nat L * eval h modulus L <= W ^ Z.of_nat (2 * L) ->
  let t' := reduce_loop body mu L t in
  limbs_ok t' 0 (2 * L) /\
  exists Q, 0 <= Q < W ^ Z.of_nat L /\
    eval t' 0 (2 * L) = eval t 0 (2 * L) + Q * eval h modulus L /\
    eval t' 0 (2 * L) mod W ^ Z.of_nat L = 0.
Proof.
  intros Ht Hfit. cbv zeta. unfold reduce_loop.
  set (M := eval h modulus L) in *.
  assert (HM : 0 <= M) by (apply eval_bounds, Hm).
  set (step := fun (i : nat) (t : mem) => _).
  assert (Hinv : forall k, (k <= L)%nat ->
    let t' := for_loop k step t in
    limbs_ok t' 0 (2 * L) /\
    exists Q, 0 <= Q < W ^ Z.of_nat k /\
      eval t' 0 (2 * L) = eval t 0 (2 * L) + Q * M /\
      eval t' 0 (2 * L) mod W ^ Z.of_nat k = 0).
  { induction k as [|k IH]; intros Hk.
    - cbv zeta. rewrite for_loop_0. split; [exact Ht|].
      exists 0. simpl. split; [lia|]. split; [lia|]. apply Z.mod_1_r.
    - cbv zeta. rewrite for_loop_S. specialize (IH ltac:(lia)). cbv zeta in IH.
      set (tk := for_loop k step t) in *.
      destruct IH as (Hok & Q & HQ & Hval & Hdiv).
      set (q := u64 (rd tk k * mu)).
      assert (Hq : 0 <= q < W) by apply u64_range.
      assert (Es : step k tk =
                   let '(t0, carry) := for_loop L (body q k) (tk, 0) in
                   fst (propagate_carry (2 * L - (k + L)) t0 (k + L) carry))
        by reflexivity.
      rewrite Es. clear Es.
      pose proof (row_propagate_spec h q modulus k L (2 * L) (body q k) tk
        ltac:(lia) (fun j t c => Hbody q k j t c Hq) Hok) as Hrp.
      destruct (for_loop L (body q k) (tk, 0)) as [t1 c]. cbv zeta in Hrp.
      destruct Hrp as [Hok2 Hval2]. split; [exact Hok2|].
      pose proof (Wpow_pos k) as Pk. pose proof (Wpow_pos L) as PL.
      pose proof (Wpow_le (S k) L Hk) as Hle. pose proof W_pos as HW.
      rewrite Wpow_S in *.
      exists (Q + q * W ^ Z.of_nat k).
      assert (HQ' : 0 <= Q + q * W ^ Z.of_nat k < W * W ^ Z.of_nat k) by nia.
      split; [exact HQ'|].
      assert (Hv : eval (fst (propagate_carry (2 * L - (k + L)) t1 (k + L) c)) 0 (2 * L)
                   = eval tk 0 (2 * L) + q * M * W ^ Z.of_nat k).
      { apply Hval2. rewrite Hval. fold M.
        assert (HQL : Q + q * W ^ Z.of_nat k < W ^ Z.of_nat L) by lia.
        pose proof (eval_bounds _ _ _ Ht) as Bt.
        destruct (Z.eq_dec M 0) as [E0|E0]; [rewrite E0; lia|].
        assert ((Q + q * W ^ Z.of_nat k) * M < W ^ Z.of_nat L * M) by nia.
        lia. }
      split; [rewrite Hv, Hval; ring|].
      rewrite Hv.
      pose proof (limb_div tk (2 * L) k Hok ltac:(lia)) as Hlimb.
      set (E := eval tk 0 (2 * L)) in *. set (P := W ^ Z.of_nat k) in *.
      assert (HE : E = P * (E / P)).
      { pose proof (Z.div_mod E P ltac:(lia)). lia. }
      set (X := E / P) in *.
      replace (E + q * M * P) with (P * (X + q * M)) by (rewrite HE at 1; ring).
      rewrite (Z.mul_comm W P), Z.mul_mod_distr_l by lia.
      assert (Hz : (X + q * M) mod W = 0).
      { unfold q, rd. rewrite Hlimb, u64_mod.
        pose proof (div_mod_W (mu * M + 1)) as Hk1. rewrite Hmu in Hk1.
        pose proof (div_mod_W X) as HX.
        pose proof (div_mod_W (X mod W * mu)) as Hq2.
        set (k1 := (mu * M + 1) / W) in *. set (k2 := X mod W * mu / W) in *.
        set (xm := X mod W) in *. set (xd := X / W) in *.
        set (qq := (xm * mu) mod W) in *.
        apply Z.mod_divide; [lia|]. exists (xd + xm * k1 - k2 * M).
        replace qq with (xm * mu - W * k2) by lia.
        replace X with (xm + W * xd) by lia.
        transitivity (W * xd + xm * (mu * M + 1) - W * k2 * M); [ring|].
        replace (mu * M + 1) with (W * k1) by lia. ring. }
      rewrite Hz. ring. }
  exact (Hinv L (Nat.le_refl L)).
Qed.

End ReduceLoop.

(** ** The final conditional subtraction *)

Lemma final_reduction_spec (h t : mem) (modulus result : ptr) (L : nat) :
  limbs_ok t 0 (2 * L) -> limbs_ok h modulus L ->
  disjoint result L modulus L ->
  eval t L L < 2 * eval h modulus L ->
  let h' := final_reduction h t modulus result L in
  limbs_ok h' result L /\
  0 <= eval h' result L < eval h modulus L /\
  (eval h' result L = eval t L L \/
   eval h' result L = eval t L L - eval h modulus L) /\
  (forall q, ~ region result L q -> h' q = h q).
Proof.
  intros Ht Hm Hdis Hlt. cbv zeta. unfold final_reduction.
  set (h1 := memcpy h result t L L).
  assert (Hcopy : forall i, (i < L)%nat -> h1 (result + i)%nat = t (L + i)%nat).
  { intros i Hi. apply memcpy_in, Hi. }
  assert (Hkeep : forall q, ~ region result L q -> h1 q = h q).
  { intros q Hq. apply memcpy_out, Hq. }
  assert (Hmod : forall i, (i < L)%nat -> h1 (modulus + i)%nat = h (modulus + i)%nat).
  { intros i Hi. apply Hkeep. unfold region, disjoint in *. lia. }
  assert (Ht' : limbs_ok t L L).
  { intros i Hi. apply (Ht (L + i)%nat). lia. }
  assert (Hr1 : limbs_ok h1 result L) by (eapply limbs_ok_ext; [exact Hcopy|exact Ht']).
  assert (Hm1 : limbs_ok h1 modulus L) by (eapply limbs_ok_ext; [exact Hmod|exact Hm]).
  assert (Er : eval h1 result L = eval t L L) by (apply eval_ext, Hcopy).
  assert (Em : eval h1 modulus L = eval h modulus L) by (apply eval_ext, Hmod).
  pose proof (eval_bounds _ _ _ Hr1) as Br. pose proof (eval_bounds _ _ _ Hm1) as Bm.
  destruct (compare_limbs_spec h1 result modulus L Hr1 Hm1) as [[-> Hc]|[[-> Hc]|[-> Hc]]];
    [ change (-1 >=? 0) with false
    | change (0 >=? 0) with true
    | change (1 >=? 0) with true ]; cbv iota.
  - split; [exact Hr1|]. split; [lia|]. split; [left; exact Er|exact Hkeep].
  - pose proof (sub_with_borrow_spec h1 result modulus result L Hr1 Hm1
                  (or_introl eq_refl) (or_intror Hdis)) as Hs.
    destruct (sub_with_borrow result modulus result h1 L) as [h2 bw].
    destruct Hs as (Hb & Hv & Hok & Hfr). simpl fst.
    pose proof (eval_bounds _ _ _ Hok) as B2.
    assert (bw = 0) by (destruct (Z.eq_dec bw 0); [assumption|]; assert (bw = 1) by lia; subst bw; lia).
    subst bw.
    split; [exact Hok|]. split; [lia|]. split; [right; lia|].
    intros q Hq. rewrite Hfr by exact Hq. apply Hkeep, Hq.
  - pose proof (sub_with_borrow_spec h1 result modulus result L Hr1 Hm1
                  (or_introl eq_refl) (or_intror Hdis)) as Hs.
    destruct (sub_with_borrow result modulus result h1 L) as [h2 bw].
    destruct Hs as (Hb & Hv & Hok & Hfr). simpl fst.
    pose proof (eval_bounds _ _ _ Hok) as B2.
    assert (bw = 0) by (destruct (Z.eq_dec bw 0); [assumption|]; assert (bw = 1) by lia; subst bw; lia).
    subst bw.
    split; [exact Hok|]. split; [lia|]. split; [right; lia|].
    intros q Hq. rewrite Hfr by exact Hq. apply Hkeep, Hq.
Qed.

(** ** Reduction of a product of reduced operands *)

Lemma mod_one_witness (x M : Z) :
  0 < M -> x mod M = 1 mod M -> exists j, x = 1 + j * M.
Proof.
  intros HM H. exists (x / M - 1 / M).
  pose proof (Z.div_mod x M ltac:(lia)). pose proof (Z.div_mod 1 M ltac:(lia)).
  nia.
Qed.

Lemma montgomery_core (h t : mem) (a b modulus : ptr) (mu : Z) (result : ptr)
    (L : nat) (body : Z -> nat -> nat -> mem * Z -> mem * Z) :
  montgomery_pre L h a b modulus mu result ->
  2 * eval h modulus L <= R L ->
  (forall m i j t c,
    0 <= m < W ->
    (j < L)%nat -> 0 <= t (i + j)%nat < W -> 0 <= c < W ->
    exists v c',
      body m i j (t, c) = (wr t (i + j) v, c') /\
      0 <= v < W /\ 0 <= c' < W /\
      v + W * c' = m * h (modulus + j)%nat + t (i + j)%nat + c) ->
  limbs_ok t 0 (2 * L) ->
  eval t 0 (2 * L) = eval h a L * eval h b L ->
  montgomery_post L h a b modulus result
    (final_reduction h (reduce_loop body mu L t) modulus result L).
Proof.
  intros (Ha & Hb & Hm & Hdis & _ & _ & Hmu & HaM & HbM) Hbound Hbody Ht Hprod.
  rewrite R_Wpow in Hbound. rewrite <- W_def in Hmu.
  pose proof (eval_bounds _ _ _ Ha) as Ba. pose proof (eval_bounds _ _ _ Hb) as Bb.
  pose proof (eval_bounds _ _ _ Hm) as Bm. pose proof (Wpow_pos L) as PL.
  set (A := eval h a L) in *. set (B := eval h b L) in *.
  set (M := eval h modulus L) in *. set (RL := W ^ Z.of_nat L) in *.
  assert (Hsq : W ^ Z.of_nat (2 * L) = RL * RL).
  { replace (2 * L)%nat with (L + L)%nat by lia. apply Wpow_add. }
  assert (HAB : A * B < M * RL) by nia.
  assert (Hfit : eval t 0 (2 * L) + RL * M <= W ^ Z.of_nat (2 * L)).
  { rewrite Hprod, Hsq. nia. }
  destruct (reduce_loop_spec h modulus mu L body Hm Hmu Hbody t Ht Hfit)
    as (Hok & Q & HQ & Hval & Hdiv).
  set (t' := reduce_loop body mu L t) in *.
  assert (Hsplit : eval t' 0 (2 * L) = eval t' 0 L + RL * eval t' L L).
  { replace (2 * L)%nat with (L + L)%nat by lia. apply (eval_split t' 0 L L). }
  assert (Blo : 0 <= eval t' 0 L < RL).
  { apply eval_bounds. eapply limbs_ok_le; [|exact Hok]. lia. }
  assert (Bhi : 0 <= eval t' L L).
  { apply eval_bounds. intros i Hi. apply (Hok (L + i)%nat). lia. }
  assert (Hlo : eval t' 0 L = 0).
  { rewrite Hsplit in Hdiv. fold RL in Hdiv.
    rewrite (Z.mul_comm RL), Z_mod_plus_full in Hdiv.
    rewrite Z.mod_small in Hdiv by exact Blo. exact Hdiv. }
  assert (Hr : RL * eval t' L L = A * B + Q * M) by lia.
  set (r := eval t' L L) in *.
  assert (Hr2 : r < 2 * M) by nia.
  destruct (final_reduction_spec h t' modulus result L Hok Hm Hdis Hr2)
    as (Hrok & Hrange & Hcase & _).
  set (v := eval (final_reduction h t' modulus result L) result L) in *.
  split; [exact Hrok|]. split; [lia|].
  intros Rinv HRinv. rewrite R_Wpow in HRinv. fold RL in HRinv.
  destruct (mod_one_witness _ M ltac:(lia) HRinv) as [j Hj].
  assert (Hv : exists K, v * RL = A * B + K * M).
  { destruct Hcase as [E|E]; fold v r in E; rewrite E.
    - exists Q. lia.
    - exists (Q - RL). lia. }
  destruct Hv as [K HK].
  apply Z.mod_unique with (q := v * j - K * Rinv); [lia|].
  assert (H1 : (A * B + K * M) * Rinv = v * (1 + j * M)).
  { rewrite <- HK, <- Hj. ring. }
  fold A B M v.
  replace (A * B * Rinv) with ((A * B + K * M) * Rinv - K * M * Rinv) by ring.
  rewrite H1. ring.
Qed.

Lemma neon_montgomery_reduce_unfold (h t : mem) (modulus : ptr) (mu : Z)
    (result : ptr) (L : nat) :
  neon_montgomery_reduce h t modulus mu result L =
  final_reduction h
    (reduce_loop (fun m i => neon_row_body h m modulus i) mu L t)
    modulus result L.
Proof. reflexivity. Qed.

Lemma montgomery_mul_scalar_unfold (h t : mem) (a b modulus : ptr) (mu : Z)
    (result : ptr) (L : nat) :
  montgomery_mul_scalar h t a b modulus mu result L =
  final_reduction h
    (reduce_loop (fun m i => scalar_row_body h m modulus i) mu L
       (scalar_schoolbook h a b t L))
    modulus result L.
Proof. reflexivity. Qed.

Lemma montgomery_neon_correct (h t : mem) (a b modulus : ptr) (mu : Z)
    (result : ptr) (L : nat) :
  montgomery_pre L h a b modulus mu result ->
  2 * eval h modulus L <= R L ->
  montgomery_post L h a b modulus result
    (neon_montgomery_reduce h (neon_schoolbook_mul h a b t L) modulus mu result L).
Proof.
  intros Hpre Hbound. rewrite neon_montgomery_reduce_unfold.
  pose proof Hpre as (Ha & Hb & Hm & _).
  destruct (neon_schoolbook_mul_spec h a b t L Ha Hb) as [Hok Hval].
  apply montgomery_core; try assumption.
  intros m i j t0 c Hm0. apply (neon_row_body_ok h m modulus i L Hm0 Hm).
Qed.

Lemma montgomery_scalar_correct (h t : mem) (a b modulus : ptr) (mu : Z)
    (result : ptr) (L : nat) :
  montgomery_pre L h a b modulus mu result ->
  2 * eval h modulus L <= R L ->
  montgomery_post L h a b modulus result
    (montgomery_mul_scalar h t a b modulus mu result L).
Proof.
  intros Hpre Hbound. rewrite montgomery_mul_scalar_unfold.
  pose proof Hpre as (Ha & Hb & Hm & _).
  destruct (scalar_schoolbook_spec h a b t L Ha Hb) as [Hok Hval].
  apply montgomery_core; try assumption.
  intros m i j t0 c Hm0. apply (scalar_row_body_ok h m modulus i L Hm0 Hm).
Qed.

(** ** Claim C1 *)

(** C1 (amended).  For [L = 4] and [L = 6], every odd [L]-limb modulus
    [m] below [2^(64 L - 1)], every [mu] with [mu = -m^-1 mod 2^64] and
    all operands [a, b < m]: [neon_montgomery_mul_4limb] and
    [neon_montgomery_mul_6limb], in the NEON build and in the scalar
    build alike, write to [result] the [L]-limb value
    [a * b * R^-1 mod m] with [R = 2^(64 L)], and that value is below
    [m]. *)
Theorem montgomery_mul_correct (NEON_AVAILABLE : bool) (t h : mem)
    (a b modulus : ptr) (mu : Z) (result : ptr) :
  (montgomery_pre 4 h a b modulus mu result ->
   2 * eval h modulus 4 <= R 4 ->
   montgomery_post 4 h a b modulus result
     (neon_montgomery_mul_4limb NEON_AVAILABLE t h a b modulus mu result)) /\
  (montgomery_pre 6 h a b modulus mu result ->
   2 * eval h modulus 6 <= R 6 ->
   montgomery_post 6 h a b modulus result
     (neon_montgomery_mul_6limb NEON_AVAILABLE t h a b modulus mu result)).
Proof.
  unfold neon_montgomery_mul_4limb, neon_montgomery_mul_6limb.
  split; intros Hpre Hbound; destruct NEON_AVAILABLE;
    (apply montgomery_neon_correct || apply montgomery_scalar_correct);
    assumption.
Qed.

(** The identity check of the specification: with the 255-bit modulus
    [0x73EDA753...00000001] and [a = b = R mod m], the Montgomery form
    of 1. *)
Lemma montgomery_mul_correct_witness :
  let m := [0xFFFFFFFF00000001; 0x53BDA402FFFE5BFE;
            0x3339D80809A1D805; 0x73EDA753299D7D48] in
  let one := [0x00000001FFFFFFFE; 0x5884B7FA00034802;
              0x998C4FEFECBC4FF5; 0x1824B159ACC5056F] in
  let h := store (store (store zero_mem 0 one) 4 one) 8 m in
  montgomery_post 4 h 0 4 8 12
    (neon_montgomery_mul_4limb true zero_mem h 0 4 8 0xFFFFFFFEFFFFFFFF 12).
Proof.
  intros m one h.
  apply (proj1 (montgomery_mul_correct true zero_mem h 0 4 8 0xFFFFFFFEFFFFFFFF 12)).
  - unfold montgomery_pre.
    split; [limbs4|]. split; [limbs4|]. split; [limbs4|].
    split; [right; lia|]. split; [vm_compute; reflexivity|].
    split; [split; [discriminate|reflexivity]|].
    split; [vm_compute; reflexivity|].
    split; vm_compute; reflexivity.
  - vm_compute. congruence.
Defined.

(** C1 as stated, for every odd [L]-limb modulus, fails: with the odd
    4-limb modulus [m = 2^256 - 1], [mu = 1] and [a = b = m - 1] the
    running sum of the reduction needs a 513th bit, which the 8-limb
    buffer drops; the code returns 0 where [a * b * R^-1 mod m] is 1. *)
Lemma montgomery_mul_overflow :
  let m := [2 ^ 64 - 1; 2 ^ 64 - 1; 2 ^ 64 - 1; 2 ^ 64 - 1] in
  let x := [2 ^ 64 - 2; 2 ^ 64 - 1; 2 ^ 64 - 1; 2 ^ 64 - 1] in
  let h := store (store (store zero_mem 0 x) 4 x) 8 m in
  montgomery_pre 4 h 0 4 8 1 12 /\
  ~ montgomery_post 4 h 0 4 8 12
      (neon_montgomery_mul_4limb true zero_mem h 0 4 8 1 12) /\
  ~ montgomery_post 4 h 0 4 8 12
      (neon_montgomery_mul_4limb false zero_mem h 0 4 8 1 12).
Proof.
  intros m x h. split; [|split].
  - unfold montgomery_pre.
    split; [limbs4|]. split; [limbs4|]. split; [limbs4|].
    split; [right; lia|]. split; [vm_compute; reflexivity|].
    split; [split; [discriminate|reflexivity]|].
    split; [vm_compute; reflexivity|].
    split; vm_compute; reflexivity.
  - intros (_ & _ & H). specialize (H 1 ltac:(vm_compute; reflexivity)).
    vm_compute in H. discriminate H.
  - intros (_ & _ & H). specialize (H 1 ltac:(vm_compute; reflexivity)).
    vm_compute in H. discriminate H.
Qed.

(** ** What the multipliers read and write *)

Lemma neon_row_body_ext (h1 h2 : mem) (x : Z) (y : ptr) (i L j : nat)
    (st : mem * Z) :
  (forall k, (k < L)%nat -> h1 (y + k)%nat = h2 (y + k)%nat) -> (j < L)%nat ->
  neon_row_body h1 x y i j st = neon_row_body h2 x y i j st.
Proof. intros H Hj. unfold neon_row_body, rd. rewrite H by exact Hj. reflexivity. Qed.

Lemma scalar_row_body_ext (h1 h2 : mem) (x : Z) (y : ptr) (i L j : nat)
    (st : mem * Z) :
  (forall k, (k < L)%nat -> h1 (y + k)%nat = h2 (y + k)%nat) -> (j < L)%nat ->
  scalar_row_body h1 x y i j st = scalar_row_body h2 x y i j st.
Proof. intros H Hj. unfold scalar_row_body, rd. rewrite H by exact Hj. reflexivity. Qed.

Lemma neon_schoolbook_mul_unfold (h : mem) (a b : ptr) (t : mem) (L : nat) :
  neon_schoolbook_mul h a b t L =
  for_loop L
    (fun i r =>
       let '(r, c) := for_loop L (neon_row_body h (rd h (a + i)) b i) (r, 0) in
       fst (propagate_carry (2 * L - (i + L)) r (i + L) c))
    (memset0 t 0 (2 * L)).
Proof. reflexivity. Qed.

Section SameInputs.

Variables (h1 h2 : mem) (a b modulus : ptr) (L : nat).
Hypothesis Ha : forall i, (i < L)%nat -> h1 (a + i)%nat = h2 (a + i)%nat.
Hypothesis Hb : forall i, (i < L)%nat -> h1 (b + i)%nat = h2 (b + i)%nat.
Hypothesis Hm : forall i, (i < L)%nat -> h1 (modulus + i)%nat = h2 (modulus + i)%nat.

Lemma neon_schoolbook_mul_ext (t : mem) :
  neon_schoolbook_mul h1 a b t L = neon_schoolbook_mul h2 a b t L.
Proof.
  rewrite !neon_schoolbook_mul_unfold. apply for_loop_ext. intros i r Hi.
  unfold rd. rewrite Ha by exact Hi.
  rewrite (for_loop_ext L (neon_row_body h1 (h2 (a + i)%nat) b i)
             (neon_row_body h2 (h2 (a + i)%nat) b i)); [reflexivity|].
  intros j st Hj. apply (neon_row_body_ext h1 h2 _ b i L j st Hb Hj).
Qed.

Lemma scalar_schoolbook_ext (t : mem) :
  scalar_schoolbook h1 a b t L = scalar_schoolbook h2 a b t L.
Proof.
  unfold scalar_schoolbook. apply for_loop_ext. intros i r Hi.
  unfold rd. rewrite Ha by exact Hi.
  rewrite (for_loop_ext L (scalar_row_body h1 (h2 (a + i)%nat) b i)
             (scalar_row_body h2 (h2 (a + i)%nat) b i)); [reflexivity|].
  intros j st Hj. apply (scalar_row_body_ext h1 h2 _ b i L j st Hb Hj).
Qed.

Lemma reduce_loop_ext (body1 body2 : Z -> nat -> nat -> mem * Z -> mem * Z)
    (mu : Z) (t : mem) :
  (forall m i j st, (j < L)%nat -> body1 m i j st = body2 m i j st) ->
  reduce_loop body1 mu L t = reduce_loop body2 mu L t.
Proof.
  intros H. unfold reduce_loop. apply for_loop_ext. intros i r Hi. cbv zeta.
  rewrite (for_loop_ext L (body1 (u64 (rd r i * mu)) i)
             (body2 (u64 (rd r i * mu)) i)); [reflexivity|].
  intros j st Hj. apply H, Hj.
Qed.

Lemma compare_limbs_ext (g1 g2 : mem) (x y : ptr) (n : nat) :
  (forall i, (i < n)%nat -> g1 (x + i)%nat = g2 (x + i)%nat) ->
  (forall i, (i < n)%nat -> g1 (y + i)%nat = g2 (y + i)%nat) ->
  compare_limbs x y g1 n = compare_limbs x y g2 n.
Proof.
  induction n as [|n IH]; intros Hx Hy; [reflexivity|].
  simpl. unfold rd. rewrite Hx, Hy by lia.
  rewrite IH by (intros; (apply Hx || apply Hy); lia). reflexivity.
Qed.

(** Two runs of [sub_with_borrow] from memories that agree on a set [P]
    holding both operands agree on [P] and on the output block. *)
Lemma sub_with_borrow_ext (g1 g2 : mem) (x y r : ptr) (n : nat)
    (P : ptr -> Prop) :
  (forall i, (i < n)%nat -> P (x + i)%nat) ->
  (forall i, (i < n)%nat -> P (y + i)%nat) ->
  (forall q, P q -> g1 q = g2 q) ->
  forall q, P q \/ region r n q ->
    fst (sub_with_borrow x y r g1 n) q = fst (sub_with_borrow x y r g2 n) q.
Proof.
  intros Px Py Hag. unfold sub_with_borrow.
  set (body := fun (i : nat) '(h0, borrow) => _).
  assert (Hinv : forall k, (k <= n)%nat ->
    snd (for_loop k body (g1, 0)) = snd (for_loop k body (g2, 0)) /\
    forall q, P q \/ region r k q ->
      fst (for_loop k body (g1, 0)) q = fst (for_loop k body (g2, 0)) q).
  { induction k as [|k IH]; intros Hk.
    - rewrite !for_loop_0. cbn [fst snd]. split; [reflexivity|].
      intros q [Hq|Hq]; [apply Hag, Hq|]. unfold region in Hq. lia.
    - rewrite !for_loop_S. specialize (IH ltac:(lia)).
      destruct (for_loop k body (g1, 0)) as [k1 c1].
      destruct (for_loop k body (g2, 0)) as [k2 c2].
      cbn [fst snd] in IH. destruct IH as [Ec IH]. subst c2.
      unfold body, rd. cbn [fst snd].
      rewrite (IH (x + k)%nat) by (left; apply Px; lia).
      rewrite (IH (y + k)%nat) by (left; apply Py; lia).
      split; [reflexivity|]. intros q Hq.
      destruct (Nat.eq_dec q (r + k)) as [->|Hne].
      + rewrite !wr_same. reflexivity.
      + rewrite !wr_other by exact Hne. apply IH.
        destruct Hq as [Hq|Hq]; [left; exact Hq|right].
        unfold region in *. lia. }
  intros q Hq. apply (Hinv n (Nat.le_refl n)), Hq.
Qed.

Lemma final_reduction_ext (t : mem) (result : ptr) :
  forall i, (i < L)%nat ->
    final_reduction h1 t modulus result L (result + i)%nat =
    final_reduction h2 t modulus result L (result + i)%nat.
Proof.
  unfold final_reduction.
  set (g1 := memcpy h1 result t L L). set (g2 := memcpy h2 result t L L).
  assert (Hres : forall i, (i < L)%nat -> g1 (result + i)%nat = g2 (result + i)%nat).
  { intros i Hi. unfold g1, g2. rewrite !memcpy_in by exact Hi. reflexivity. }
  assert (Hmod : forall i, (i < L)%nat -> g1 (modulus + i)%nat = g2 (modulus + i)%nat).
  { intros i Hi. unfold g1, g2, memcpy.
    destruct ((result <=? modulus + i)%nat && (modulus + i <? result + L)%nat);
      [reflexivity | apply Hm, Hi]. }
  rewrite (compare_limbs_ext g1 g2 result modulus L Hres Hmod).
  destruct (compare_limbs result modulus g2 L >=? 0); [|exact Hres].
  intros i Hi.
  apply (sub_with_borrow_ext g1 g2 result modulus result L
           (fun q => region result L q \/ region modulus L q)).
  - intros j Hj. left. unfold region. lia.
  - intros j Hj. right. unfold region. lia.
  - intros q [Hq|Hq]; unfold region in Hq.
    + replace q with (result + (q - result))%nat by lia. apply Hres. lia.
    + replace q with (modulus + (q - modulus))%nat by lia. apply Hmod. lia.
  - right. unfold region. lia.
Qed.

End SameInputs.

Lemma sub_with_borrow_frame (h : mem) (a b result : ptr) (L : nat) (q : ptr) :
  ~ region result L q -> fst (sub_with_borrow a b result h L) q = h q.
Proof.
  intros Hq. unfold sub_with_borrow.
  set (body := fun (i : nat) '(h0, borrow) => _).
  assert (Hinv : forall k, (k <= L)%nat -> fst (for_loop k body (h, 0)) q = h q).
  { induction k as [|k IH]; intros Hk; [reflexivity|].
    rewrite for_loop_S. specialize (IH ltac:(lia)).
    destruct (for_loop k body (h, 0)) as [h' c]. cbn [fst] in IH.
    unfold body. cbn [fst].
    unfold region in Hq. rewrite wr_other by lia. exact IH. }
  apply (Hinv L (Nat.le_refl L)).
Qed.

Lemma final_reduction_frame (h t : mem) (modulus result : ptr) (L : nat) (q : ptr) :
  ~ region result L q -> final_reduction h t modulus result L q = h q.
Proof.
  intros Hq. unfold final_reduction.
  destruct (compare_limbs _ _ _ _ >=? 0).
  - rewrite sub_with_borrow_frame by exact Hq. apply memcpy_out, Hq.
  - apply memcpy_out, Hq.
Qed.

Lemma montgomery_mul_generic_frame (NEON_AVAILABLE : bool) (t h : mem)
    (a b modulus : ptr) (mu : Z) (result : ptr) (L : nat) (q : ptr) :
  ~ region result L q ->
  montgomery_mul_generic NEON_AVAILABLE t h a b modulus mu result L q = h q.
Proof.
  intros Hq. unfold montgomery_mul_generic. destruct NEON_AVAILABLE.
  - rewrite neon_montgomery_reduce_unfold. apply final_reduction_frame, Hq.
  - rewrite montgomery_mul_scalar_unfold. apply final_reduction_frame, Hq.
Qed.

(** The output depends on the memory through the three input blocks only. *)
Lemma montgomery_mul_generic_ext (NEON_AVAILABLE : bool) (t h1 h2 : mem)
    (a b modulus : ptr) (mu : Z) (result : ptr) (L : nat) :
  (forall i, (i < L)%nat -> h1 (a + i)%nat = h2 (a + i)%nat) ->
  (forall i, (i < L)%nat -> h1 (b + i)%nat = h2 (b + i)%nat) ->
  (forall i, (i < L)%nat -> h1 (modulus + i)%nat = h2 (modulus + i)%nat) ->
  forall i, (i < L)%nat ->
    montgomery_mul_generic NEON_AVAILABLE t h1 a b modulus mu result L (result + i)%nat =
    montgomery_mul_generic NEON_AVAILABLE t h2 a b modulus mu result L (result + i)%nat.
Proof.
  intros Ha Hb Hm. unfold montgomery_mul_generic. destruct NEON_AVAILABLE.
  - rewrite !neon_montgomery_reduce_unfold.
    rewrite (neon_schoolbook_mul_ext h1 h2 a b L Ha Hb).
    rewrite (reduce_loop_ext L (fun m i => neon_row_body h1 m modulus i)
               (fun m i => neon_row_body h2 m modulus i)).
    + apply final_reduction_ext, Hm.
    + intros m i j st Hj. apply (neon_row_body_ext h1 h2 m modulus i L j st Hm Hj).
  - rewrite !montgomery_mul_scalar_unfold.
    rewrite (scalar_schoolbook_ext h1 h2 a b L Ha Hb).
    rewrite (reduce_loop_ext L (fun m i => scalar_row_body h1 m modulus i)
               (fun m i => scalar_row_body h2 m modulus i)).
    + apply final_reduction_ext, Hm.
    + intros m i j st Hj. apply (scalar_row_body_ext h1 h2 m modulus i L j st Hm Hj).
Qed.

(** ** The batch loop *)

Section Batch.

Variable L : nat.
Variable mul : mem -> ptr -> ptr -> ptr -> Z -> ptr -> mem.

Hypothesis mul_frame : forall h a b modulus mu result q,
  ~ region result L q -> mul h a b modulus mu result q = h q.
Hypothesis mul_ext : forall h1 h2 a b modulus mu result,
  (forall i, (i < L)%nat -> h1 (a + i)%nat = h2 (a + i)%nat) ->
  (forall i, (i < L)%nat -> h1 (b + i)%nat = h2 (b + i)%nat) ->
  (forall i, (i < L)%nat -> h1 (modulus + i)%nat = h2 (modulus + i)%nat) ->
  forall i, (i < L)%nat ->
    mul h1 a b modulus mu result (result + i)%nat =
    mul h2 a b modulus mu result (result + i)%nat.

Variables (h : mem) (a b modulus : ptr) (mu : Z) (results : ptr).

Lemma batch_loop_spec (count : nat) :
  disjoint results (count * L) a (count * L) ->
  disjoint results (count * L) b (count * L) ->
  disjoint results (count * L) modulus L ->
  let hb := batch_loop mul L h a b modulus mu results count in
  (forall q, ~ region results (count * L) q -> hb q = h q) /\
  (forall i k, (i < count)%nat -> (k < L)%nat ->
     hb (results + i * L + k)%nat =
     mul h (a + i * L)%nat (b + i * L)%nat modulus mu (results + i * L)%nat
       (results + i * L + k)%nat).
Proof.
  unfold batch_loop.
  induction count as [|n IH]; intros Da Db Dm; cbv zeta.
  - rewrite for_loop_0. split; [reflexivity|]. intros i k Hi. lia.
  - rewrite for_loop_S.
    assert (Da' : disjoint results (n * L) a (n * L)) by (unfold disjoint in *; nia).
    assert (Db' : disjoint results (n * L) b (n * L)) by (unfold disjoint in *; nia).
    assert (Dm' : disjoint results (n * L) modulus L) by (unfold disjoint in *; nia).
    destruct (IH Da' Db' Dm') as [Hfr Hblk]. clear IH.
    set (hn := for_loop n _ h) in *.
    split.
    + intros q Hq. unfold region in Hq.
      rewrite mul_frame by (unfold region; nia).
      apply Hfr. unfold region. nia.
    + intros i k Hi Hk. destruct (Nat.eq_dec i n) as [->|Hne].
      * apply mul_ext; [| | |exact Hk]; intros j Hj; apply Hfr;
          unfold region, disjoint in *; nia.
      * rewrite mul_frame by (unfold region; nia).
        apply Hblk; lia.
Qed.

End Batch.

Lemma batch_generic_matches (NEON_AVAILABLE : bool) (t h : mem)
    (a b modulus : ptr) (mu : Z) (results : ptr) (count i L : nat) :
  batch_buffers_apart L a b modulus results count -> (i < count)%nat ->
  batch_matches_single L
    (batch_loop (fun h a b modulus mu result =>
                   montgomery_mul_generic NEON_AVAILABLE t h a b modulus mu result L)
       L h a b modulus mu results count)
    (fun h a b modulus mu result =>
       montgomery_mul_generic NEON_AVAILABLE t h a b modulus mu result L)
    h a b modulus mu results i.
Proof.
  intros (Da & Db & Dm) Hi h2 Ha Hb Hm k Hk.
  destruct (batch_loop_spec L
    (fun h a b modulus mu result =>
       montgomery_mul_generic NEON_AVAILABLE t h a b modulus mu result L)
    (fun h a b modulus mu result q Hq =>
       montgomery_mul_generic_frame NEON_AVAILABLE t h a b modulus mu result L q Hq)
    (fun h1 h2 a b modulus mu result Ha Hb Hm i Hi =>
       montgomery_mul_generic_ext NEON_AVAILABLE t h1 h2 a b modulus mu result L
         Ha Hb Hm i Hi)
    h a b modulus mu results count Da Db Dm) as [_ Hblk].
  rewrite Hblk by assumption.

  apply montgomery_mul_generic_ext; assumption.
Qed.

(** ** Claim C4 *)

(** C4.  For every [count], limb count 4 or 6, modulus and [mu], and
    every [i < count]: block [i] of the output of
    [neon_batch_montgomery_mul] is what [neon_montgomery_mul_4limb]
    (resp. [neon_montgomery_mul_6limb]) writes for the [i]-th input pair,
    whatever [count] is and whatever the other pairs hold.  The output
    array is a buffer apart from the inputs. *)
Theorem batch_consistency (NEON_AVAILABLE : bool) (t h : mem)
    (a b modulus : ptr) (mu : Z) (results : ptr) (count i : nat) :
  (i < count)%nat ->
  (batch_buffers_apart 4 a b modulus results count ->
   batch_matches_single 4
     (neon_batch_montgomery_mul NEON_AVAILABLE t h a b modulus mu results count 4)
     (neon_montgomery_mul_4limb NEON_AVAILABLE t)
     h a b modulus mu results i) /\
  (batch_buffers_apart 6 a b modulus results count ->
   batch_matches_single 6
     (neon_batch_montgomery_mul NEON_AVAILABLE t h a b modulus mu results count 6)
     (neon_montgomery_mul_6limb NEON_AVAILABLE t)
     h a b modulus mu results i).
Proof.
  intros Hi. split; intros Hapart.
  - exact (batch_generic_matches NEON_AVAILABLE t h a b modulus mu results count i 4
             Hapart Hi).
  - exact (batch_generic_matches NEON_AVAILABLE t h a b modulus mu results count i 6
             Hapart Hi).
Qed.

(** Two pairs of 4-limb operands at addresses 0 and 8, the modulus at 16,
    the output at 20: the second block of the batch output. *)
Lemma batch_consistency_witness :
  let m := [0xFFFFFFFF00000001; 0x53BDA402FFFE5BFE;
            0x3339D80809A1D805; 0x73EDA753299D7D48] in
  let h := store (store (store zero_mem 0 [1; 2; 3; 4; 5; 6; 7; 8])
                    8 [9; 10; 11; 12; 13; 14; 15; 16]) 16 m in
  batch_matches_single 4
    (neon_batch_montgomery_mul false zero_mem h 0 8 16 0xFFFFFFFEFFFFFFFF 20 2 4)
    (neon_montgomery_mul_4limb false zero_mem)
    h 0 8 16 0xFFFFFFFEFFFFFFFF 20 1.
Proof.
  intros m h.
  apply (proj1 (batch_consistency false zero_mem h 0 8 16 0xFFFFFFFEFFFFFFFF 20 2 1
                  (Nat.lt_succ_diag_r 1))).
  unfold batch_buffers_apart, disjoint. simpl. lia.
Defined.

(** ** Claim C5 *)

(** C5 (amended).  For every [count] and every limb count other than 4
    and 6 that is not negative, with [count * limb_count * 8] bytes
    addressable, [neon_batch_montgomery_mul] returns with exactly the
    [count * limb_count] words at [results] set to zero and every other
    word as it was: no multiplication is run. *)
Theorem batch_unsupported_zero (NEON_AVAILABLE : bool) (t h : mem)
    (a b modulus : ptr) (mu : Z) (results : ptr) (count : nat) (limb_count : Z) :
  limb_count <> 4 -> limb_count <> 6 ->
  0 <= limb_count -> Z.of_nat count * limb_count * 8 < 2 ^ 64 ->
  let h' := neon_batch_montgomery_mul NEON_AVAILABLE t h a b modulus mu
              results count limb_count in
  let n := (count * Z.to_nat limb_count)%nat in
  (forall q, region results n q -> h' q = 0) /\
  (forall q, ~ region results n q -> h' q = h q).
Proof.
  intros H4 H6 Hnn Hsz. cbv zeta. unfold neon_batch_montgomery_mul.
  destruct (Z.eqb_spec limb_count 4) as [E|_]; [contradiction|].
  destruct (Z.eqb_spec limb_count 6) as [E|_]; [contradiction|].
  assert (En : Z.to_nat (usize (usize (Z.of_nat count * usize limb_count) * 8) / 8)
               = (count * Z.to_nat limb_count)%nat).
  { destruct count as [|c].
    - reflexivity.
    - unfold usize.
      assert (Hlc : 0 <= limb_count < 2 ^ 64) by nia.
      rewrite (Z.mod_small limb_count) by exact Hlc.
      rewrite (Z.mod_small (Z.of_nat (S c) * limb_count)) by nia.
      rewrite Z.mod_small by nia.
      rewrite Z.div_mul by lia. rewrite Z2Nat.inj_mul by lia.
      rewrite Nat2Z.id. reflexivity. }
  rewrite En. split; intros q Hq.
  - apply memset0_in, Hq.
  - apply memset0_out, Hq.
Qed.

(** Three elements of five limbs each. *)
Lemma batch_unsupported_zero_witness :
  let h := store zero_mem 0 [1; 2; 3; 4; 5; 6; 7; 8; 9; 10; 11; 12; 13; 14; 15; 16] in
  let h' := neon_batch_montgomery_mul true zero_mem h 20 40 60 1 0 3 5 in
  (forall q, region 0 15 q -> h' q = 0) /\
  (forall q, ~ region 0 15 q -> h' q = h q).
Proof.
  intros h.
  apply (batch_unsupported_zero true zero_mem h 20 40 60 1 0 3 5);
    [discriminate | discriminate | discriminate | reflexivity].
Defined.

(** C5 as stated, for every limb count other than 4 and 6, fails for a
    negative one: [limb_count] is an [int], and the byte count
    [count * limb_count * sizeof(uint64_t)] is formed in [size_t].  With
    [count = 1] and [limb_count = -1] it is [2^64 - 8], so [memset]
    zeroes [2^61 - 1] words from [results] on, where the claim has an
    array of [count * limb_count] limbs. *)
Lemma batch_unsupported_negative :
  let h := store zero_mem 0 [1; 2; 3] in
  let h' := neon_batch_montgomery_mul true zero_mem h 20 40 60 1 0 1 (-1) in
  let n := (1 * Z.to_nat (-1))%nat in
  h 2%nat = 3 /\ h' 2%nat = 0 /\
  (forall q : ptr, Z.of_nat q < 2 ^ 61 - 1 -> h' q = 0) /\
  ~ (forall q, ~ region 0 n q -> h' q = h q).
Proof.
  intros h h' n.
  assert (E : usize (usize (Z.of_nat 1 * usize (-1)) * 8) / 8 = 2 ^ 61 - 1)
    by (vm_compute; reflexivity).
  assert (Hz : forall q : ptr, Z.of_nat q < 2 ^ 61 - 1 -> h' q = 0).
  { intros q Hq. unfold h', neon_batch_montgomery_mul.
    cbn [Z.eqb]. cbv zeta. rewrite E.
    apply memset0_in. unfold region. lia. }
  assert (H2 : h' 2%nat = 0) by (apply Hz; vm_compute; reflexivity).
  split; [reflexivity|]. split; [exact H2|]. split; [exact Hz|].
  intros Hall. specialize (Hall 2%nat).
  rewrite H2 in Hall.
  assert (Hout : ~ region 0 n 2) by (unfold region, n; simpl; lia).
  specialize (Hall Hout). discriminate Hall.
Qed.

(* ================================================================== *)
(** * The [double] kernels                                             *)
(* ================================================================== *)

(** ** Arrays *)

Lemma upd_length {A : Type} (l : list A) (i : nat) (v : A) :
  length (upd l i v) = length l.
Proof.
  revert i. induction l as [|x l IH]; intros [|i]; simpl; try reflexivity.
  rewrite IH. reflexivity.
Qed.

Lemma nth_upd_same {A : Type} (l : list A) (i : nat) (v d : A) :
  (i < length l)%nat -> nth i (upd l i v) d = v.
Proof.
  revert i. induction l as [|x l IH]; intros [|i] H; simpl in *; try lia.
  - reflexivity.
  - apply IH. lia.
Qed.

Lemma nth_upd_other {A : Type} (l : list A) (i j : nat) (v d : A) :
  i <> j -> nth j (upd l i v) d = nth j l d.
Proof.
  revert i j. induction l as [|x l IH]; intros [|i] [|j] H; simpl;
    try reflexivity; try lia.
  apply IH. lia.
Qed.

Section ArrayLoops.

Context {T : Type} {ST : Scalar T}.

(** A loop that stores [f i] at index [i], for [i < n]. *)
Lemma fill_loop_spec (f : nat -> T) (c : list T) (n : nat) :
  (n <= length c)%nat ->
  let c' := for_loop n (fun i c => upd c i (f i)) c in
  length c' = length c /\
  (forall i, (i < n)%nat -> get c' i = f i) /\
  (forall i, (n <= i)%nat -> get c' i = get c i).
Proof.
  intros Hn. cbv zeta. induction n as [|n IH].
  - rewrite for_loop_0. split; [reflexivity|]. split; [intros; lia|reflexivity].
  - rewrite for_loop_S. destruct (IH ltac:(lia)) as (Hlen & Hin & Hout).
    set (cn := for_loop n _ c) in *. unfold get in *.
    split; [rewrite upd_length; exact Hlen|]. split.
    + intros i Hi. destruct (Nat.eq_dec i n) as [->|Hne].
      * apply nth_upd_same. lia.
      * rewrite nth_upd_other by lia. apply Hin. lia.
    + intros i Hi. rewrite nth_upd_other by lia. apply Hout. lia.
Qed.

Lemma vDSP_vmulD_spec (a b c : list T) (n i : nat) :
  (n <= length c)%nat -> (i < n)%nat ->
  get (vDSP_vmulD a b c n) i = s_mul (get a i) (get b i).
Proof.
  intros Hn Hi. unfold vDSP_vmulD.
  apply (fill_loop_spec (fun i => s_mul (get a i) (get b i)) c n Hn), Hi.
Qed.

Lemma vDSP_vaddD_spec (a b c : list T) (n i : nat) :
  (n <= length c)%nat -> (i < n)%nat ->
  get (vDSP_vaddD a b c n) i = s_add (get a i) (get b i).
Proof.
  intros Hn Hi. unfold vDSP_vaddD.
  apply (fill_loop_spec (fun i => s_add (get a i) (get b i)) c n Hn), Hi.
Qed.

Lemma vDSP_vsubD_spec (b a c : list T) (n i : nat) :
  (n <= length c)%nat -> (i < n)%nat ->
  get (vDSP_vsubD b a c n) i = s_sub (get a i) (get b i).
Proof.
  intros Hn Hi. unfold vDSP_vsubD.
  apply (fill_loop_spec (fun i => s_sub (get a i) (get b i)) c n Hn), Hi.
Qed.

Lemma butterfly_loop_spec (in_even in_odd twiddle_real out_even out_odd : list T)
    (n : nat) :
  (n <= length out_even)%nat -> (n <= length out_odd)%nat ->
  let '(oe, oo) :=
    butterfly_loop in_even in_odd twiddle_real out_even out_odd n in
  forall i, (i < n)%nat ->
    get oe i = s_add (get in_even i) (s_mul (get twiddle_real i) (get in_odd i)) /\
    get oo i = s_sub (get in_even i) (s_mul (get twiddle_real i) (get in_odd i)).
Proof.
  intros He Ho. unfold butterfly_loop.
  set (body := fun (i : nat) '(oe, oo) => _).
  assert (Hinv : forall k, (k <= n)%nat ->
    let '(oe, oo) := for_loop k body (out_even, out_odd) in
    length oe = length out_even /\ length oo = length out_odd /\
    forall i, (i < k)%nat ->
      get oe i = s_add (get in_even i) (s_mul (get twiddle_real i) (get in_odd i)) /\
      get oo i = s_sub (get in_even i) (s_mul (get twiddle_real i) (get in_odd i))).
  { induction k as [|k IH]; intros Hk.
    - rewrite for_loop_0. split; [reflexivity|]. split; [reflexivity|]. intros; lia.
    - rewrite for_loop_S. specialize (IH ltac:(lia)).
      destruct (for_loop k body (out_even, out_odd)) as [oe oo].
      destruct IH as (Le & Lo & Hval). unfold body, get in *.
      split; [rewrite upd_length; exact Le|].
      split; [rewrite upd_length; exact Lo|].
      intros i Hi. destruct (Nat.eq_dec i k) as [->|Hne].
      + rewrite !nth_upd_same by lia. split; reflexivity.
      + rewrite !nth_upd_other by lia. apply Hval. lia. }
  specialize (Hinv n (Nat.le_refl n)).
  destruct (for_loop n body (out_even, out_odd)) as [oe oo].
  apply Hinv.
Qed.

(** Every path through [vdsp_ntt_butterfly_f64] computes the same two
    element-wise formulas. *)
Lemma vdsp_ntt_butterfly_f64_spec (apple : bool) (temp : option (list T))
    (in_even in_odd twiddle_real twiddle_imag out_even out_odd : list T)
    (n : nat) :
  (n <= length out_even)%nat -> (n <= length out_odd)%nat ->
  (forall buf, temp = Some buf -> (n <= length buf)%nat) ->
  let '(oe, oo) :=
    vdsp_ntt_butterfly_f64 apple temp in_even in_odd twiddle_real twiddle_imag
      out_even out_odd n in
  forall i, (i < n)%nat ->
    get oe i = s_add (get in_even i) (s_mul (get twiddle_real i) (get in_odd i)) /\
    get oo i = s_sub (get in_even i) (s_mul (get twiddle_real i) (get in_odd i)).
Proof.
  intros He Ho Hbuf. unfold vdsp_ntt_butterfly_f64.
  destruct apple; [destruct temp as [buf|]|];
    try (apply butterfly_loop_spec; assumption).
  specialize (Hbuf buf eq_refl). intros i Hi.
  rewrite vDSP_vaddD_spec, vDSP_vsubD_spec by assumption.
  rewrite vDSP_vmulD_spec by assumption. split; reflexivity.
Qed.

End ArrayLoops.

(** ** Claim C6 *)

(** C6.  For every [n] and [i < n], [vdsp_ntt_butterfly_f64] sets
    [out_even[i] = in_even[i] + twiddle_real[i] * in_odd[i]] and
    [out_odd[i] = in_even[i] - twiddle_real[i] * in_odd[i]], on each of
    its paths (vDSP, scalar after a failed [malloc], non-Apple), and the
    outputs do not depend on [twiddle_imag].  Stated for any element
    arithmetic, binary64 included. *)
Theorem butterfly_elementwise {T : Type} {ST : Scalar T}
    (apple : bool) (temp : option (list T))
    (in_even in_odd twiddle_real twiddle_imag out_even out_odd : list T)
    (n : nat) :
  (n <= length out_even)%nat -> (n <= length out_odd)%nat ->
  (forall buf, temp = Some buf -> (n <= length buf)%nat) ->
  (let '(oe, oo) :=
     vdsp_ntt_butterfly_f64 apple temp in_even in_odd twiddle_real twiddle_imag
       out_even out_odd n in
   forall i, (i < n)%nat ->
     get oe i = s_add (get in_even i) (s_mul (get twiddle_real i) (get in_odd i)) /\
     get oo i = s_sub (get in_even i) (s_mul (get twiddle_real i) (get in_odd i))) /\
  (forall twiddle_imag',
     vdsp_ntt_butterfly_f64 apple temp in_even in_odd twiddle_real twiddle_imag'
       out_even out_odd n =
     vdsp_ntt_butterfly_f64 apple temp in_even in_odd twiddle_real twiddle_imag
       out_even out_odd n).
Proof.
  intros He Ho Hbuf. split.
  - apply vdsp_ntt_butterfly_f64_spec; assumption.
  - intros twiddle_imag'. reflexivity.
Qed.

(** Two binary64 butterflies through the vDSP path. *)
Lemma butterfly_elementwise_witness :
  let in_even := [1; 2]%float in
  let in_odd := [3; 4]%float in
  let tw := [0.5; 0.25]%float in
  let twi := [7; 7]%float in
  let z := [0; 0]%float in
  (let '(oe, oo) :=
     vdsp_ntt_butterfly_f64 true (Some z) in_even in_odd tw twi z z 2 in
   forall i, (i < 2)%nat ->
     get oe i = s_add (get in_even i) (s_mul (get tw i) (get in_odd i)) /\
     get oo i = s_sub (get in_even i) (s_mul (get tw i) (get in_odd i))) /\
  (forall twiddle_imag',
     vdsp_ntt_butterfly_f64 true (Some z) in_even in_odd tw twiddle_imag' z z 2 =
     vdsp_ntt_butterfly_f64 true (Some z) in_even in_odd tw twi z z 2).
Proof.
  intros in_even in_odd tw twi z.
  apply (butterfly_elementwise true (Some z) in_even in_odd tw twi z z 2).
  - simpl. lia.
  - simpl. lia.
  - intros buf E. inversion E. simpl. lia.
Defined.

(** ** Binary64 on integral values *)

(** The operations of [double] are specified by [SpecFloat]: the result
    is the exact one, rounded to 53 bits by [binary_round_aux].  Below,
    a mantissa whose discarded bits are all zero is shown to come out
    unrounded, and from that the sum, difference and product of integers
    below [2^53] in magnitude, and the product by 1. *)

Lemma iter_pos_nat {A : Type} (f : A -> A) (n : positive) (x : A) :
  iter_pos f n x = Nat.iter (Pos.to_nat n) f x.
Proof.
  revert x. induction n as [n IH|n IH|]; intros x; cbn [iter_pos].
  - rewrite !IH. rewrite Pos2Nat.inj_xI.
    replace (S (2 * Pos.to_nat n))%nat with (Pos.to_nat n + (Pos.to_nat n + 1))%nat by lia.
    rewrite !Nat.iter_add. reflexivity.
  - rewrite !IH. rewrite Pos2Nat.inj_xO.
    replace (2 * Pos.to_nat n)%nat with (Pos.to_nat n + Pos.to_nat n)%nat by lia.
    rewrite Nat.iter_add. reflexivity.
  - reflexivity.
Qed.

Lemma digits_pshl (p : positive) (j : nat) :
  Zpos (digits2_pos (pshl p j)) = Zpos (digits2_pos p) + Z.of_nat j.
Proof.
  induction j as [|j IH].
  - simpl. lia.
  - change (pshl p (S j)) with (xO (pshl p j)). cbn [digits2_pos].
    rewrite Pos2Z.inj_succ, IH. lia.
Qed.

Lemma shr_pshl (p : positive) (j : nat) :
  Nat.iter j shr_1 (Build_shr_record (Zpos (pshl p j)) false false) =
  Build_shr_record (Zpos p) false false.
Proof.
  induction j as [|j IH].
  - reflexivity.
  - rewrite Nat.iter_succ_r. exact IH.
Qed.

(** Rounding is the identity on [p * 2^j] at exponent [E] when [p] at
    exponent [E + j] is a binary64 datum: the [j] bits shifted out are
    zeros. *)
Lemma round_exact (s : bool) (p : positive) (j : nat) (E : Z) :
  canonical_mantissa prec emax p (E + Z.of_nat j) = true ->
  E + Z.of_nat j <= emax - prec ->
  binary_round_aux prec emax s (Zpos (pshl p j)) E loc_Exact =
  S754_finite s p (E + Z.of_nat j).
Proof.
  intros Hc Hb. unfold canonical_mantissa in Hc. apply Z.eqb_eq in Hc.
  unfold binary_round_aux.
  assert (E1 : shr_fexp prec emax (Zpos (pshl p j)) E loc_Exact =
               (Build_shr_record (Zpos p) false false, E + Z.of_nat j)).
  { unfold shr_fexp. cbn [Zdigits2 shr_record_of_loc].
    rewrite digits_pshl.
    replace (Z.pos (digits2_pos p) + Z.of_nat j + E)
      with (Z.pos (digits2_pos p) + (E + Z.of_nat j)) by lia.
    rewrite Hc. replace (E + Z.of_nat j - E) with (Z.of_nat j) by lia.
    destruct j as [|j].
    - simpl. f_equal. lia.
    - change (Z.of_nat (S j)) with (Zpos (Pos.of_succ_nat j)).
      unfold shr. rewrite iter_pos_nat, SuccNat2Pos.id_succ.
      rewrite shr_pshl. reflexivity. }
  rewrite E1. cbn [shr_m loc_of_shr_record round_nearest_even].
  assert (E2 : shr_fexp prec emax (Zpos p) (E + Z.of_nat j) loc_Exact =
               (Build_shr_record (Zpos p) false false, E + Z.of_nat j)).
  { unfold shr_fexp. cbn [Zdigits2 shr_record_of_loc]. rewrite Hc.
    rewrite Z.sub_diag. reflexivity. }
  rewrite E2. cbn [shr_m].
  replace (E + Z.of_nat j <=? emax - prec) with true
    by (symmetry; apply Z.leb_le; exact Hb).
  reflexivity.
Qed.

Lemma pshl_add (p : positive) (a b : nat) : pshl p (b + a) = pshl (pshl p a) b.
Proof. unfold pshl. apply Nat.iter_add. Qed.

Lemma pshl_Z (p : positive) (j : nat) : Zpos (pshl p j) = Zpos p * 2 ^ Z.of_nat j.
Proof.
  induction j as [|j IH].
  - simpl. lia.
  - change (pshl p (S j)) with (xO (pshl p j)).
    rewrite Pos2Z.inj_xO, IH, Nat2Z.inj_succ, Z.pow_succ_r by lia. lia.
Qed.

Lemma pshl_iter (p d : positive) : Pos.iter xO p d = pshl p (Pos.to_nat d).
Proof. unfold pshl. rewrite Pos2Nat.inj_iter. reflexivity. Qed.

Lemma pmul_pshl_r (p q : positive) (j : nat) :
  (p * pshl q j)%positive = pshl (p * q) j.
Proof.
  induction j as [|j IH]; [reflexivity|].
  change (pshl q (S j)) with (xO (pshl q j)).
  rewrite Pos.mul_xO_r, IH. reflexivity.
Qed.

Lemma pmul_pshl_l (p q : positive) (j : nat) :
  (pshl p j * q)%positive = pshl (p * q) j.
Proof. rewrite Pos.mul_comm, pmul_pshl_r, Pos.mul_comm. reflexivity. Qed.

Lemma digits_bounds (p : positive) :
  2 ^ (Zpos (digits2_pos p) - 1) <= Zpos p < 2 ^ Zpos (digits2_pos p).
Proof.
  induction p as [p IH|p IH|].
  - cbn [digits2_pos]. rewrite Pos2Z.inj_succ.
    replace (Z.succ (Z.pos (digits2_pos p)) - 1)
      with (Z.succ (Z.pos (digits2_pos p) - 1)) by lia.
    rewrite !Z.pow_succ_r by lia. rewrite (Pos2Z.inj_xI p). lia.
  - cbn [digits2_pos]. rewrite Pos2Z.inj_succ.
    replace (Z.succ (Z.pos (digits2_pos p)) - 1)
      with (Z.succ (Z.pos (digits2_pos p) - 1)) by lia.
    rewrite !Z.pow_succ_r by lia. rewrite (Pos2Z.inj_xO p). lia.
  - simpl. lia.
Qed.

Lemma digits_le (p : positive) (n : Z) :
  Zpos p < 2 ^ n -> Zpos (digits2_pos p) <= n.
Proof.
  intros H. pose proof (digits_bounds p) as [B _].
  destruct (Z.le_gt_cases (Zpos (digits2_pos p)) n) as [L|G]; [exact L|].
  exfalso. assert (2 ^ n <= 2 ^ (Zpos (digits2_pos p) - 1)).
  { apply Z.pow_le_mono_r; lia. }
  lia.
Qed.


(** The integer [p < 2^53], held as [p * 2^k] at exponent [-k], rounds
    to its datum. *)
Lemma round_int (s : bool) (p : positive) (k : nat) :
  Zpos p < 2 ^ 53 -> 53 - Zpos (digits2_pos p) <= Z.of_nat k ->
  binary_round_aux prec emax s (Zpos (pshl p k)) (- Z.of_nat k) loc_Exact =
  int_form s p.
Proof.
  intros Hp Hk. pose proof (digits_le p 53 Hp) as Hd.
  set (a := Z.to_nat (53 - Zpos (digits2_pos p))).
  replace k with ((k - a) + a)%nat by lia.
  rewrite pshl_add. 
  rewrite round_exact.
  - unfold int_form. fold a. f_equal. lia.
  - unfold canonical_mantissa. apply Z.eqb_eq. rewrite digits_pshl.
    unfold fexp, SpecFloat.emin, prec, emax. lia.
  - unfold prec, emax. lia.
Qed.

Lemma round_int' (s : bool) (p : positive) (k : nat) :
  Zpos p < 2 ^ 53 ->
  binary_round prec emax s (pshl p k) (- Z.of_nat k) = int_form s p.
Proof.
  intros Hp. pose proof (digits_le p 53 Hp) as Hd.
  unfold binary_round, shl_align. rewrite digits_pshl.
  replace (fexp prec emax (Z.pos (digits2_pos p) + Z.of_nat k + - Z.of_nat k))
    with (Zpos (digits2_pos p) - 53)
    by (unfold fexp, SpecFloat.emin, prec, emax; lia).
  destruct (Z.pos (digits2_pos p) - 53 - - Z.of_nat k) as [|q|q] eqn:Eq.
  - apply round_int; [exact Hp|lia].
  - apply round_int; [exact Hp|lia].
  - rewrite pshl_iter, <- pshl_add.
    replace (Z.pos (digits2_pos p) - 53)
      with (- Z.of_nat (Pos.to_nat q + k)) by lia.
    apply round_int; [exact Hp|lia].
Qed.

(** So does the signed integer [z], whatever the scaling. *)
Lemma normalize_int (z : Z) (k : nat) :
  Z.abs z < 2 ^ 53 ->
  binary_normalize prec emax (z * 2 ^ Z.of_nat k) (- Z.of_nat k) false = Z2SF z.
Proof.
  intros Hz. destruct z as [|p|p].
  - reflexivity.
  - rewrite <- pshl_Z. cbn [binary_normalize Z2SF]. apply round_int'. lia.
  - replace (Z.neg p * 2 ^ Z.of_nat k) with (Zneg (pshl p k))
      by (rewrite <- Pos2Z.opp_pos, pshl_Z; lia).
    cbn [binary_normalize Z2SF]. apply round_int'. lia.
Qed.

Lemma Z2SF_signed (s : bool) (p : positive) : Z2SF (signed s p) = int_form s p.
Proof. destruct s; reflexivity. Qed.

Lemma signed_abs (s : bool) (p : positive) : Z.abs (signed s p) = Zpos p.
Proof. destruct s; reflexivity. Qed.

Lemma SFrep_inv (x : spec_float) (z : Z) :
  SFrep x z ->
  (z = 0 /\ exists s, x = S754_zero s) \/
  (exists s p, z = signed s p /\ x = int_form s p).
Proof.
  intros [H|[H1 H2]].
  - destruct z as [|p|p].
    + left. split; [reflexivity|]. exists false. exact H.
    + right. exists false, p. split; [reflexivity|exact H].
    + right. exists true, p. split; [reflexivity|exact H].
  - left. split; [exact H1|]. exists true. exact H2.
Qed.

Lemma SFrep_zero (s : bool) : SFrep (S754_zero s) 0.
Proof. destruct s; [right; split; reflexivity | left; reflexivity]. Qed.

Lemma SFrep_form (s : bool) (p : positive) : SFrep (int_form s p) (signed s p).
Proof. left. symmetry. apply Z2SF_signed. Qed.

Lemma form_exponent (p : positive) :
  Zpos p < 2 ^ 53 ->
  Zpos (digits2_pos p) - 53 = - Z.of_nat (Z.to_nat (53 - Zpos (digits2_pos p))).
Proof. intros H. pose proof (digits_le p 53 H). lia. Qed.


Lemma shl_align_fst (p : positive) (a k : nat) :
  (a <= k)%nat ->
  fst (shl_align (pshl p a) (- Z.of_nat a) (- Z.of_nat k)) = pshl p k.
Proof.
  intros H. unfold shl_align.
  destruct (- Z.of_nat k - - Z.of_nat a) as [|q|q] eqn:E; cbn [fst].
  - f_equal. lia.
  - lia.
  - rewrite pshl_iter, <- pshl_add. f_equal. lia.
Qed.

Lemma SFadd_forms (sx sy : bool) (px py : positive) :
  Zpos px < 2 ^ 53 -> Zpos py < 2 ^ 53 ->
  Z.abs (signed sx px + signed sy py) < 2 ^ 53 ->
  SF64add (int_form sx px) (int_form sy py) = Z2SF (signed sx px + signed sy py).
Proof.
  intros Hx Hy Hs. unfold SF64add, SFadd, int_form. cbv zeta.
  rewrite (form_exponent px Hx), (form_exponent py Hy).
  set (a := Z.to_nat (53 - Zpos (digits2_pos px))).
  set (b := Z.to_nat (53 - Zpos (digits2_pos py))).
  replace (Z.min (- Z.of_nat a) (- Z.of_nat b)) with (- Z.of_nat (Nat.max a b)) by lia.
  rewrite !shl_align_fst by lia.
  rewrite <- (normalize_int _ (Nat.max a b) Hs). f_equal.
  rewrite !pshl_Z. unfold signed. destruct sx, sy; cbn [cond_Zopp]; lia.
Qed.



Lemma SFadd_int (a b : spec_float) (x y : Z) :
  SFrep a x -> SFrep b y ->
  Z.abs x < 2 ^ 53 -> Z.abs y < 2 ^ 53 -> Z.abs (x + y) < 2 ^ 53 ->
  SFrep (SF64add a b) (x + y).
Proof.
  intros Ha Hb Bx By Bxy.
  destruct (SFrep_inv _ _ Ha) as [[-> [s ->]]|(s & p & -> & ->)];
  destruct (SFrep_inv _ _ Hb) as [[-> [s' ->]]|(s' & p' & -> & ->)].
  - destruct s, s'; first [apply (SFrep_zero true) | apply (SFrep_zero false)].
  - cbn [Z.add]. apply SFrep_form.
  - rewrite Z.add_0_r. apply SFrep_form.
  - rewrite signed_abs in Bx, By. left. apply SFadd_forms; assumption.
Qed.


Lemma SFopp_round_aux (s : bool) (m e : Z) (l : location) :
  SFopp (binary_round_aux prec emax s m e l) = binary_round_aux prec emax (negb s) m e l.
Proof.
  unfold binary_round_aux.
  destruct (shr_fexp prec emax m e l) as [mrs e'].
  destruct (shr_fexp prec emax _ e' loc_Exact) as [mrs' e''].
  destruct (shr_m mrs'); [reflexivity| |reflexivity].
  destruct (e'' <=? emax - prec); reflexivity.
Qed.

Lemma Prim2SF_of_nonneg (z : Z) :
  0 <= z < 2 ^ 53 -> Prim2SF (of_uint63 (Uint63.of_Z z)) = Z2SF z.
Proof.
  intros Hz. rewrite FloatAxioms.of_uint63_spec, Uint63.of_Z_spec.
  rewrite Z.mod_small.
  - rewrite <- (normalize_int z 0) by lia. f_equal. simpl. lia.
  - unfold Uint63.wB. simpl. lia.
Qed.

Lemma SFopp_Z2SF (z : Z) : z <> 0 -> SFopp (Z2SF z) = Z2SF (- z).
Proof. destruct z; [congruence| |]; reflexivity. Qed.

(** [(double)z] is the datum of [z]. *)
Lemma Prim2SF_double_of_int (z : Z) :
  Z.abs z < 2 ^ 53 -> Prim2SF (double_of_int z) = Z2SF z.
Proof.
  intros Hz. unfold double_of_int. destruct (Z.ltb_spec z 0) as [Hn|Hp].
  - rewrite FloatAxioms.opp_spec, Prim2SF_of_nonneg by lia.
    rewrite SFopp_Z2SF by lia. f_equal. lia.
  - apply Prim2SF_of_nonneg. lia.
Qed.

Lemma SFeqb_form (x : spec_float) (s : bool) (p : positive) :
  SFeqb x (int_form s p) = true -> x = int_form s p.
Proof.
  unfold SFeqb, int_form.
  destruct x as [sx|sx| |sx mx ex]; cbn [SFcompare].
  - destruct s; discriminate.
  - destruct sx; discriminate.
  - discriminate.
  - set (m := pshl p _). set (e := _ - 53).
    destruct sx, s; try discriminate.
    + destruct (Z.compare_spec ex e) as [E|E|E]; try discriminate.
      destruct (Pos.compare_cont Eq mx m) eqn:C; try discriminate.
      intros _. apply Pos.compare_eq in C. subst. reflexivity.
    + destruct (Z.compare_spec ex e) as [E|E|E]; try discriminate.
      destruct (Pos.compare_cont Eq mx m) eqn:C; try discriminate.
      intros _. apply Pos.compare_eq in C. subst. reflexivity.
Qed.

Lemma SFeqb_zero (x : spec_float) :
  SFeqb x (S754_zero false) = true -> exists s, x = S754_zero s.
Proof.
  unfold SFeqb. destruct x as [sx|sx| |sx mx ex]; cbn [SFcompare].
  - intros _. exists sx. reflexivity.
  - destruct sx; discriminate.
  - discriminate.
  - destruct sx; discriminate.
Qed.

Lemma SFeqb_rep (x y : spec_float) (z : Z) :
  SFrep x z -> SFrep y z -> SFeqb x y = true.
Proof.
  intros Hx Hy.
  destruct (SFrep_inv _ _ Hx) as [[-> [s ->]]|(s & p & -> & ->)].
  - destruct (SFrep_inv _ _ Hy) as [[_ [s' ->]]|(s' & p' & E & ->)].
    + reflexivity.
    + destruct s'; discriminate E.
  - destruct (SFrep_inv _ _ Hy) as [[E _]|(s' & p' & E & ->)].
    + destruct s; discriminate E.
    + assert (s' = s /\ p' = p) as [-> ->].
      { destruct s, s'; try discriminate E; inversion E; auto. }
      unfold SFeqb, int_form. cbn [SFcompare].
      rewrite Z.compare_refl.
      destruct s; rewrite Pos.compare_cont_refl; reflexivity.
Qed.

(** [x == (double)z] says that [x] is the datum of [z], or a zero of
    either sign when [z = 0]. *)
Lemma represents_SFrep (x : float) (z : Z) :
  Z.abs z < 2 ^ 53 -> (represents x z <-> SFrep (Prim2SF x) z).
Proof.
  intros Hz. unfold represents.
  rewrite FloatAxioms.eqb_spec, Prim2SF_double_of_int by exact Hz. split.
  - intros H. destruct z as [|p|p].
    + destruct (SFeqb_zero _ H) as [s ->]. apply SFrep_zero.
    + left. apply SFeqb_form, H.
    + left. apply SFeqb_form, H.
  - intros H. apply (SFeqb_rep _ _ z H). left. reflexivity.
Qed.

Lemma represents_double_of_int (z : Z) :
  Z.abs z < 2 ^ 53 -> represents (double_of_int z) z.
Proof.
  intros Hz. apply represents_SFrep; [exact Hz|].
  left. apply Prim2SF_double_of_int, Hz.
Qed.



Lemma represents_add (a b : float) (x y : Z) :
  Z.abs x < 2 ^ 53 -> Z.abs y < 2 ^ 53 -> Z.abs (x + y) < 2 ^ 53 ->
  represents a x -> represents b y -> represents (a + b) (x + y).
Proof.
  intros Bx By Bxy Ha Hb.
  apply represents_SFrep in Ha, Hb; try assumption.
  apply represents_SFrep; [exact Bxy|].
  rewrite FloatAxioms.add_spec. apply SFadd_int; assumption.
Qed.


(** Multiplication by 1.0 returns the other operand, whatever it is. *)
Lemma mul_one_r (x : float) : (x * 1)%float = x.
Proof.
  apply Prim2SF_inj. rewrite FloatAxioms.mul_spec.
  change (Prim2SF 1) with (S754_finite false (pshl 1 52) (-52)).
  pose proof (Prim2SF_valid x) as Hv.
  destruct (Prim2SF x) as [s|s| |s m e]; unfold SF64mul, SFmul.
  - rewrite xorb_false_r. reflexivity.
  - rewrite xorb_false_r. reflexivity.
  - reflexivity.
  - rewrite xorb_false_r, pmul_pshl_r, Pos.mul_1_r.
    cbn [valid_binary] in Hv. unfold bounded in Hv.
    apply andb_prop in Hv. destruct Hv as [Hc Hb]. apply Z.leb_le in Hb.
    replace e with ((e + -52) + Z.of_nat 52) in Hc, Hb |- * at 2 by lia.
    apply round_exact; assumption.
Qed.

Lemma mul_one_l (x : float) : (1 * x)%float = x.
Proof.
  apply Prim2SF_inj. rewrite FloatAxioms.mul_spec.
  change (Prim2SF 1) with (S754_finite false (pshl 1 52) (-52)).
  pose proof (Prim2SF_valid x) as Hv.
  destruct (Prim2SF x) as [s|s| |s m e]; unfold SF64mul, SFmul.
  - reflexivity.
  - reflexivity.
  - reflexivity.
  - rewrite pmul_pshl_l, Pos.mul_1_l. cbn [xorb].
    cbn [valid_binary] in Hv. unfold bounded in Hv.
    apply andb_prop in Hv. destruct Hv as [Hc Hb]. apply Z.leb_le in Hb.
    replace (-52 + e) with (e + -52) by lia.
    replace e with ((e + -52) + Z.of_nat 52) in Hc, Hb |- * at 2 by lia.
    apply round_exact; assumption.
Qed.


Lemma represents_zero : represents 0%float 0.
Proof. vm_compute. reflexivity. Qed.


(** ** Claim C7 *)




(** ** Bucket accumulation *)

Section BucketLoops.

Context {T : Type} {ST : Scalar T}.

Variables (bucket_indices : list nat) (point_coords : list T).
Variables (num_buckets coord_size : nat).

(** The inner loop adds the [coord_size] coordinates of point [i] to
    the slots of one bucket and touches nothing else. *)
Lemma scatter_point_spec (i bucket : nat) (acc : list T) :
  (bucket * coord_size + coord_size <= length acc)%nat ->
  let acc' :=
    for_loop coord_size
      (fun c acc =>
         upd acc (bucket * coord_size + c)
           (s_add (get acc (bucket * coord_size + c))
                  (get point_coords (i * coord_size + c))))
      acc in
  length acc' = length acc /\
  (forall c, (c < coord_size)%nat ->
     get acc' (bucket * coord_size + c) =
     s_add (get acc (bucket * coord_size + c))
           (get point_coords (i * coord_size + c))) /\
  (forall p, ~ region (bucket * coord_size) coord_size p ->
     get acc' p = get acc p).
Proof.
  intros Hlen. cbv zeta.
  set (body := fun (c : nat) (acc : list T) => _).
  assert (Hinv : forall k, (k <= coord_size)%nat ->
    length (for_loop k body acc) = length acc /\
    (forall c, (c < k)%nat ->
       get (for_loop k body acc) (bucket * coord_size + c) =
       s_add (get acc (bucket * coord_size + c))
             (get point_coords (i * coord_size + c))) /\
    (forall p, ~ region (bucket * coord_size) k p ->
       get (for_loop k body acc) p = get acc p)).
  { induction k as [|k IH]; intros Hk.
    - rewrite for_loop_0. split; [reflexivity|].
      split; [intros; lia|reflexivity].
    - rewrite for_loop_S. destruct (IH ltac:(lia)) as (Hl & Hin & Hout).
      set (ak := for_loop k body acc) in *.
      assert (Eb : body k ak =
                   upd ak (bucket * coord_size + k)
                     (s_add (get ak (bucket * coord_size + k))
                            (get point_coords (i * coord_size + k))))
        by reflexivity.
      rewrite Eb. clear Eb. unfold get in *.
      split; [rewrite upd_length; exact Hl|]. split.
      + intros c Hc. destruct (Nat.eq_dec c k) as [->|Hne].
        * rewrite nth_upd_same by lia. f_equal.
          apply Hout. unfold region. lia.
        * rewrite nth_upd_other by lia. apply Hin. lia.
      + intros p Hp. unfold region in Hp. rewrite nth_upd_other by lia.
        apply Hout. unfold region. lia. }
  apply (Hinv coord_size (Nat.le_refl _)).
Qed.

End BucketLoops.

Lemma slot_after_S {T : Type} {ST : Scalar T} (bucket_indices : list nat)
    (point_coords : list T) (coord_size b c : nat) (init : T) (k : nat) :
  slot_after bucket_indices point_coords coord_size b c init (S k) =
  let x := slot_after bucket_indices point_coords coord_size b c init k in
  if (nth k bucket_indices O =? b)%nat
  then s_add x (get point_coords (k * coord_size + c))
  else x.
Proof. reflexivity. Qed.

Lemma slot_after_unnamed {T : Type} {ST : Scalar T} (bucket_indices : list nat)
    (point_coords : list T) (coord_size b c : nat) (init : T) (k : nat) :
  (forall i, (i < k)%nat -> nth i bucket_indices O <> b) ->
  slot_after bucket_indices point_coords coord_size b c init k = init.
Proof.
  induction k as [|k IH]; intros H; [reflexivity|].
  rewrite slot_after_S. cbv zeta.
  destruct (Nat.eqb_spec (nth k bucket_indices O) b) as [E|_].
  - exfalso. apply (H k); [lia|exact E].
  - apply IH. intros i Hi. apply H. lia.
Qed.

Lemma blas_bucket_accumulate_spec {T : Type} {ST : Scalar T}
    (bucket_indices : list nat) (point_coords bucket_accum : list T)
    (num_points num_buckets coord_size : nat) :
  length bucket_accum = (num_buckets * coord_size)%nat ->
  let out := blas_bucket_accumulate bucket_indices point_coords bucket_accum
               num_points num_buckets coord_size in
  length out = (num_buckets * coord_size)%nat /\
  forall b c, (b < num_buckets)%nat -> (c < coord_size)%nat ->
    get out (b * coord_size + c) =
    slot_after bucket_indices point_coords coord_size b c
      (get bucket_accum (b * coord_size + c)) num_points.
Proof.
  intros Hlen. cbv zeta. unfold blas_bucket_accumulate.
  induction num_points as [|k IH].
  - rewrite for_loop_0. split; [exact Hlen|reflexivity].
  - rewrite for_loop_S. destruct IH as [Hl Hval].
    set (acc := for_loop k _ bucket_accum) in *.
    set (bucket := nth k bucket_indices O).
    destruct (Nat.ltb_spec bucket num_buckets) as [Hin|Hout].
    + destruct (scatter_point_spec point_coords coord_size k bucket acc
                  ltac:(nia)) as (Hl' & Hadd & Hkeep).
      split; [rewrite Hl'; exact Hl|]. intros b c Hb Hc.
      rewrite slot_after_S. cbv zeta. fold bucket.
      destruct (Nat.eqb_spec bucket b) as [<-|Hne].
      * rewrite Hadd by exact Hc. rewrite Hval by assumption. reflexivity.
      * rewrite Hkeep by (unfold region; nia). apply Hval; assumption.
    + split; [exact Hl|]. intros b c Hb Hc.
      rewrite slot_after_S. cbv zeta. fold bucket.
      destruct (Nat.eqb_spec bucket b) as [E|_]; [lia|].
      apply Hval; assumption.
Qed.

Lemma get_repeat_zero {T : Type} {ST : Scalar T} (n i : nat) :
  get (repeat s_zero n) i = s_zero.
Proof. unfold get. apply nth_repeat. Qed.

Lemma blas_indicator_spec {T : Type} {ST : Scalar T}
    (bucket_indices : list nat) (num_points num_buckets : nat) :
  forall i b, (i < num_points)%nat -> (b < num_buckets)%nat ->
    get (blas_indicator bucket_indices num_points num_buckets : list T)
        (i * num_buckets + b) =
    if (nth i bucket_indices O =? b)%nat then s_one else s_zero.
Proof.
  unfold blas_indicator.
  set (body := fun (i : nat) (indicator : list T) => _).
  set (ind0 := repeat s_zero (num_points * num_buckets)).
  assert (Hinv : forall k, (k <= num_points)%nat ->
    length (for_loop k body ind0) = (num_points * num_buckets)%nat /\
    forall i b, (i < num_points)%nat -> (b < num_buckets)%nat ->
      get (for_loop k body ind0) (i * num_buckets + b) =
      if (i <? k)%nat && (nth i bucket_indices O =? b)%nat
      then s_one else s_zero).
  { induction k as [|k IH]; intros Hk.
    - rewrite for_loop_0. split; [apply repeat_length|].
      intros i b Hi Hb. apply get_repeat_zero.
    - rewrite for_loop_S. destruct (IH ltac:(lia)) as [Hl Hval].
      set (ik := for_loop k body ind0) in *.
      assert (Eb : body k ik =
                   if (nth k bucket_indices O <? num_buckets)%nat
                   then upd ik (k * num_buckets + nth k bucket_indices O) s_one
                   else ik) by reflexivity.
      rewrite Eb. clear Eb.
      destruct (Nat.ltb_spec (nth k bucket_indices O) num_buckets) as [Hin|Hout].
      + split; [rewrite upd_length; exact Hl|]. intros i b Hi Hb. unfold get.
        destruct (Nat.eq_dec i k) as [->|Hne].
        * replace (k <? S k)%nat with true by (symmetry; apply Nat.ltb_lt; lia).
          cbn [andb].
          destruct (Nat.eqb_spec (nth k bucket_indices O) b) as [<-|Hb'].
          -- apply nth_upd_same. nia.
          -- rewrite nth_upd_other by lia.
             specialize (Hval k b Hi Hb). unfold get in Hval. rewrite Hval.
             rewrite Nat.ltb_irrefl. reflexivity.
        * rewrite nth_upd_other by nia.
          specialize (Hval i b Hi Hb). unfold get in Hval. rewrite Hval.
          destruct (Nat.ltb_spec i k); destruct (Nat.ltb_spec i (S k));
            try reflexivity; lia.
      + split; [exact Hl|]. intros i b Hi Hb. rewrite Hval by assumption.
        destruct (Nat.eq_dec i k) as [->|Hne].
        * rewrite Nat.ltb_irrefl.
          replace (k <? S k)%nat with true by (symmetry; apply Nat.ltb_lt; lia).
          cbn [andb].
          destruct (Nat.eqb_spec (nth k bucket_indices O) b); [lia|reflexivity].
        * destruct (Nat.ltb_spec i k); destruct (Nat.ltb_spec i (S k));
            try reflexivity; lia. }
  intros i b Hi Hb.
  destruct (Hinv num_points (Nat.le_refl _)) as [_ H].
  rewrite H by assumption.
  replace (i <? num_points)%nat with true by (symmetry; apply Nat.ltb_lt; lia).
  reflexivity.
Qed.

(** ** Claim C9 *)

(** C9.  [blas_bucket_accumulate] reads [bucket_indices] as zero-based
    slot numbers: after the call, every slot [b < num_buckets] (slot 0
    included) holds its prior value plus the coordinates of exactly the
    points [i] with [bucket_indices[i] = b], with no shift by one; the
    array has no other slot, so the points with
    [bucket_indices[i] >= num_buckets] are the ones skipped.  The
    indicator matrix of the dense path marks the same pairs. *)
Theorem blas_bucket_zero_based {T : Type} {ST : Scalar T}
    (bucket_indices : list nat) (point_coords bucket_accum : list T)
    (num_points num_buckets coord_size : nat) :
  length bucket_accum = (num_buckets * coord_size)%nat ->
  let out := blas_bucket_accumulate bucket_indices point_coords bucket_accum
               num_points num_buckets coord_size in
  length out = (num_buckets * coord_size)%nat /\
  (forall b c, (b < num_buckets)%nat -> (c < coord_size)%nat ->
     get out (b * coord_size + c) =
     slot_after bucket_indices point_coords coord_size b c
       (get bucket_accum (b * coord_size + c)) num_points) /\
  (forall i b, (i < num_points)%nat -> (b < num_buckets)%nat ->
     get (blas_indicator bucket_indices num_points num_buckets : list T)
         (i * num_buckets + b) =
     if (nth i bucket_indices O =? b)%nat then s_one else s_zero).
Proof.
  intros Hlen. cbv zeta.
  destruct (blas_bucket_accumulate_spec bucket_indices point_coords bucket_accum
              num_points num_buckets coord_size Hlen) as [Hl Hval].
  split; [exact Hl|]. split; [exact Hval|].
  apply blas_indicator_spec.
Qed.

(** The scenario of the specification, in binary64. *)
Lemma blas_bucket_zero_based_witness :
  let idx := [1; 0; 2; 3; 1]%nat in
  let pts := [10; 20; 30; 40; 50]%float in
  let out := blas_bucket_accumulate idx pts [0; 0; 0]%float 5 3 1 in
  length out = (3 * 1)%nat /\
  (forall b c, (b < 3)%nat -> (c < 1)%nat ->
     get out (b * 1 + c) =
     slot_after idx pts 1 b c (get [0; 0; 0]%float (b * 1 + c)) 5) /\
  (forall i b, (i < 5)%nat -> (b < 3)%nat ->
     get (blas_indicator idx 5 3 : list float) (i * 3 + b) =
     if (nth i idx O =? b)%nat then s_one else s_zero).
Proof.
  intros idx pts.
  apply (blas_bucket_zero_based idx pts [0; 0; 0]%float 5 3 1).
  reflexivity.
Defined.

(** ** Claim C10 *)

(** C10.  In the direct scatter-add of [blas_bucket_accumulate], a slot
    [b] that no point names ([bucket_indices[i] <> b] for all
    [i < num_points]) keeps its prior value in every coordinate; the
    slots that are named change by additions to their prior value
    only. *)
Theorem blas_bucket_frame {T : Type} {ST : Scalar T}
    (bucket_indices : list nat) (point_coords bucket_accum : list T)
    (num_points num_buckets coord_size : nat) :
  length bucket_accum = (num_buckets * coord_size)%nat ->
  let out := blas_bucket_accumulate bucket_indices point_coords bucket_accum
               num_points num_buckets coord_size in
  (forall b, (b < num_buckets)%nat ->
     (forall i, (i < num_points)%nat -> nth i bucket_indices O <> b) ->
     forall c, (c < coord_size)%nat ->
       get out (b * coord_size + c) = get bucket_accum (b * coord_size + c)) /\
  (forall b c, (b < num_buckets)%nat -> (c < coord_size)%nat ->
     get out (b * coord_size + c) =
     for_loop num_points
       (fun i x =>
          if (nth i bucket_indices O =? b)%nat
          then s_add x (get point_coords (i * coord_size + c))
          else x)
       (get bucket_accum (b * coord_size + c))).
Proof.
  intros Hlen. cbv zeta.
  destruct (blas_bucket_accumulate_spec bucket_indices point_coords bucket_accum
              num_points num_buckets coord_size Hlen) as [_ Hval].
  split.
  - intros b Hb Hno c Hc. rewrite Hval by assumption.
    apply slot_after_unnamed, Hno.
  - exact Hval.
Qed.

(** Slot 2 of four is named by no point. *)
Lemma blas_bucket_frame_witness :
  let idx := [1; 0; 3; 1]%nat in
  let pts := [10; 20; 30; 40]%float in
  let acc := [1; 2; 3; 4]%float in
  let out := blas_bucket_accumulate idx pts acc 4 4 1 in
  (forall b, (b < 4)%nat ->
     (forall i, (i < 4)%nat -> nth i idx O <> b) ->
     forall c, (c < 1)%nat -> get out (b * 1 + c) = get acc (b * 1 + c)) /\
  (forall b c, (b < 4)%nat -> (c < 1)%nat ->
     get out (b * 1 + c) =
     for_loop 4
       (fun i x =>
          if (nth i idx O =? b)%nat then s_add x (get pts (i * 1 + c)) else x)
       (get acc (b * 1 + c))).
Proof.
  intros idx pts acc.
  apply (blas_bucket_frame idx pts acc 4 4 1). reflexivity.
Defined.

(** ** Claim C2 *)

(** C2 (amended).  With a zero-initialised [bucket_accum],
    [num_points = 5], [num_buckets = 3], [coord_size = 1],
    [bucket_indices = [1, 0, 2, 3, 1]] and
    [point_coords = [10, 20, 30, 40, 50]], [blas_bucket_accumulate]
    produces [[20, 60, 30]]: point 1 goes to slot 0, points 0 and 4 to
    slot 1, point 2 to slot 2, and point 3 is skipped because 3 is not
    below [num_buckets].  The array [[60, 30, 40]] is what
    [sme_bucket_outer_product] produces from the same numbers taken as
    scalars with [window_size = 2]. *)
Theorem bucket_scenario :
  blas_bucket_accumulate [1; 0; 2; 3; 1]%nat [10; 20; 30; 40; 50]%float
    [0; 0; 0]%float 5 3 1 = [20; 60; 30]%float /\
  sme_bucket_outer_product [1; 0; 2; 3; 1] [10; 20; 30; 40; 50]%float
    [0; 0; 0]%float 5 3 2 = ([60; 30; 40]%float, false).
Proof. split; vm_compute; reflexivity. Qed.

(** C2 as stated fails: the output of [blas_bucket_accumulate] is not
    [[60, 30, 40]]; its first slot holds 20. *)
Lemma bucket_scenario_not_shifted :
  blas_bucket_accumulate [1; 0; 2; 3; 1]%nat [10; 20; 30; 40; 50]%float
    [0; 0; 0]%float 5 3 1 <> [60; 30; 40]%float.
Proof.
  intros H.
  assert (E := f_equal (fun l => PrimFloat.eqb (nth 0 l 0%float) 60%float) H).
  vm_compute in E. discriminate E.
Qed.

(** ** Sums of integral bucket arrays *)

Lemma bucket_mask_ones (w : Z) :
  0 <= w < 64 -> u64 (u64 (Z.shiftl 1 w) - 1) = 2 ^ w - 1.
Proof.
  intros Hw. rewrite Z.shiftl_1_l.
  assert (H : 0 < 2 ^ w < 2 ^ 64).
  { split; [apply Z.pow_pos_nonneg; lia | apply Z.pow_lt_mono_r; lia]. }
  unfold u64. rewrite (Z.mod_small (2 ^ w)) by lia. apply Z.mod_small. lia.
Qed.

Lemma digit_range (w s : Z) : 0 <= w -> 0 <= digit w s < 2 ^ w.
Proof.
  intros Hw. unfold digit.
  replace (2 ^ w - 1) with (Z.ones w) by (rewrite Z.ones_equiv; lia).
  rewrite Z.land_ones by exact Hw. apply Z.mod_pos_bound.
  apply Z.pow_pos_nonneg; lia.
Qed.

Lemma Zabs_sum_nonneg (l : list Z) : 0 <= Zabs_sum l.
Proof. induction l as [|x l IH]; simpl; lia. Qed.

Lemma Zabs_nth_le (l : list Z) (i : nat) : Z.abs (nth i l 0) <= Zabs_sum l.
Proof.
  revert i. induction l as [|x l IH]; intros [|i]; simpl; try lia.
  - pose proof (Zabs_sum_nonneg l). lia.
  - specialize (IH i). lia.
Qed.

Lemma Zsum_upd (l : list Z) (i : nat) (v : Z) :
  (i < length l)%nat -> Zsum (upd l i v) = Zsum l + v - nth i l 0.
Proof.
  revert i. induction l as [|x l IH]; intros [|i] H; simpl in *; try lia.
  rewrite IH by lia. lia.
Qed.

Lemma Zabs_sum_upd (l : list Z) (i : nat) (v : Z) :
  (i < length l)%nat ->
  Zabs_sum (upd l i v) = Zabs_sum l + Z.abs v - Z.abs (nth i l 0).
Proof.
  revert i. induction l as [|x l IH]; intros [|i] H; simpl in *; try lia.
  rewrite IH by lia. lia.
Qed.

Lemma Forall2_upd {A B : Type} (P : A -> B -> Prop) (l : list A) (l' : list B)
    (i : nat) (v : A) (v' : B) :
  Forall2 P l l' -> P v v' -> Forall2 P (upd l i v) (upd l' i v').
Proof.
  intros H Hv. revert i. induction H as [|x y l l' Hxy H IH]; intros [|i]; simpl.
  - constructor.
  - constructor.
  - constructor; assumption.
  - constructor; [assumption|apply IH].
Qed.

Lemma Forall2_represents_nth (l : list float) (zl : list Z) (i : nat) :
  Forall2 represents l zl -> (i < length l)%nat ->
  represents (nth i l 0%float) (nth i zl 0).
Proof.
  intros H. revert i. induction H as [|x y l l' Hxy H IH]; intros [|i] Hi;
    simpl in *; try lia.
  - exact Hxy.
  - apply IH. lia.
Qed.

Lemma tracks_zero (n : nat) : tracks (repeat 0%float n) 0 0.
Proof.
  exists (repeat 0 n). induction n as [|n (IH1 & IH2 & IH3)]; simpl.
  - split; [constructor|]. split; [reflexivity|lia].
  - split; [constructor; [apply represents_zero|exact IH1]|].
    change (Zsum (repeat 0 n) = 0 /\ Zabs_sum (repeat 0 n) <= 0).
    split; assumption.
Qed.

Lemma tracks_le (l : list float) (t b b' : Z) :
  b <= b' -> tracks l t b -> tracks l t b'.
Proof.
  intros Hle (zl & H1 & H2 & H3). exists zl.
  split; [exact H1|]. split; [exact H2|lia].
Qed.

(** One accumulation [l[slot] += x] of an integer. *)
Lemma tracks_step (l : list float) (t b : Z) (slot : nat) (x : float) (zx : Z) :
  tracks l t b -> (slot < length l)%nat -> represents x zx ->
  b + Z.abs zx < 2 ^ 53 ->
  tracks (upd l slot (nth slot l 0%float + x)%float) (t + zx) (b + Z.abs zx).
Proof.
  intros (zl & H1 & H2 & H3) Hs Hx Hb.
  pose proof (Zabs_nth_le zl slot) as Hn.
  pose proof (Zabs_sum_nonneg zl) as H0.
  assert (Hl : (slot < length zl)%nat) by (rewrite <- (Forall2_length H1); exact Hs).
  exists (upd zl slot (nth slot zl 0 + zx)). split; [|split].
  - apply Forall2_upd; [exact H1|].
    apply represents_add; try lia.
    + apply Forall2_represents_nth; assumption.
    + exact Hx.
  - rewrite Zsum_upd by exact Hl. lia.
  - rewrite Zabs_sum_upd by exact Hl. lia.
Qed.

Lemma fold_add_represents (l : list float) (zl : list Z) :
  Forall2 represents l zl ->
  forall (acc : float) (za : Z),
    represents acc za -> Z.abs za + Zabs_sum zl < 2 ^ 53 ->
    represents (fold_left PrimFloat.add l acc) (za + Zsum zl).
Proof.
  induction 1 as [|x y l l' Hxy H IH]; intros acc za Ha Hb; simpl in *.
  - rewrite Z.add_0_r. exact Ha.
  - pose proof (Zabs_sum_nonneg l').
    replace (za + (y + Zsum l')) with ((za + y) + Zsum l') by lia.
    apply IH; [|lia]. apply represents_add; trivial; lia.
Qed.

(** The sum of the slots of an array of integers, taken in [double] in
    slot order, is the integer total. *)
Lemma tracks_sum (l : list float) (t b : Z) :
  tracks l t b -> b < 2 ^ 53 -> represents (sum_list l) t.
Proof.
  intros (zl & H1 & H2 & H3) Hb. rewrite <- H2.
  apply (fold_add_represents l zl H1 0%float 0 represents_zero).
  simpl. lia.
Qed.

Lemma abs_total_S (zs : list Z) (k : nat) :
  abs_total zs (Datatypes.S k) = abs_total zs k + Z.abs (nth k zs 0).
Proof. reflexivity. Qed.

Lemma abs_total_mono (zs : list Z) (k n : nat) :
  (k <= n)%nat -> abs_total zs k <= abs_total zs n.
Proof.
  induction 1 as [|n H IH]; [lia|]. rewrite abs_total_S. lia.
Qed.

Lemma sme_conservation (scalars : list Z) (points : list float) (zp : list Z)
    (num_scalars num_buckets : nat) (w : Z) :
  0 <= w < 64 -> Z.of_nat num_buckets = 2 ^ w - 1 ->
  integral points zp num_scalars -> abs_total zp num_scalars < 2 ^ 53 ->
  tracks (fst (sme_bucket_outer_product scalars points
                 (repeat 0%float num_buckets) num_scalars num_buckets w))
    (nonzero_digit_sum w scalars zp num_scalars) (abs_total zp num_scalars).
Proof.
  intros Hw Hnb Hint Hbound. unfold sme_bucket_outer_product, nonzero_digit_sum.
  cbn [fst]. rewrite bucket_mask_ones by exact Hw.
  set (body := fun (i : nat) (buckets : list float) => _).
  set (tot := fun (i : nat) (s : Z) => _).
  assert (Hinv : forall k, (k <= num_scalars)%nat ->
    length (for_loop k body (repeat 0%float num_buckets)) = num_buckets /\
    tracks (for_loop k body (repeat 0%float num_buckets))
      (for_loop k tot 0) (abs_total zp k)).
  { induction k as [|k IH]; intros Hk.
    - rewrite !for_loop_0. split; [apply repeat_length|apply tracks_zero].
    - rewrite !for_loop_S. destruct (IH ltac:(lia)) as [Hl Ht].
      set (bk := for_loop k body (repeat 0%float num_buckets)) in *.
      assert (Eb : body k bk =
        let bucket_idx := digit w (nth k scalars 0) in
        if (bucket_idx >? 0) && (bucket_idx <=? Z.of_nat num_buckets) then
          upd bk (Z.to_nat (bucket_idx - 1))
            (nth (Z.to_nat (bucket_idx - 1)) bk 0%float + nth k points 0%float)%float
        else bk) by reflexivity.
      assert (Et : tot k (for_loop k tot 0) =
        if digit w (nth k scalars 0) =? 0 then for_loop k tot 0
        else for_loop k tot 0 + nth k zp 0) by reflexivity.
      rewrite Eb, Et. clear Eb Et. cbv zeta.
      pose proof (digit_range w (nth k scalars 0) ltac:(lia)) as Hd.
      pose proof (abs_total_mono zp (Datatypes.S k) num_scalars Hk) as Hm.
      rewrite abs_total_S in Hm |- *.
      set (d := digit w (nth k scalars 0)) in *.
      destruct (Z.eqb_spec d 0) as [E0|Hnz].
      + rewrite E0. cbn [Z.gtb Z.compare andb]. split; [exact Hl|].
        apply (tracks_le _ _ (abs_total zp k)); [lia|exact Ht].
      + replace (d >? 0) with true by (symmetry; apply Z.gtb_lt; lia).
        replace (d <=? Z.of_nat num_buckets) with true
          by (symmetry; apply Z.leb_le; lia).
        cbn [andb]. split; [rewrite upd_length; exact Hl|].
        apply tracks_step; [exact Ht|lia|apply Hint; lia|lia]. }
  apply (Hinv num_scalars (Nat.le_refl _)).
Qed.

Lemma scatter_point_tracks (point_coords : list float) (zc : list Z)
    (acc : list float) (coord_size i bucket : nat) (t : Z) :
  (bucket * coord_size + coord_size <= length acc)%nat ->
  integral point_coords zc (i * coord_size + coord_size) ->
  abs_total zc (i * coord_size + coord_size) < 2 ^ 53 ->
  tracks acc t (abs_total zc (i * coord_size)) ->
  let acc' :=
    for_loop coord_size
      (fun c acc =>
         upd acc (bucket * coord_size + c)
           (s_add (get acc (bucket * coord_size + c))
                  (get point_coords (i * coord_size + c))))
      acc in
  length acc' = length acc /\
  tracks acc'
    (t + for_loop coord_size
           (fun c x => x + nth (i * coord_size + c) zc 0) 0)
    (abs_total zc (i * coord_size + coord_size)).
Proof.
  intros Hlen Hint Hbound Ht. cbv zeta.
  set (body := fun (c : nat) (acc : list float) => _).
  set (tot := fun (c : nat) (x : Z) => _).
  assert (Hinv : forall k, (k <= coord_size)%nat ->
    length (for_loop k body acc) = length acc /\
    tracks (for_loop k body acc) (t + for_loop k tot 0)
      (abs_total zc (i * coord_size + k))).
  { induction k as [|k IH]; intros Hk.
    - rewrite !for_loop_0, Nat.add_0_r, Z.add_0_r.
      split; [reflexivity|exact Ht].
    - rewrite !for_loop_S. destruct (IH ltac:(lia)) as [Hl Hs].
      set (ak := for_loop k body acc) in *.
      assert (Eb : body k ak =
                   upd ak (bucket * coord_size + k)
                     (nth (bucket * coord_size + k) ak 0%float +
                      nth (i * coord_size + k) point_coords 0%float)%float)
        by reflexivity.
      assert (Et : tot k (for_loop k tot 0) =
                   for_loop k tot 0 + nth (i * coord_size + k) zc 0)
        by reflexivity.
      rewrite Eb, Et. clear Eb Et.
      pose proof (abs_total_mono zc (Datatypes.S (i * coord_size + k))
                    (i * coord_size + coord_size) ltac:(lia)) as Hm.
      rewrite Nat.add_succ_r. rewrite abs_total_S in Hm |- *.
      split; [rewrite upd_length; exact Hl|].
      rewrite Z.add_assoc.
      apply tracks_step; [exact Hs|lia|apply Hint; lia|lia]. }
  apply (Hinv coord_size (Nat.le_refl _)).
Qed.

Lemma blas_conservation (bucket_indices : list nat)
    (point_coords : list float) (zc : list Z)
    (num_points num_buckets coord_size : nat) :
  integral point_coords zc (num_points * coord_size) ->
  abs_total zc (num_points * coord_size) < 2 ^ 53 ->
  tracks (blas_bucket_accumulate bucket_indices point_coords
            (repeat 0%float (num_buckets * coord_size))
            num_points num_buckets coord_size)
    (in_range_sum bucket_indices zc num_points num_buckets coord_size)
    (abs_total zc (num_points * coord_size)).
Proof.
  intros Hint Hbound. unfold in_range_sum, blas_bucket_accumulate.
  set (body := fun (i : nat) (acc : list float) => _).
  set (tot := fun (i : nat) (s : Z) => _).
  assert (Hinv : forall k, (k <= num_points)%nat ->
    length (for_loop k body (repeat 0%float (num_buckets * coord_size))) =
      (num_buckets * coord_size)%nat /\
    tracks (for_loop k body (repeat 0%float (num_buckets * coord_size)))
      (for_loop k tot 0) (abs_total zc (k * coord_size))).
  { induction k as [|k IH]; intros Hk.
    - rewrite !for_loop_0. split; [apply repeat_length|apply tracks_zero].
    - rewrite !for_loop_S. destruct (IH ltac:(lia)) as [Hl Ht].
      set (ak := for_loop k body (repeat 0%float (num_buckets * coord_size))) in *.
      assert (Hle : (k * coord_size + coord_size <= num_points * coord_size)%nat)
        by nia.
      pose proof (abs_total_mono zc _ _ Hle) as Hm.
      replace (Datatypes.S k * coord_size)%nat
        with (k * coord_size + coord_size)%nat by lia.
      assert (Eb : body k ak =
        if (nth k bucket_indices O <? num_buckets)%nat then
          for_loop coord_size
            (fun c acc =>
               upd acc (nth k bucket_indices O * coord_size + c)
                 (s_add (get acc (nth k bucket_indices O * coord_size + c))
                        (get point_coords (k * coord_size + c))))
            ak
        else ak) by reflexivity.
      assert (Et : tot k (for_loop k tot 0) =
        if (nth k bucket_indices O <? num_buckets)%nat then
          for_loop k tot 0 +
          for_loop coord_size
            (fun c x => x + nth (k * coord_size + c) zc 0) 0
        else for_loop k tot 0) by reflexivity.
      rewrite Eb, Et. clear Eb Et.
      destruct (Nat.ltb_spec (nth k bucket_indices O) num_buckets) as [Hin|Hout].
      + destruct (scatter_point_tracks point_coords zc ak coord_size k
                    (nth k bucket_indices O) (for_loop k tot 0)) as [Hl' Ht'].
        * rewrite Hl. nia.
        * intros j Hj. apply Hint. lia.
        * lia.
        * exact Ht.
        * split; [rewrite Hl'; exact Hl|exact Ht'].
      + split; [exact Hl|].
        apply (tracks_le _ _ (abs_total zc (k * coord_size))); [|exact Ht].
        pose proof (abs_total_mono zc (k * coord_size)
                      (k * coord_size + coord_size) ltac:(lia)). lia. }
  apply (Hinv num_points (Nat.le_refl _)).
Qed.

(** ** Claim C8 *)

(** C8 (amended).  For a pass that starts from zero-initialised buckets,
    with [num_buckets = 2^w - 1], any number of points, and integral
    coordinates whose absolute values add up to less than [2^53] (so that
    no addition rounds): the digit-extracting strategy
    ([sme_bucket_outer_product], non-Apple path) leaves in the bucket
    slots doubles whose sum is the integer sum of the points whose digit
    is not zero; the direct scatter-add ([blas_bucket_accumulate]) leaves
    doubles whose sum is the integer sum of the coordinates of the points
    whose bucket index is below [num_buckets], index 0 counted and index
    [num_buckets] not.  The sums over the slots are taken in [double],
    in slot order. *)
Theorem bucket_conservation (scalars : list Z) (points : list float)
    (zp : list Z) (bucket_indices : list nat) (point_coords : list float)
    (zc : list Z) (num_points num_buckets coord_size : nat) (w : Z) :
  0 <= w < 64 -> Z.of_nat num_buckets = 2 ^ w - 1 ->
  integral points zp num_points ->
  abs_total zp num_points < 2 ^ 53 ->
  integral point_coords zc (num_points * coord_size) ->
  abs_total zc (num_points * coord_size) < 2 ^ 53 ->
  represents
    (sum_list (fst (sme_bucket_outer_product scalars points
                      (repeat 0%float num_buckets) num_points num_buckets w)))
    (nonzero_digit_sum w scalars zp num_points) /\
  represents
    (sum_list (blas_bucket_accumulate bucket_indices point_coords
                 (repeat 0%float (num_buckets * coord_size))
                 num_points num_buckets coord_size))
    (in_range_sum bucket_indices zc num_points num_buckets coord_size).
Proof.
  intros Hw Hnb Ip Bp Ic Bc. split.
  - apply (tracks_sum _ _ (abs_total zp num_points)); [|exact Bp].
    apply sme_conservation; assumption.
  - apply (tracks_sum _ _ (abs_total zc (num_points * coord_size))); [|exact Bc].
    apply blas_conservation; assumption.
Qed.

(** The scenario of the specification: window size 2, three buckets. *)
Lemma bucket_conservation_witness :
  represents
    (sum_list (fst (sme_bucket_outer_product [1; 0; 2; 3; 1]
                      [10; 20; 30; 40; 50]%float (repeat 0%float 3) 5 3 2)))
    (nonzero_digit_sum 2 [1; 0; 2; 3; 1] [10; 20; 30; 40; 50] 5) /\
  represents
    (sum_list (blas_bucket_accumulate [1; 0; 2; 3; 1]%nat
                 [10; 20; 30; 40; 50]%float (repeat 0%float (3 * 1)) 5 3 1))
    (in_range_sum [1; 0; 2; 3; 1]%nat [10; 20; 30; 40; 50] 5 3 1).
Proof.
  apply (bucket_conservation [1; 0; 2; 3; 1] [10; 20; 30; 40; 50]%float
           [10; 20; 30; 40; 50] [1; 0; 2; 3; 1]%nat [10; 20; 30; 40; 50]%float
           [10; 20; 30; 40; 50] 5 3 1 2).
  - split; [discriminate|reflexivity].
  - reflexivity.
  - intros i Hi. do 5 (destruct i as [|i]; [vm_compute; reflexivity|]). lia.
  - reflexivity.
  - intros i Hi. do 5 (destruct i as [|i]; [vm_compute; reflexivity|]). lia.
  - reflexivity.
Defined.

(** C8 as stated fails twice.  The direct scatter-add, handed the digits
    [[1, 0, 2, 3, 1]] of the scenario (window size 2, three buckets),
    accumulates 110 in total, while the points with a non-zero digit sum
    to 130.  And integral coordinates are not enough for the equality to
    hold in [double]: with one bucket (window size 1) and the points
    [2^53, 1, 1], all of digit 1, the slot ends at [2^53], while the
    points sum to [2^53 + 2]. *)
Lemma bucket_conservation_breaks :
  (Z.of_nat 3 = 2 ^ 2 - 1 /\
   integral [10; 20; 30; 40; 50]%float [10; 20; 30; 40; 50] 5 /\
   ~ represents
       (sum_list (blas_bucket_accumulate [1; 0; 2; 3; 1]%nat
                    [10; 20; 30; 40; 50]%float (repeat 0%float (3 * 1)) 5 3 1))
       (nonzero_digit_sum 2 [1; 0; 2; 3; 1] [10; 20; 30; 40; 50] 5)) /\
  (Z.of_nat 1 = 2 ^ 1 - 1 /\
   integral [0x1p53; 1; 1]%float [2 ^ 53; 1; 1] 3 /\
   ~ represents
       (sum_list (fst (sme_bucket_outer_product [1; 1; 1]
                         [0x1p53; 1; 1]%float (repeat 0%float 1) 3 1 1)))
       (nonzero_digit_sum 1 [1; 1; 1] [2 ^ 53; 1; 1] 3)).
Proof.
  split; (split; [reflexivity|]); split.
  - intros i Hi. do 5 (destruct i as [|i]; [vm_compute; reflexivity|]). lia.
  - unfold represents. vm_compute. discriminate.
  - intros i Hi. do 3 (destruct i as [|i]; [vm_compute; reflexivity|]). lia.
  - unfold represents. vm_compute. discriminate.
Qed.


(* ================================================================== *)
(** * Part III: further properties of the integer code                 *)
(* ================================================================== *)

(** ** Limb sequences are determined by their value *)

Lemma eval_inj (m1 m2 : mem) (p1 p2 : ptr) (n : nat) :
  limbs_ok m1 p1 n -> limbs_ok m2 p2 n ->
  eval m1 p1 n = eval m2 p2 n ->
  forall i, (i < n)%nat -> m1 (p1 + i)%nat = m2 (p2 + i)%nat.
Proof.
  induction n as [|n IH]; intros H1 H2 E i Hi; [lia|].
  assert (H1' : limbs_ok m1 p1 n) by (eapply limbs_ok_le; [|exact H1]; lia).
  assert (H2' : limbs_ok m2 p2 n) by (eapply limbs_ok_le; [|exact H2]; lia).
  pose proof (eval_bounds _ _ _ H1') as B1.
  pose proof (eval_bounds _ _ _ H2') as B2.
  pose proof (H1 n ltac:(lia)) as L1. pose proof (H2 n ltac:(lia)) as L2.
  rewrite !eval_S in E. pose proof (Wpow_pos n) as Pn.
  assert (Etop : m1 (p1 + n)%nat = m2 (p2 + n)%nat).
  { destruct (Z.lt_trichotomy (m1 (p1 + n)%nat) (m2 (p2 + n)%nat))
      as [Hlt|[Heq|Hgt]]; [exfalso; nia | exact Heq | exfalso; nia]. }
  destruct (Nat.eq_dec i n) as [->|Hne]; [exact Etop|].
  apply IH; try assumption; [|lia]. rewrite Etop in E. lia.
Qed.

(** A row followed by carry propagation, without any bound on the sum:
    what does not fit the [N] limbs is dropped. *)
Lemma row_propagate_mod (h : mem) (x : Z) (y : ptr) (i L N : nat)
    (body : nat -> mem * Z -> mem * Z) (t : mem) :
  (i + L <= N)%nat ->
  (forall j t c,
    (j < L)%nat -> 0 <= t (i + j)%nat < W -> 0 <= c < W ->
    exists v c',
      body j (t, c) = (wr t (i + j) v, c') /\
      0 <= v < W /\ 0 <= c' < W /\
      v + W * c' = x * h (y + j)%nat + t (i + j)%nat + c) ->
  limbs_ok t 0 N ->
  let '(t1, c) := for_loop L body (t, 0) in
  let t2 := fst (propagate_carry (N - (i + L)) t1 (i + L) c) in
  limbs_ok t2 0 N /\
  eval t2 0 N = (eval t 0 N + x * eval h y L * W ^ Z.of_nat i) mod W ^ Z.of_nat N.
Proof.
  intros HiL Hbody Ht.
  pose proof (mac_row_spec h x y i L N body HiL Hbody t Ht) as Hrow.
  destruct (for_loop L body (t, 0)) as [t1 c].
  destruct Hrow as (Hok1 & Hc & Hval & _).
  pose proof (propagate_carry_spec N (N - (i + L)) t1 (i + L) c
                ltac:(lia) Hok1 Hc) as Hp.
  destruct (propagate_carry (N - (i + L)) t1 (i + L) c) as [t2 c2].
  destruct Hp as (Hok2 & Hc2 & Hval2 & _). cbv zeta. cbn [fst].
  split; [exact Hok2|].
  pose proof (eval_bounds _ _ _ Hok2) as B2.
  apply Z.mod_unique with (q := c2); [lia|]. lia.
Qed.

(** ** Two runs of the reduction loop *)

Section ReduceAgree.

Variables (h : mem) (modulus : ptr) (mu : Z) (L : nat).
Variables body1 body2 : Z -> nat -> nat -> mem * Z -> mem * Z.

Hypothesis Hbody1 : forall m i j t c,
  0 <= m < W ->
  (j < L)%nat -> 0 <= t (i + j)%nat < W -> 0 <= c < W ->
  exists v c',
    body1 m i j (t, c) = (wr t (i + j) v, c') /\
    0 <= v < W /\ 0 <= c' < W /\
    v + W * c' = m * h (modulus + j)%nat + t (i + j)%nat + c.
Hypothesis Hbody2 : forall m i j t c,
  0 <= m < W ->
  (j < L)%nat -> 0 <= t (i + j)%nat < W -> 0 <= c < W ->
  exists v c',
    body2 m i j (t, c) = (wr t (i + j) v, c') /\
    0 <= v < W /\ 0 <= c' < W /\
    v + W * c' = m * h (modulus + j)%nat + t (i + j)%nat + c.

Lemma reduce_loop_agree (t1 t2 : mem) :
  limbs_ok t1 0 (2 * L) -> limbs_ok t2 0 (2 * L) ->
  eval t1 0 (2 * L) = eval t2 0 (2 * L) ->
  limbs_ok (reduce_loop body1 mu L t1) 0 (2 * L) /\
  limbs_ok (reduce_loop body2 mu L t2) 0 (2 * L) /\
  eval (reduce_loop body1 mu L t1) 0 (2 * L) =
  eval (reduce_loop body2 mu L t2) 0 (2 * L).
Proof.
  intros H1 H2 E. unfold reduce_loop.
  set (step1 := fun (i : nat) (t : mem) => _).
  set (step2 := fun (i : nat) (t : mem) => _).
  assert (Hinv : forall k, (k <= L)%nat ->
    limbs_ok (for_loop k step1 t1) 0 (2 * L) /\
    limbs_ok (for_loop k step2 t2) 0 (2 * L) /\
    eval (for_loop k step1 t1) 0 (2 * L) = eval (for_loop k step2 t2) 0 (2 * L)).
  { induction k as [|k IH]; intros Hk.
    - rewrite !for_loop_0. auto.
    - rewrite !for_loop_S. destruct (IH ltac:(lia)) as (O1 & O2 & Ek).
      set (u1 := for_loop k step1 t1) in *. set (u2 := for_loop k step2 t2) in *.
      pose proof (eval_inj u1 u2 0 0 (2 * L) O1 O2 Ek k ltac:(lia)) as Elimb.
      cbn [Nat.add] in Elimb.
      set (q := u64 (rd u1 k * mu)).
      assert (Hq : 0 <= q < W) by apply u64_range.
      assert (Es1 : step1 k u1 =
                    let '(t0, carry) := for_loop L (body1 q k) (u1, 0) in
                    fst (propagate_carry (2 * L - (k + L)) t0 (k + L) carry))
        by reflexivity.
      assert (Es2 : step2 k u2 =
                    let '(t0, carry) := for_loop L (body2 q k) (u2, 0) in
                    fst (propagate_carry (2 * L - (k + L)) t0 (k + L) carry)).
      { unfold q, rd. rewrite Elimb. reflexivity. }
      rewrite Es1, Es2. clear Es1 Es2.
      pose proof (row_propagate_mod h q modulus k L (2 * L) (body1 q k) u1
        ltac:(lia) (fun j t c => Hbody1 q k j t c Hq) O1) as R1.
      pose proof (row_propagate_mod h q modulus k L (2 * L) (body2 q k) u2
        ltac:(lia) (fun j t c => Hbody2 q k j t c Hq) O2) as R2.
      destruct (for_loop L (body1 q k) (u1, 0)) as [a1 c1].
      destruct (for_loop L (body2 q k) (u2, 0)) as [a2 c2].
      cbv zeta in R1, R2. destruct R1 as [R1a R1b]. destruct R2 as [R2a R2b].
      split; [exact R1a|]. split; [exact R2a|].
      rewrite R1b, R2b, Ek. reflexivity. }
  exact (Hinv L (Nat.le_refl L)).
Qed.

End ReduceAgree.

Lemma final_reduction_same_upper (h t1 t2 : mem) (modulus result : ptr) (L : nat) :
  (forall i, (i < L)%nat -> t1 (L + i)%nat = t2 (L + i)%nat) ->
  forall q,
    final_reduction h t1 modulus result L q =
    final_reduction h t2 modulus result L q.
Proof.
  intros Ht. unfold final_reduction.
  set (g1 := memcpy h result t1 L L). set (g2 := memcpy h result t2 L L).
  assert (Hg : forall q, g1 q = g2 q).
  { intros q. unfold g1, g2, memcpy.
    destruct (Nat.leb_spec result q); destruct (Nat.ltb_spec q (result + L));
      cbn [andb]; try reflexivity.
    apply Ht. lia. }
  rewrite (compare_limbs_ext g1 g2 result modulus L
             (fun i _ => Hg _) (fun i _ => Hg _)).
  destruct (compare_limbs result modulus g2 L >=? 0); [|exact Hg].
  intros q.
  apply (sub_with_borrow_ext g1 g2 result modulus result L (fun _ => True));
    auto.
Qed.

(** The product buffer each build passes to its reduction loop. *)
Lemma product_buffer (NEON_AVAILABLE : bool) (t h : mem) (a b : ptr) (L : nat) :
  limbs_ok h a L -> limbs_ok h b L ->
  let p := if NEON_AVAILABLE then neon_schoolbook_mul h a b t L
           else scalar_schoolbook h a b t L in
  limbs_ok p 0 (2 * L) /\ eval p 0 (2 * L) = eval h a L * eval h b L.
Proof.
  intros Ha Hb. destruct NEON_AVAILABLE.
  - apply neon_schoolbook_mul_spec; assumption.
  - apply scalar_schoolbook_spec; assumption.
Qed.

Lemma montgomery_mul_generic_unfold (NEON_AVAILABLE : bool) (t h : mem)
    (a b modulus : ptr) (mu : Z) (result : ptr) (L : nat) :
  montgomery_mul_generic NEON_AVAILABLE t h a b modulus mu result L =
  final_reduction h
    (reduce_loop
       (if NEON_AVAILABLE then fun m i => neon_row_body h m modulus i
        else fun m i => scalar_row_body h m modulus i)
       mu L
       (if NEON_AVAILABLE then neon_schoolbook_mul h a b t L
        else scalar_schoolbook h a b t L))
    modulus result L.
Proof. destruct NEON_AVAILABLE; reflexivity. Qed.

Lemma row_body_ok (NEON_AVAILABLE : bool) (h : mem) (modulus : ptr) (L : nat) :
  limbs_ok h modulus L ->
  forall m i j t c,
    0 <= m < W ->
    (j < L)%nat -> 0 <= t (i + j)%nat < W -> 0 <= c < W ->
    exists v c',
      (if NEON_AVAILABLE then fun m i => neon_row_body h m modulus i
       else fun m i => scalar_row_body h m modulus i) m i j (t, c)
      = (wr t (i + j) v, c') /\
      0 <= v < W /\ 0 <= c' < W /\
      v + W * c' = m * h (modulus + j)%nat + t (i + j)%nat + c.
Proof.
  intros Hm m i j t c Hm0. destruct NEON_AVAILABLE.
  - apply (neon_row_body_ok h m modulus i L Hm0 Hm).
  - apply (scalar_row_body_ok h m modulus i L Hm0 Hm).
Qed.

(** Two calls whose operand products are equal return the same memory,
    whichever build runs them and whatever their stack arrays hold. *)
Lemma montgomery_mul_generic_agree (N1 N2 : bool) (t1 t2 h : mem)
    (a1 b1 a2 b2 modulus : ptr) (mu : Z) (result : ptr) (L : nat) :
  limbs_ok h a1 L -> limbs_ok h b1 L -> limbs_ok h a2 L -> limbs_ok h b2 L ->
  limbs_ok h modulus L ->
  eval h a1 L * eval h b1 L = eval h a2 L * eval h b2 L ->
  forall q,
    montgomery_mul_generic N1 t1 h a1 b1 modulus mu result L q =
    montgomery_mul_generic N2 t2 h a2 b2 modulus mu result L q.
Proof.
  intros Ha1 Hb1 Ha2 Hb2 Hm E q. rewrite !montgomery_mul_generic_unfold.
  destruct (product_buffer N1 t1 h a1 b1 L Ha1 Hb1) as [O1 V1].
  destruct (product_buffer N2 t2 h a2 b2 L Ha2 Hb2) as [O2 V2].
  cbv zeta in O1, V1, O2, V2.
  destruct (reduce_loop_agree h modulus mu L _ _
              (row_body_ok N1 h modulus L Hm) (row_body_ok N2 h modulus L Hm)
              _ _ O1 O2 ltac:(rewrite V1, V2; exact E)) as (R1 & R2 & ER).
  apply final_reduction_same_upper. intros i Hi.
  apply (eval_inj _ _ 0 0 (2 * L) R1 R2 ER (L + i)%nat). lia.
Qed.

(** ** [compare_limbs] *)

(** X1.  On limb sequences of [uint64_t] values, [compare_limbs] returns
    -1, 0 or 1 according to the order of the two numbers, and 0 exactly
    when the sequences are equal limb by limb. *)
Theorem compare_limbs_order (h : mem) (a b : ptr) (L : nat) :
  limbs_ok h a L -> limbs_ok h b L ->
  (compare_limbs a b h L = -1 <-> eval h a L < eval h b L) /\
  (compare_limbs a b h L = 1 <-> eval h a L > eval h b L) /\
  (compare_limbs a b h L = 0 <->
     forall i, (i < L)%nat -> h (a + i)%nat = h (b + i)%nat).
Proof.
  intros Ha Hb.
  destruct (compare_limbs_spec h a b L Ha Hb) as [[E Hc]|[[E Hc]|[E Hc]]];
    rewrite E.
  - split; [split; [intros _; exact Hc | reflexivity]|].
    split; [split; [discriminate | lia]|].
    split; [discriminate|]. intros Heq. exfalso.
    assert (eval h a L = eval h b L) by (apply eval_ext, Heq). lia.
  - split; [split; [discriminate | lia]|].
    split; [split; [discriminate | lia]|].
    split; [|reflexivity]. intros _. apply eval_inj; assumption.
  - split; [split; [discriminate | lia]|].
    split; [split; [intros _; exact Hc | reflexivity]|].
    split; [discriminate|]. intros Heq. exfalso.
    assert (eval h a L = eval h b L) by (apply eval_ext, Heq). lia.
Qed.

Lemma compare_limbs_order_witness :
  let h := store (store zero_mem 0 [5; 0; 0; 1]) 4 [7; 9; 0; 0] in
  (compare_limbs 0 4 h 4 = -1 <-> eval h 0 4 < eval h 4 4) /\
  (compare_limbs 0 4 h 4 = 1 <-> eval h 0 4 > eval h 4 4) /\
  (compare_limbs 0 4 h 4 = 0 <->
     forall i, (i < 4)%nat -> h (0 + i)%nat = h (4 + i)%nat).
Proof.
  intros h. apply (compare_limbs_order h 0 4 4); limbs4.
Defined.

(** ** [neon_schoolbook_mul] *)

(** X2.  For every limb count and all operands, reduced or not,
    [neon_schoolbook_mul] fills the [2 * limb_count] limbs of its output
    with the exact product, whatever the buffer held before. *)
Theorem schoolbook_full_product (h : mem) (a b : ptr) (t : mem) (L : nat) :
  limbs_ok h a L -> limbs_ok h b L ->
  limbs_ok (neon_schoolbook_mul h a b t L) 0 (2 * L) /\
  eval (neon_schoolbook_mul h a b t L) 0 (2 * L) = eval h a L * eval h b L.
Proof. intros Ha Hb. apply neon_schoolbook_mul_spec; assumption. Qed.

(** Both operands [2^256 - 1]. *)
Lemma schoolbook_full_product_witness :
  let ones := [2 ^ 64 - 1; 2 ^ 64 - 1; 2 ^ 64 - 1; 2 ^ 64 - 1] in
  let h := store (store zero_mem 0 ones) 4 ones in
  limbs_ok (neon_schoolbook_mul h 0 4 (fun _ => 7) 4) 0 (2 * 4) /\
  eval (neon_schoolbook_mul h 0 4 (fun _ => 7) 4) 0 (2 * 4) =
  eval h 0 4 * eval h 4 4.
Proof.
  intros ones h. apply (schoolbook_full_product h 0 4 (fun _ => 7) 4); limbs4.
Defined.

(** ** The two builds *)

(** X3.  On all inputs made of [uint64_t] limbs, valid Montgomery
    operands or not, the NEON build and the scalar build of
    [neon_montgomery_mul_4limb] and [neon_montgomery_mul_6limb] leave the
    same memory, and neither depends on what the stack array [t] held on
    entry. *)
Theorem builds_agree (N1 N2 : bool) (t1 t2 h : mem) (a b modulus : ptr)
    (mu : Z) (result : ptr) :
  (limbs_ok h a 4 -> limbs_ok h b 4 -> limbs_ok h modulus 4 ->
   forall q,
     neon_montgomery_mul_4limb N1 t1 h a b modulus mu result q =
     neon_montgomery_mul_4limb N2 t2 h a b modulus mu result q) /\
  (limbs_ok h a 6 -> limbs_ok h b 6 -> limbs_ok h modulus 6 ->
   forall q,
     neon_montgomery_mul_6limb N1 t1 h a b modulus mu result q =
     neon_montgomery_mul_6limb N2 t2 h a b modulus mu result q).
Proof.
  split; intros Ha Hb Hm q.
  - apply (montgomery_mul_generic_agree N1 N2 t1 t2 h a b a b modulus mu result 4);
      auto.
  - apply (montgomery_mul_generic_agree N1 N2 t1 t2 h a b a b modulus mu result 6);
      auto.
Qed.

(** Unreduced operands, an even modulus and an arbitrary [mu]. *)
Lemma builds_agree_witness :
  let h := store (store (store zero_mem 0 [2 ^ 64 - 1; 3; 2 ^ 64 - 5; 2 ^ 63])
                    4 [9; 2 ^ 64 - 1; 2 ^ 64 - 1; 2 ^ 64 - 1])
                 8 [6; 0; 2 ^ 64 - 1; 17] in
  neon_montgomery_mul_4limb true zero_mem h 0 4 8 12345 12 13%nat =
  neon_montgomery_mul_4limb false (fun _ => 99) h 0 4 8 12345 12 13%nat.
Proof.
  intros h.
  apply (proj1 (builds_agree true false zero_mem (fun _ => 99) h 0 4 8 12345 12));
    limbs4.
Defined.

(** X4.  Montgomery multiplication is symmetric in its operands: for all
    inputs made of [uint64_t] limbs, swapping [a] and [b] gives the same
    memory. *)
Theorem montgomery_mul_commutative (NEON_AVAILABLE : bool) (t h : mem)
    (a b modulus : ptr) (mu : Z) (result : ptr) :
  (limbs_ok h a 4 -> limbs_ok h b 4 -> limbs_ok h modulus 4 ->
   forall q,
     neon_montgomery_mul_4limb NEON_AVAILABLE t h a b modulus mu result q =
     neon_montgomery_mul_4limb NEON_AVAILABLE t h b a modulus mu result q) /\
  (limbs_ok h a 6 -> limbs_ok h b 6 -> limbs_ok h modulus 6 ->
   forall q,
     neon_montgomery_mul_6limb NEON_AVAILABLE t h a b modulus mu result q =
     neon_montgomery_mul_6limb NEON_AVAILABLE t h b a modulus mu result q).
Proof.
  split; intros Ha Hb Hm q.
  - apply (montgomery_mul_generic_agree NEON_AVAILABLE NEON_AVAILABLE t t h
             a b b a modulus mu result 4); auto. ring.
  - apply (montgomery_mul_generic_agree NEON_AVAILABLE NEON_AVAILABLE t t h
             a b b a modulus mu result 6); auto. ring.
Qed.

Lemma montgomery_mul_commutative_witness :
  let h := store (store (store zero_mem 0 [1; 2; 3; 4; 5; 6])
                    6 [7; 8; 9; 10; 11; 12])
                 12 [13; 0; 0; 0; 0; 2 ^ 60] in
  neon_montgomery_mul_6limb false zero_mem h 0 6 12 3 18 20%nat =
  neon_montgomery_mul_6limb false zero_mem h 6 0 12 3 18 20%nat.
Proof.
  intros h.
  apply (proj2 (montgomery_mul_commutative false zero_mem h 0 6 12 3 18));
    limbs6.
Defined.

(** ** What a multiplication writes *)

(** X5.  [neon_montgomery_mul_4limb] and [neon_montgomery_mul_6limb]
    write the 4 (resp. 6) words at [result] and nothing else: every other
    word of the caller's memory, the operands and the modulus included
    when they lie outside that block, is as before.  No precondition. *)
Theorem montgomery_mul_writes_result_only (NEON_AVAILABLE : bool) (t h : mem)
    (a b modulus : ptr) (mu : Z) (result q : ptr) :
  (~ region result 4 q ->
   neon_montgomery_mul_4limb NEON_AVAILABLE t h a b modulus mu result q = h q) /\
  (~ region result 6 q ->
   neon_montgomery_mul_6limb NEON_AVAILABLE t h a b modulus mu result q = h q).
Proof.
  split; intros Hq.
  - apply (montgomery_mul_generic_frame NEON_AVAILABLE t h a b modulus mu result 4 q Hq).
  - apply (montgomery_mul_generic_frame NEON_AVAILABLE t h a b modulus mu result 6 q Hq).
Qed.

(** An in-place call, [result = a]: the word just before the block. *)
Lemma montgomery_mul_writes_result_only_witness :
  let h := store zero_mem 0 [1; 2; 3; 4; 5; 6; 7; 8; 9; 10; 11; 12; 13] in
  neon_montgomery_mul_4limb true zero_mem h 4 8 0 77 4 3%nat = h 3%nat.
Proof.
  intros h.
  apply (proj1 (montgomery_mul_writes_result_only true zero_mem h 4 8 0 77 4 3%nat)).
  unfold region. lia.
Defined.

(** ** Reduction with an arbitrary [mu] *)

(** Without any relation between [mu] and the modulus the loop still adds
    a multiple [Q * modulus], [Q < R], to [t]. *)
Lemma reduce_loop_adds_multiple (h : mem) (modulus : ptr) (mu : Z) (L : nat)
    (body : Z -> nat -> nat -> mem * Z -> mem * Z) (t : mem) :
  limbs_ok h modulus L ->
  (forall m i j t c,
    0 <= m < W ->
    (j < L)%nat -> 0 <= t (i + j)%nat < W -> 0 <= c < W ->
    exists v c',
      body m i j (t, c) = (wr t (i + j) v, c') /\
      0 <= v < W /\ 0 <= c' < W /\
      v + W * c' = m * h (modulus + j)%nat + t (i + j)%nat + c) ->
  limbs_ok t 0 (2 * L) ->
  eval t 0 (2 * L) + W ^ Z.of_nat L * eval h modulus L <= W ^ Z.of_nat (2 * L) ->
  limbs_ok (reduce_loop body mu L t) 0 (2 * L) /\
  exists Q, 0 <= Q < W ^ Z.of_nat L /\
    eval (reduce_loop body mu L t) 0 (2 * L) =
    eval t 0 (2 * L) + Q * eval h modulus L.
Proof.
  intros Hm Hbody Ht Hfit. unfold reduce_loop.
  set (M := eval h modulus L) in *.
  assert (HM : 0 <= M) by (apply eval_bounds, Hm).
  set (step := fun (i : nat) (t : mem) => _).
  assert (Hinv : forall k, (k <= L)%nat ->
    limbs_ok (for_loop k step t) 0 (2 * L) /\
    exists Q, 0 <= Q < W ^ Z.of_nat k /\
      eval (for_loop k step t) 0 (2 * L) = eval t 0 (2 * L) + Q * M).
  { induction k as [|k IH]; intros Hk.
    - rewrite for_loop_0. split; [exact Ht|]. exists 0. simpl. lia.
    - rewrite for_loop_S. destruct (IH ltac:(lia)) as (Hok & Q & HQ & Hval).
      set (tk := for_loop k step t) in *.
      set (q := u64 (rd tk k * mu)).
      assert (Hq : 0 <= q < W) by apply u64_range.
      assert (Es : step k tk =
                   let '(t0, carry) := for_loop L (body q k) (tk, 0) in
                   fst (propagate_carry (2 * L - (k + L)) t0 (k + L) carry))
        by reflexivity.
      rewrite Es. clear Es.
      pose proof (row_propagate_spec h q modulus k L (2 * L) (body q k) tk
        ltac:(lia) (fun j t c => Hbody q k j t c Hq) Hok) as Hrp.
      destruct (for_loop L (body q k) (tk, 0)) as [t1 c]. cbv zeta in Hrp.
      destruct Hrp as [Hok2 Hval2]. split; [exact Hok2|].
      pose proof (Wpow_pos k) as Pk. pose proof (Wpow_pos L) as PL.
      pose proof (Wpow_le (S k) L Hk) as Hle. pose proof W_pos as HW.
      rewrite Wpow_S in *.
      exists (Q + q * W ^ Z.of_nat k).
      split; [nia|]. rewrite Hval2.
      + rewrite Hval. fold M. ring.
      + rewrite Hval. fold M.
        assert (HQL : Q + q * W ^ Z.of_nat k < W ^ Z.of_nat L) by nia.
        pose proof (eval_bounds _ _ _ Ht) as Bt.
        destruct (Z.eq_dec M 0) as [E0|E0]; [rewrite E0; lia|].
        assert ((Q + q * W ^ Z.of_nat k) * M < W ^ Z.of_nat L * M) by nia.
        lia. }
  exact (Hinv L (Nat.le_refl L)).
Qed.

Lemma montgomery_generic_reduced (NEON_AVAILABLE : bool) (t h : mem)
    (a b modulus : ptr) (mu : Z) (result : ptr) (L : nat) :
  limbs_ok h a L -> limbs_ok h b L -> limbs_ok h modulus L ->
  disjoint result L modulus L ->
  eval h a L < eval h modulus L -> eval h b L < eval h modulus L ->
  2 * eval h modulus L <= R L ->
  let h' := montgomery_mul_generic NEON_AVAILABLE t h a b modulus mu result L in
  limbs_ok h' result L /\ eval h' result L < eval h modulus L.
Proof.
  intros Ha Hb Hm Hdis HaM HbM Hbound. cbv zeta.
  rewrite montgomery_mul_generic_unfold.
  destruct (product_buffer NEON_AVAILABLE t h a b L Ha Hb) as [Hok Hprod].
  cbv zeta in Hok, Hprod. rewrite R_Wpow in Hbound.
  pose proof (eval_bounds _ _ _ Ha) as Ba. pose proof (eval_bounds _ _ _ Hb) as Bb.
  pose proof (eval_bounds _ _ _ Hm) as Bm. pose proof (Wpow_pos L) as PL.
  set (A := eval h a L) in *. set (B := eval h b L) in *.
  set (M := eval h modulus L) in *. set (RL := W ^ Z.of_nat L) in *.
  assert (Hsq : W ^ Z.of_nat (2 * L) = RL * RL).
  { replace (2 * L)%nat with (L + L)%nat by lia. apply Wpow_add. }
  assert (HAB : A * B < M * RL) by nia.
  set (p := if NEON_AVAILABLE then neon_schoolbook_mul h a b t L
            else scalar_schoolbook h a b t L) in *.
  assert (Hfit : eval p 0 (2 * L) + RL * M <= W ^ Z.of_nat (2 * L)).
  { rewrite Hprod, Hsq. nia. }
  destruct (reduce_loop_adds_multiple h modulus mu L _ p Hm
              (row_body_ok NEON_AVAILABLE h modulus L Hm) Hok Hfit)
    as (Hok' & Q & HQ & Hval).
  set (t' := reduce_loop _ mu L p) in *.
  assert (Hsplit : eval t' 0 (2 * L) = eval t' 0 L + RL * eval t' L L).
  { replace (2 * L)%nat with (L + L)%nat by lia. apply (eval_split t' 0 L L). }
  assert (Blo : 0 <= eval t' 0 L).
  { apply eval_bounds. eapply limbs_ok_le; [|exact Hok']. lia. }
  fold M RL in Hval, HQ.
  assert (Hr2 : eval t' L L < 2 * M) by nia.
  destruct (final_reduction_spec h t' modulus result L Hok' Hm Hdis Hr2)
    as (Hrok & Hrange & _). fold M in Hrange. split; [exact Hrok|lia].
Qed.

(** X6.  The final conditional subtraction makes the output a reduced
    value whatever [mu] is: for reduced operands and a modulus below
    [2^(64 L - 1)], the result is an [L]-limb number below the modulus
    even when [mu] is not the Montgomery constant of that modulus. *)
Theorem montgomery_output_reduced_for_any_mu (NEON_AVAILABLE : bool) (t h : mem)
    (a b modulus : ptr) (mu : Z) (result : ptr) :
  (limbs_ok h a 4 -> limbs_ok h b 4 -> limbs_ok h modulus 4 ->
   disjoint result 4 modulus 4 ->
   eval h a 4 < eval h modulus 4 -> eval h b 4 < eval h modulus 4 ->
   2 * eval h modulus 4 <= R 4 ->
   let h' := neon_montgomery_mul_4limb NEON_AVAILABLE t h a b modulus mu result in
   limbs_ok h' result 4 /\ eval h' result 4 < eval h modulus 4) /\
  (limbs_ok h a 6 -> limbs_ok h b 6 -> limbs_ok h modulus 6 ->
   disjoint result 6 modulus 6 ->
   eval h a 6 < eval h modulus 6 -> eval h b 6 < eval h modulus 6 ->
   2 * eval h modulus 6 <= R 6 ->
   let h' := neon_montgomery_mul_6limb NEON_AVAILABLE t h a b modulus mu result in
   limbs_ok h' result 6 /\ eval h' result 6 < eval h modulus 6).
Proof.
  split; intros Ha Hb Hm Hdis HaM HbM Hbound.
  - apply (montgomery_generic_reduced NEON_AVAILABLE t h a b modulus mu result 4);
      assumption.
  - apply (montgomery_generic_reduced NEON_AVAILABLE t h a b modulus mu result 6);
      assumption.
Qed.

(** The 255-bit modulus of the identity check with [mu = 0]. *)
Lemma montgomery_output_reduced_for_any_mu_witness :
  let m := [0xFFFFFFFF00000001; 0x53BDA402FFFE5BFE;
            0x3339D80809A1D805; 0x73EDA753299D7D48] in
  let x := [0x00000001FFFFFFFE; 0x5884B7FA00034802;
            0x998C4FEFECBC4FF5; 0x1824B159ACC5056F] in
  let h := store (store (store zero_mem 0 x) 4 x) 8 m in
  let h' := neon_montgomery_mul_4limb false zero_mem h 0 4 8 0 12 in
  limbs_ok h' 12 4 /\ eval h' 12 4 < eval h 8 4.
Proof.
  intros m x h.
  apply (proj1 (montgomery_output_reduced_for_any_mu false zero_mem h 0 4 8 0 12));
    try limbs4; try (vm_compute; congruence).
  right. lia.
Defined.

(** ** [neon_montgomery_reduce] on its own *)

(** X7.  [neon_montgomery_reduce] reduces any [2 L]-limb number [T] below
    [modulus * R], a product of two operands or not: for an odd modulus
    below [2^(64 L - 1)] and [mu = -modulus^-1 mod 2^64] it writes
    [T * R^-1 mod modulus] to [result]. *)
Theorem montgomery_reduce_correct (h t : mem) (modulus : ptr) (mu : Z)
    (result : ptr) (L : nat) :
  limbs_ok t 0 (2 * L) -> limbs_ok h modulus L ->
  disjoint result L modulus L ->
  (mu * eval h modulus L + 1) mod 2 ^ 64 = 0 ->
  eval t 0 (2 * L) < eval h modulus L * R L ->
  2 * eval h modulus L <= R L ->
  let h' := neon_montgomery_reduce h t modulus mu result L in
  limbs_ok h' result L /\
  eval h' result L < eval h modulus L /\
  forall Rinv, (R L * Rinv) mod eval h modulus L = 1 mod eval h modulus L ->
    eval h' result L = (eval t 0 (2 * L) * Rinv) mod eval h modulus L.
Proof.
  intros Ht Hm Hdis Hmu HT Hbound. cbv zeta.
  rewrite neon_montgomery_reduce_unfold.
  rewrite R_Wpow in HT, Hbound. rewrite <- W_def in Hmu.
  pose proof (eval_bounds _ _ _ Hm) as Bm. pose proof (Wpow_pos L) as PL.
  pose proof (eval_bounds _ _ _ Ht) as BT.
  set (T := eval t 0 (2 * L)) in *.
  set (M := eval h modulus L) in *. set (RL := W ^ Z.of_nat L) in *.
  assert (Hsq : W ^ Z.of_nat (2 * L) = RL * RL).
  { replace (2 * L)%nat with (L + L)%nat by lia. apply Wpow_add. }
  assert (Hfit : T + RL * M <= W ^ Z.of_nat (2 * L)) by (rewrite Hsq; nia).
  destruct (reduce_loop_spec h modulus mu L
              (fun m i => neon_row_body h m modulus i) Hm Hmu
              (fun m i j t0 c Hm0 => neon_row_body_ok h m modulus i L Hm0 Hm j t0 c)
              t Ht Hfit) as (Hok & Q & HQ & Hval & Hdiv).
  set (t' := reduce_loop _ mu L t) in *. fold T M RL in Hval, HQ, Hdiv.
  assert (Hsplit : eval t' 0 (2 * L) = eval t' 0 L + RL * eval t' L L).
  { replace (2 * L)%nat with (L + L)%nat by lia. apply (eval_split t' 0 L L). }
  assert (Blo : 0 <= eval t' 0 L < RL).
  { apply eval_bounds. eapply limbs_ok_le; [|exact Hok]. lia. }
  assert (Hlo : eval t' 0 L = 0).
  { rewrite Hsplit in Hdiv.
    rewrite (Z.mul_comm RL), Z_mod_plus_full in Hdiv.
    rewrite Z.mod_small in Hdiv by exact Blo. exact Hdiv. }
  assert (Hr : RL * eval t' L L = T + Q * M) by lia.
  assert (Hr2 : eval t' L L < 2 * M) by nia.
  destruct (final_reduction_spec h t' modulus result L Hok Hm Hdis Hr2)
    as (Hrok & Hrange & Hcase & _).
  fold M in Hrange, Hcase.
  set (r := eval t' L L) in *.
  set (v := eval (final_reduction h t' modulus result L) result L) in *.
  split; [exact Hrok|]. split; [lia|].
  intros Rinv HRinv. rewrite R_Wpow in HRinv. fold RL in HRinv.
  destruct (mod_one_witness _ M ltac:(lia) HRinv) as [j Hj].
  assert (Hv : exists K, v * RL = T + K * M).
  { destruct Hcase as [E|E]; rewrite E.
    - exists Q. lia.
    - exists (Q - RL). lia. }
  destruct Hv as [K HK].
  apply Z.mod_unique with (q := v * j - K * Rinv); [lia|].
  assert (H1 : (T + K * M) * Rinv = v * (1 + j * M)).
  { rewrite <- HK, <- Hj. ring. }
  replace (T * Rinv) with ((T + K * M) * Rinv - K * M * Rinv) by ring.
  rewrite H1. ring.
Qed.

(** Taking 5 out of Montgomery form modulo 13, one limb: [T = 5],
    [mu = 0xB13B13B13B13B13B], and [2^64 * 9 = 1 (mod 13)]. *)
Lemma montgomery_reduce_correct_witness :
  let h := store zero_mem 0 [13] in
  let t := store zero_mem 0 [5; 0] in
  let h' := neon_montgomery_reduce h t 0 0xB13B13B13B13B13B 4 1 in
  limbs_ok h' 4 1 /\
  eval h' 4 1 < eval h 0 1 /\
  forall Rinv, (R 1 * Rinv) mod eval h 0 1 = 1 mod eval h 0 1 ->
    eval h' 4 1 = (eval t 0 (2 * 1) * Rinv) mod eval h 0 1.
Proof.
  intros h t.
  apply (montgomery_reduce_correct h t 0 0xB13B13B13B13B13B 4 1).
  - intros i Hi. do 2 (destruct i as [|i]; [vm_compute; split; congruence|]). lia.
  - intros i Hi. destruct i as [|i]; [vm_compute; split; congruence|]. lia.
  - right. lia.
  - vm_compute. reflexivity.
  - vm_compute. reflexivity.
  - vm_compute. congruence.
Defined.

(** ** More on the batch multiplier *)

Lemma batch_loop_frame (L : nat)
    (mul : mem -> ptr -> ptr -> ptr -> Z -> ptr -> mem)
    (h : mem) (a b modulus : ptr) (mu : Z) (results : ptr) (count : nat) (q : ptr) :
  (forall h a b modulus mu result q,
     ~ region result L q -> mul h a b modulus mu result q = h q) ->
  ~ region results (count * L) q ->
  batch_loop mul L h a b modulus mu results count q = h q.
Proof.
  intros mul_frame. unfold batch_loop.
  induction count as [|n IH]; intros Hq; [reflexivity|].
  rewrite for_loop_S. unfold region in Hq.
  rewrite mul_frame by (unfold region; nia).
  apply IH. unfold region. nia.
Qed.

(** X8.  With a supported limb count, [neon_batch_montgomery_mul] writes
    the [count * limb_count] words at [results] and no other word of the
    caller's memory; with [count = 0] it writes nothing.  No
    precondition on the operands. *)
Theorem batch_writes_results_only (NEON_AVAILABLE : bool) (t h : mem)
    (a b modulus : ptr) (mu : Z) (results : ptr) (count : nat) (q : ptr) :
  (~ region results (count * 4) q ->
   neon_batch_montgomery_mul NEON_AVAILABLE t h a b modulus mu results count 4 q
   = h q) /\
  (~ region results (count * 6) q ->
   neon_batch_montgomery_mul NEON_AVAILABLE t h a b modulus mu results count 6 q
   = h q).
Proof.
  split; intros Hq.
  - apply (batch_loop_frame 4
             (fun h a b modulus mu result =>
                montgomery_mul_generic NEON_AVAILABLE t h a b modulus mu result 4));
      [|exact Hq].
    intros. apply montgomery_mul_generic_frame. assumption.
  - apply (batch_loop_frame 6
             (fun h a b modulus mu result =>
                montgomery_mul_generic NEON_AVAILABLE t h a b modulus mu result 6));
      [|exact Hq].
    intros. apply montgomery_mul_generic_frame. assumption.
Qed.

(** The first word after a two-element output array. *)
Lemma batch_writes_results_only_witness :
  let h := store zero_mem 0 [1; 2; 3; 4; 5; 6; 7; 8; 9; 10; 11; 12; 13; 14] in
  neon_batch_montgomery_mul false zero_mem h 0 0 0 5 4 2 4 12%nat = h 12%nat.
Proof.
  intros h.
  apply (proj1 (batch_writes_results_only false zero_mem h 0 0 0 5 4 2 12%nat)).
  unfold region. lia.
Defined.

(** The batch loop when the output array is the first operand array. *)
Lemma batch_loop_in_place (L : nat)
    (mul : mem -> ptr -> ptr -> ptr -> Z -> ptr -> mem)
    (h : mem) (a b modulus : ptr) (mu : Z) (count : nat) :
  (forall h a b modulus mu result q,
     ~ region result L q -> mul h a b modulus mu result q = h q) ->
  (forall h1 h2 a b modulus mu result,
     (forall i, (i < L)%nat -> h1 (a + i)%nat = h2 (a + i)%nat) ->
     (forall i, (i < L)%nat -> h1 (b + i)%nat = h2 (b + i)%nat) ->
     (forall i, (i < L)%nat -> h1 (modulus + i)%nat = h2 (modulus + i)%nat) ->
     forall i, (i < L)%nat ->
       mul h1 a b modulus mu result (result + i)%nat =
       mul h2 a b modulus mu result (result + i)%nat) ->
  disjoint a (count * L) b (count * L) ->
  disjoint a (count * L) modulus L ->
  forall i k, (i < count)%nat -> (k < L)%nat ->
    batch_loop mul L h a b modulus mu a count (a + i * L + k)%nat =
    mul h (a + i * L)%nat (b + i * L)%nat modulus mu (a + i * L)%nat
      (a + i * L + k)%nat.
Proof.
  intros mul_frame mul_ext.
  induction count as [|n IH]; intros Db Dm i k Hi Hk; [lia|].
  assert (Db' : disjoint a (n * L) b (n * L)) by (unfold disjoint in *; nia).
  assert (Dm' : disjoint a (n * L) modulus L) by (unfold disjoint in *; nia).
  pose proof (fun q => batch_loop_frame L mul h a b modulus mu a n q mul_frame)
    as Hfr.
  unfold batch_loop in *. rewrite for_loop_S.
  set (hn := for_loop n _ h) in *.
  destruct (Nat.eq_dec i n) as [->|Hne].
  - apply mul_ext; [| | |exact Hk]; intros j Hj; apply Hfr;
      unfold region, disjoint in *; nia.
  - rewrite mul_frame by (unfold region; nia).
    apply IH; try assumption. lia.
Qed.

(** X9.  The batch multiplier may run in place: when [results] is the
    array [a] itself (and [b] and the modulus lie apart from it), block
    [i] of the output is still what the single-pair multiplier writes for
    the [i]-th pair of the original arrays. *)
Theorem batch_in_place (NEON_AVAILABLE : bool) (t h : mem)
    (a b modulus : ptr) (mu : Z) (count i k : nat) :
  (i < count)%nat ->
  (disjoint a (count * 4) b (count * 4) -> disjoint a (count * 4) modulus 4 ->
   (k < 4)%nat ->
   neon_batch_montgomery_mul NEON_AVAILABLE t h a b modulus mu a count 4
     (a + i * 4 + k)%nat =
   neon_montgomery_mul_4limb NEON_AVAILABLE t h (a + i * 4) (b + i * 4)
     modulus mu (a + i * 4) (a + i * 4 + k)%nat) /\
  (disjoint a (count * 6) b (count * 6) -> disjoint a (count * 6) modulus 6 ->
   (k < 6)%nat ->
   neon_batch_montgomery_mul NEON_AVAILABLE t h a b modulus mu a count 6
     (a + i * 6 + k)%nat =
   neon_montgomery_mul_6limb NEON_AVAILABLE t h (a + i * 6) (b + i * 6)
     modulus mu (a + i * 6) (a + i * 6 + k)%nat).
Proof.
  intros Hi. split; intros Db Dm Hk.
  - apply (batch_loop_in_place 4
             (fun h a b modulus mu result =>
                montgomery_mul_generic NEON_AVAILABLE t h a b modulus mu result 4));
      try assumption.
    + intros. apply montgomery_mul_generic_frame. assumption.
    + intros. apply montgomery_mul_generic_ext; assumption.
  - apply (batch_loop_in_place 6
             (fun h a b modulus mu result =>
                montgomery_mul_generic NEON_AVAILABLE t h a b modulus mu result 6));
      try assumption.
    + intros. apply montgomery_mul_generic_frame. assumption.
    + intros. apply montgomery_mul_generic_ext; assumption.
Qed.

(** Two pairs, [a] at 0, [b] at 8, the modulus at 16. *)
Lemma batch_in_place_witness :
  let h := store zero_mem 0
             [1; 2; 3; 4; 5; 6; 7; 8; 9; 10; 11; 12; 13; 14; 15; 16; 17; 0; 0; 1] in
  neon_batch_montgomery_mul true zero_mem h 0 8 16 3 0 2 4 (0 + 1 * 4 + 2)%nat =
  neon_montgomery_mul_4limb true zero_mem h (0 + 1 * 4) (8 + 1 * 4) 16 3 (0 + 1 * 4)
    (0 + 1 * 4 + 2)%nat.
Proof.
  intros h.
  apply (proj1 (batch_in_place true zero_mem h 0 8 16 3 2 1 2 ltac:(lia)));
    unfold disjoint; lia.
Defined.

(** ** Addition followed by subtraction *)

(** X10.  Subtracting [b] again, in place, from the output of
    [add_with_carry(a, b)] gives back the limbs of [a], and the borrow of
    the subtraction equals the carry of the addition. *)
Theorem add_then_sub_round_trip (L : nat) (h : mem) (a b r : ptr) :
  limbs_ok h a L -> limbs_ok h b L ->
  disjoint r L a L -> disjoint r L b L ->
  let '(h1, carry) := add_with_carry a b r h L in
  let '(h2, borrow) := sub_with_borrow r b r h1 L in
  borrow = carry /\
  forall i, (i < L)%nat -> h2 (r + i)%nat = h (a + i)%nat.
Proof.
  intros Ha Hb Da Db.
  pose proof (add_with_carry_spec h a b r L Ha Hb (or_intror Da) (or_intror Db))
    as Hadd.
  destruct (add_with_carry a b r h L) as [h1 carry].
  destruct Hadd as (Hc & Hsum & Hok1 & Hfr1).
  assert (Hb1 : limbs_ok h1 b L).
  { intros i Hi. rewrite Hfr1 by (unfold region, disjoint in *; lia).
    apply Hb, Hi. }
  assert (Eb : eval h1 b L = eval h b L).
  { apply eval_ext. intros i Hi. apply Hfr1. unfold region, disjoint in *. lia. }
  pose proof (sub_with_borrow_spec h1 r b r L Hok1 Hb1 (or_introl eq_refl)
                (or_intror Db)) as Hsub.
  destruct (sub_with_borrow r b r h1 L) as [h2 borrow].
  destruct Hsub as (Hbw & Hdiff & Hok2 & _).
  pose proof (eval_bounds _ _ _ Ha) as Ba.
  pose proof (eval_bounds _ _ _ Hok2) as B2.
  pose proof (Wpow_pos L) as PL. rewrite Eb in Hdiff.
  assert (E : borrow = carry).
  { destruct (Z.lt_trichotomy borrow carry) as [Hlt|[Heq|Hgt]];
      [exfalso; nia | exact Heq | exfalso; nia]. }
  split; [exact E|]. subst borrow.
  apply eval_inj; try assumption. lia.
Qed.

(** An addition that carries out of the fourth limb. *)
Lemma add_then_sub_round_trip_witness :
  let h := store (store zero_mem 0 [2 ^ 64 - 1; 5; 0; 2 ^ 64 - 1])
                 4 [1; 2 ^ 64 - 1; 2 ^ 64 - 1; 3] in
  let '(h1, carry) := add_with_carry 0 4 8 h 4 in
  let '(h2, borrow) := sub_with_borrow 8 4 8 h1 4 in
  borrow = carry /\
  forall i, (i < 4)%nat -> h2 (8 + i)%nat = h (0 + i)%nat.
Proof.
  intros h. apply (add_then_sub_round_trip 4 h 0 4 8); try limbs4;
    unfold disjoint; lia.
Defined.


(* ================================================================== *)
(** * Part IV: further properties of the [double] kernels              *)
(* ================================================================== *)

(** ** Loops over arrays *)

Section MoreArrayLoops.

Context {T : Type} {ST : Scalar T}.

(** A loop that rewrites the [n] elements from [base] on, each from its
    own old value. *)
Lemma modify_range_spec (f : nat -> T -> T) (base n : nat) (c : list T) :
  (base + n <= length c)%nat ->
  let c' := for_loop n (fun j c => upd c (base + j) (f j (get c (base + j)))) c in
  length c' = length c /\
  (forall j, (j < n)%nat -> get c' (base + j) = f j (get c (base + j))) /\
  (forall p, ~ region base n p -> get c' p = get c p).
Proof.
  intros Hlen. cbv zeta.
  set (body := fun (j : nat) (c : list T) => _).
  assert (Hinv : forall k, (k <= n)%nat ->
    length (for_loop k body c) = length c /\
    (forall j, (j < k)%nat ->
       get (for_loop k body c) (base + j) = f j (get c (base + j))) /\
    (forall p, ~ region base k p -> get (for_loop k body c) p = get c p)).
  { induction k as [|k IH]; intros Hk.
    - rewrite for_loop_0. split; [reflexivity|].
      split; [intros; lia|reflexivity].
    - rewrite for_loop_S. destruct (IH ltac:(lia)) as (Hl & Hin & Hout).
      set (ck := for_loop k body c) in *.
      assert (Eb : body k ck = upd ck (base + k) (f k (get ck (base + k))))
        by reflexivity.
      rewrite Eb. clear Eb. unfold get in *.
      split; [rewrite upd_length; exact Hl|]. split.
      + intros j Hj. destruct (Nat.eq_dec j k) as [->|Hne].
        * rewrite nth_upd_same by lia. f_equal.
          apply Hout. unfold region. lia.
        * rewrite nth_upd_other by lia. apply Hin. lia.
      + intros p Hp. unfold region in Hp. rewrite nth_upd_other by lia.
        apply Hout. unfold region. lia. }
  apply (Hinv n (Nat.le_refl _)).
Qed.

Lemma fill_loop_filled (f : nat -> T) (c : list T) (n : nat) :
  (n <= length c)%nat ->
  filled f n c (for_loop n (fun i c => upd c i (f i)) c).
Proof. intros Hn. apply (fill_loop_spec f c n Hn). Qed.

Lemma filled_ext (f g : nat -> T) (n : nat) (c c' : list T) :
  (forall i, (i < n)%nat -> f i = g i) -> filled f n c c' -> filled g n c c'.
Proof.
  intros E (Hl & Hin & Hout). split; [exact Hl|]. split; [|exact Hout].
  intros i Hi. rewrite Hin by exact Hi. apply E, Hi.
Qed.

Lemma filled_unique (f : nat -> T) (n : nat) (c c1 c2 : list T) :
  filled f n c c1 -> filled f n c c2 -> c1 = c2.
Proof.
  intros (L1 & I1 & O1) (L2 & I2 & O2).
  apply (nth_ext c1 c2 s_zero s_zero); [congruence|].
  intros i _. fold (get c1 i) (get c2 i).
  destruct (Nat.lt_ge_cases i n) as [Hi|Hi].
  - rewrite I1, I2 by exact Hi. reflexivity.
  - rewrite O1, O2 by exact Hi. reflexivity.
Qed.

Lemma butterfly_loop_filled (in_even in_odd twiddle_real out_even out_odd : list T)
    (n : nat) :
  (n <= length out_even)%nat -> (n <= length out_odd)%nat ->
  let '(oe, oo) :=
    butterfly_loop in_even in_odd twiddle_real out_even out_odd n in
  filled (fun i => s_add (get in_even i) (s_mul (get twiddle_real i) (get in_odd i)))
    n out_even oe /\
  filled (fun i => s_sub (get in_even i) (s_mul (get twiddle_real i) (get in_odd i)))
    n out_odd oo.
Proof.
  intros He Ho. unfold butterfly_loop.
  set (body := fun (i : nat) '(oe, oo) => _).
  set (fe := fun i => s_add (get in_even i) (s_mul (get twiddle_real i) (get in_odd i))).
  set (fo := fun i => s_sub (get in_even i) (s_mul (get twiddle_real i) (get in_odd i))).
  assert (Hinv : forall k, (k <= n)%nat ->
    let '(oe, oo) := for_loop k body (out_even, out_odd) in
    filled fe k out_even oe /\ filled fo k out_odd oo).
  { induction k as [|k IH]; intros Hk.
    - rewrite for_loop_0. unfold filled.
      repeat split; try reflexivity; intros; lia.
    - rewrite for_loop_S. specialize (IH ltac:(lia)).
      destruct (for_loop k body (out_even, out_odd)) as [oe oo].
      destruct IH as ((Le & Ie & Oe) & (Lo & Io & Oo)).
      assert (Eb : body k (oe, oo) = (upd oe k (fe k), upd oo k (fo k)))
        by reflexivity.
      rewrite Eb. clear Eb. unfold filled, get in *.
      split; (split; [rewrite upd_length; assumption|]); split.
      + intros i Hi. destruct (Nat.eq_dec i k) as [->|Hne].
        * apply nth_upd_same. lia.
        * rewrite nth_upd_other by lia. apply Ie. lia.
      + intros i Hi. rewrite nth_upd_other by lia. apply Oe. lia.
      + intros i Hi. destruct (Nat.eq_dec i k) as [->|Hne].
        * apply nth_upd_same. lia.
        * rewrite nth_upd_other by lia. apply Io. lia.
      + intros i Hi. rewrite nth_upd_other by lia. apply Oo. lia. }
  apply (Hinv n (Nat.le_refl n)).
Qed.

(** A loop nest that rewrites the entries of an [m x n] row-major matrix,
    each from its own old value. *)
Lemma grid_loop_spec (g : nat -> nat -> T -> T) (m n : nat) (c : list T) :
  (m * n <= length c)%nat ->
  let c' :=
    for_loop m
      (fun i c =>
         for_loop n (fun j c => upd c (i * n + j) (g i j (get c (i * n + j)))) c)
      c in
  length c' = length c /\
  (forall i j, (i < m)%nat -> (j < n)%nat ->
     get c' (i * n + j) = g i j (get c (i * n + j))) /\
  (forall p, (m * n <= p)%nat -> get c' p = get c p).
Proof.
  intros Hlen. cbv zeta.
  set (row := fun (i : nat) (c : list T) => _).
  assert (Hinv : forall k, (k <= m)%nat ->
    length (for_loop k row c) = length c /\
    (forall i j, (i < k)%nat -> (j < n)%nat ->
       get (for_loop k row c) (i * n + j) = g i j (get c (i * n + j))) /\
    (forall p, (k * n <= p)%nat -> get (for_loop k row c) p = get c p)).
  { induction k as [|k IH]; intros Hk.
    - rewrite for_loop_0. split; [reflexivity|].
      split; [intros; lia|reflexivity].
    - rewrite for_loop_S. destruct (IH ltac:(lia)) as (Hl & Hin & Hout).
      set (ck := for_loop k row c) in *.
      destruct (modify_range_spec (g k) (k * n) n ck ltac:(nia))
        as (Hl' & Hin' & Hout').
      assert (Er : row k ck =
                   for_loop n
                     (fun j c => upd c (k * n + j) (g k j (get c (k * n + j)))) ck)
        by reflexivity.
      rewrite Er. clear Er.
      split; [rewrite Hl'; exact Hl|]. split.
      + intros i j Hi Hj. destruct (Nat.eq_dec i k) as [->|Hne].
        * rewrite Hin' by exact Hj. f_equal. apply Hout. lia.
        * rewrite Hout' by (unfold region; nia). apply Hin; lia.
      + intros p Hp. rewrite Hout' by (unfold region; nia). apply Hout. nia. }
  apply (Hinv m (Nat.le_refl _)).
Qed.

End MoreArrayLoops.

(** ** The vector wrappers *)

Lemma vdsp_vector_add_filled {T : Type} {ST : Scalar T}
    (apple : bool) (a b out : list T) (n : nat) :
  (n <= length out)%nat ->
  filled (fun i => s_add (get a i) (get b i)) n out
    (vdsp_vector_add_f64 apple a b out n).
Proof.
  intros Hn. unfold vdsp_vector_add_f64, vDSP_vaddD.
  destruct apple; apply fill_loop_filled; exact Hn.
Qed.

Lemma vdsp_vector_mul_filled {T : Type} {ST : Scalar T}
    (apple : bool) (a b out : list T) (n : nat) :
  (n <= length out)%nat ->
  filled (fun i => s_mul (get a i) (get b i)) n out
    (vdsp_vector_mul_f64 apple a b out n).
Proof.
  intros Hn. unfold vdsp_vector_mul_f64, vDSP_vmulD.
  destruct apple; apply fill_loop_filled; exact Hn.
Qed.

Lemma vdsp_vector_sub_filled {T : Type} {ST : Scalar T}
    (apple : bool) (a b out : list T) (n : nat) :
  (n <= length out)%nat ->
  filled (fun i => s_sub (get a i) (get b i)) n out
    (vdsp_vector_sub_f64 apple a b out n).
Proof.
  intros Hn. unfold vdsp_vector_sub_f64, vDSP_vsubD.
  destruct apple; apply fill_loop_filled; exact Hn.
Qed.

(** X11.  Each of the five vector wrappers of vdsp_ops.cc, on the vDSP
    build and on the loop build alike, stores its element-wise result in
    the first [n] elements of the output array and leaves the elements
    from [n] on, and the length, as they were;
    [vdsp_vector_sub_f64(a, b)] is [a - b] on both builds. *)
Theorem vdsp_vector_ops_elementwise {T : Type} {ST : Scalar T}
    (apple : bool) (a b c out : list T) (scalar : T) (n : nat) :
  (n <= length out)%nat ->
  filled (fun i => s_add (get a i) (get b i)) n out
    (vdsp_vector_add_f64 apple a b out n) /\
  filled (fun i => s_mul (get a i) (get b i)) n out
    (vdsp_vector_mul_f64 apple a b out n) /\
  filled (fun i => s_sub (get a i) (get b i)) n out
    (vdsp_vector_sub_f64 apple a b out n) /\
  filled (fun i => s_mul (get a i) scalar) n out
    (vdsp_vector_scale_f64 apple a scalar out n) /\
  filled (fun i => s_add (s_mul (get a i) (get b i)) (get c i)) n out
    (vdsp_vector_muladd_f64 apple a b c out n).
Proof.
  intros Hn.
  split; [apply vdsp_vector_add_filled, Hn|].
  split; [apply vdsp_vector_mul_filled, Hn|].
  split; [apply vdsp_vector_sub_filled, Hn|].
  unfold vdsp_vector_scale_f64, vdsp_vector_muladd_f64, vDSP_vsmulD, vDSP_vmaD.
  split; destruct apple; apply fill_loop_filled; exact Hn.
Qed.

(** Three elements of a five-element output, binary64. *)
Lemma vdsp_vector_ops_elementwise_witness :
  let a := [1; 2; 3]%float in
  let b := [0.5; 0.25; 4]%float in
  let c := [7; 8; 9]%float in
  let out := [11; 12; 13; 14; 15]%float in
  filled (fun i => s_add (get a i) (get b i)) 3 out
    (vdsp_vector_add_f64 true a b out 3) /\
  filled (fun i => s_mul (get a i) (get b i)) 3 out
    (vdsp_vector_mul_f64 true a b out 3) /\
  filled (fun i => s_sub (get a i) (get b i)) 3 out
    (vdsp_vector_sub_f64 true a b out 3) /\
  filled (fun i => s_mul (get a i) 2%float) 3 out
    (vdsp_vector_scale_f64 true a 2%float out 3) /\
  filled (fun i => s_add (s_mul (get a i) (get b i)) (get c i)) 3 out
    (vdsp_vector_muladd_f64 true a b c out 3).
Proof.
  intros a b c out.
  apply (vdsp_vector_ops_elementwise true a b c out 2%float 3).
  simpl. lia.
Defined.

(** ** The butterfly as a composition *)

(** X12.  On each of its paths, [vdsp_ntt_butterfly_f64] returns exactly
    the arrays that [vdsp_vector_mul_f64] followed by
    [vdsp_vector_add_f64] and [vdsp_vector_sub_f64] return (on either
    build, with any scratch array for the product): the same first [n]
    elements, and the elements of [out_even] and [out_odd] from [n] on
    untouched. *)
Theorem butterfly_is_composition {T : Type} {ST : Scalar T}
    (apple apple' : bool) (temp : option (list T)) (scratch : list T)
    (in_even in_odd twiddle_real twiddle_imag out_even out_odd : list T)
    (n : nat) :
  (n <= length out_even)%nat -> (n <= length out_odd)%nat ->
  (forall buf, temp = Some buf -> (n <= length buf)%nat) ->
  (n <= length scratch)%nat ->
  vdsp_ntt_butterfly_f64 apple temp in_even in_odd twiddle_real twiddle_imag
    out_even out_odd n =
  (let t := vdsp_vector_mul_f64 apple' twiddle_real in_odd scratch n in
   (vdsp_vector_add_f64 apple' in_even t out_even n,
    vdsp_vector_sub_f64 apple' in_even t out_odd n)).
Proof.
  intros He Ho Hbuf Hs. cbv zeta.
  set (fe := fun i => s_add (get in_even i) (s_mul (get twiddle_real i) (get in_odd i))).
  set (fo := fun i => s_sub (get in_even i) (s_mul (get twiddle_real i) (get in_odd i))).
  assert (Hcomp : forall ap buf, (n <= length buf)%nat ->
    filled fe n out_even
      (vdsp_vector_add_f64 ap in_even
         (vdsp_vector_mul_f64 ap twiddle_real in_odd buf n) out_even n) /\
    filled fo n out_odd
      (vdsp_vector_sub_f64 ap in_even
         (vdsp_vector_mul_f64 ap twiddle_real in_odd buf n) out_odd n)).
  { intros ap buf Hb.
    destruct (vdsp_vector_mul_filled ap twiddle_real in_odd buf n Hb)
      as (_ & Hprod & _).
    split.
    - eapply filled_ext; [|apply vdsp_vector_add_filled, He].
      intros i Hi. unfold fe. cbv beta. rewrite Hprod by exact Hi. reflexivity.
    - eapply filled_ext; [|apply vdsp_vector_sub_filled, Ho].
      intros i Hi. unfold fo. cbv beta. rewrite Hprod by exact Hi. reflexivity. }
  destruct (Hcomp apple' scratch Hs) as [Ce Co].
  assert (Hb : let '(oe, oo) :=
                 vdsp_ntt_butterfly_f64 apple temp in_even in_odd twiddle_real
                   twiddle_imag out_even out_odd n in
               filled fe n out_even oe /\ filled fo n out_odd oo).
  { unfold vdsp_ntt_butterfly_f64.
    destruct apple; [destruct temp as [buf|]|];
      try (apply butterfly_loop_filled; assumption).
    exact (Hcomp true buf (Hbuf buf eq_refl)). }
  destruct (vdsp_ntt_butterfly_f64 _ _ _ _ _ _ _ _ _) as [oe oo].
  destruct Hb as [Be Bo]. f_equal.
  - apply (filled_unique fe n out_even); assumption.
  - apply (filled_unique fo n out_odd); assumption.
Qed.

(** The scalar loop of the Apple build after a failed [malloc], against
    the loop build of the three wrappers; binary64. *)
Lemma butterfly_is_composition_witness :
  let in_even := [1; 2; 3]%float in
  let in_odd := [4; 5; 6]%float in
  let tw := [0.5; 0.25; 3]%float in
  let oe := [9; 9; 9; 9]%float in
  let oo := [8; 8; 8]%float in
  vdsp_ntt_butterfly_f64 true None in_even in_odd tw [] oe oo 2 =
  (let t := vdsp_vector_mul_f64 false tw in_odd [0; 0]%float 2 in
   (vdsp_vector_add_f64 false in_even t oe 2,
    vdsp_vector_sub_f64 false in_even t oo 2)).
Proof.
  intros in_even in_odd tw oe oo.
  apply (butterfly_is_composition true false None [0; 0]%float
           in_even in_odd tw [] oe oo 2).
  - simpl. lia.
  - simpl. lia.
  - intros buf E. discriminate E.
  - simpl. lia.
Defined.

(** ** The matrix kernels *)

Lemma blas_matrix_mul_spec {T : Type} {ST : Scalar T}
    (a b c : list T) (m n k : nat) (alpha beta : T) :
  (m * n <= length c)%nat ->
  let c' := blas_matrix_mul_f64 a b c (Z.of_nat m) (Z.of_nat n) (Z.of_nat k)
              alpha beta in
  length c' = length c /\
  (forall i j, (i < m)%nat -> (j < n)%nat ->
     get c' (i * n + j) =
     s_add (s_mul (get c (i * n + j)) beta) (s_mul alpha (dot a b n k i j))) /\
  (forall p, (m * n <= p)%nat -> get c' p = get c p).
Proof.
  intros Hlen. cbv zeta. unfold blas_matrix_mul_f64.
  rewrite <- Nat2Z.inj_mul, !Nat2Z.id.
  destruct (modify_range_spec (fun _ x => s_mul x beta) 0 (m * n) c Hlen)
    as (L1 & I1 & O1).
  change (for_loop (m * n)
            (fun j c0 => upd c0 (0 + j) (s_mul (get c0 (0 + j)) beta)) c)
    with (for_loop (m * n) (fun i c0 => upd c0 i (s_mul (get c0 i) beta)) c)
    in L1, I1, O1.
  set (c1 := for_loop (m * n) _ c) in *.
  destruct (grid_loop_spec (fun i j x => s_add x (s_mul alpha (dot a b n k i j)))
              m n c1 ltac:(lia)) as (L2 & I2 & O2).
  split; [exact (eq_trans L2 L1)|]. split.
  - intros i j Hi Hj. etransitivity; [exact (I2 i j Hi Hj)|]. cbv beta.
    pose proof (I1 (i * n + j)%nat ltac:(nia)) as E. cbn [Nat.add] in E.
    rewrite E. reflexivity.
  - intros p Hp. etransitivity; [exact (O2 p Hp)|].
    apply O1. unfold region. lia.
Qed.

(** X13.  For an [m x k] matrix [a], a [k x n] matrix [b] and an output
    buffer of at least [m * n] elements, the loop build of
    [blas_matrix_mul_f64] leaves in entry [(i, j)] the value
    [c[i][j] * beta + alpha * dot(i, j)], the dot product being
    accumulated from 0 in the order of [p], and touches neither the
    length of [c] nor its elements from [m * n] on. *)
Theorem blas_matrix_mul_entries {T : Type} {ST : Scalar T}
    (a b c : list T) (m n k : nat) (alpha beta : T) :
  (m * n <= length c)%nat ->
  let c' := blas_matrix_mul_f64 a b c (Z.of_nat m) (Z.of_nat n) (Z.of_nat k)
              alpha beta in
  length c' = length c /\
  (forall i j, (i < m)%nat -> (j < n)%nat ->
     get c' (i * n + j) =
     s_add (s_mul (get c (i * n + j)) beta) (s_mul alpha (dot a b n k i j))) /\
  (forall p, (m * n <= p)%nat -> get c' p = get c p).
Proof. apply blas_matrix_mul_spec. Qed.

(** A 2 x 2 product in binary64, in a buffer with a fifth element. *)
Lemma blas_matrix_mul_entries_witness :
  let a := [1; 2; 3; 4]%float in
  let b := [5; 6; 7; 8]%float in
  let c := [1; 1; 1; 1; 42]%float in
  let c' := blas_matrix_mul_f64 a b c 2 2 2 2%float 0.5%float in
  length c' = length c /\
  (forall i j, (i < 2)%nat -> (j < 2)%nat ->
     get c' (i * 2 + j) =
     s_add (s_mul (get c (i * 2 + j)) 0.5%float)
           (s_mul 2%float (dot a b 2 2 i j))) /\
  (forall p, (2 * 2 <= p)%nat -> get c' p = get c p).
Proof.
  intros a b c.
  apply (blas_matrix_mul_entries a b c 2 2 2 2%float 0.5%float).
  simpl. lia.
Defined.

(** X14.  For an [m x n] matrix [a] and a vector [y] of at least [m]
    elements, the loop build of [blas_matrix_vector_mul_f64] leaves
    [alpha * row_dot(i) + beta * y[i]] in [y[i]] for [i < m] and leaves
    the rest of [y] alone. *)
Theorem blas_matrix_vector_mul_entries {T : Type} {ST : Scalar T}
    (a x y : list T) (m n : nat) (alpha beta : T) :
  (m <= length y)%nat ->
  filled (fun i => s_add (s_mul alpha (row_dot a x n i)) (s_mul beta (get y i)))
    m y
    (blas_matrix_vector_mul_f64 a x y (Z.of_nat m) (Z.of_nat n) alpha beta).
Proof.
  intros Hlen. unfold blas_matrix_vector_mul_f64. rewrite !Nat2Z.id.
  destruct (modify_range_spec
              (fun i yi => s_add (s_mul alpha (row_dot a x n i)) (s_mul beta yi))
              0 m y Hlen) as (L1 & I1 & O1).
  split; [exact L1|]. split.
  - intros i Hi. apply (I1 i Hi).
  - intros i Hi. apply O1. unfold region. lia.
Qed.

Lemma blas_matrix_vector_mul_entries_witness :
  let a := [1; 2; 3; 4; 5; 6]%float in
  let x := [1; 0.5; 2]%float in
  let y := [10; 20; 30]%float in
  filled (fun i => s_add (s_mul 2%float (row_dot a x 3 i))
                         (s_mul 3%float (get y i)))
    2 y (blas_matrix_vector_mul_f64 a x y 2 3 2%float 3%float).
Proof.
  intros a x y.
  apply (blas_matrix_vector_mul_entries a x y 2 3 2%float 3%float).
  simpl. lia.
Defined.

Lemma sme_matrix_accumulate_entries {T : Type} {ST : Scalar T}
    (a b c : list T) (m n k : nat) :
  (m * n <= length c)%nat ->
  let c' := fst (sme_matrix_accumulate a b c (Z.of_nat m) (Z.of_nat n)
                   (Z.of_nat k)) in
  length c' = length c /\
  (forall i j, (i < m)%nat -> (j < n)%nat ->
     get c' (i * n + j) = s_add (get c (i * n + j)) (dot a b n k i j)) /\
  (forall p, (m * n <= p)%nat -> get c' p = get c p).
Proof.
  intros Hlen. cbv zeta. unfold sme_matrix_accumulate. cbn [fst].
  rewrite !Nat2Z.id.
  apply (grid_loop_spec (fun i j x => s_add x (dot a b n k i j)) m n c Hlen).
Qed.

(** With [alpha = beta = 1] the scalings of [blas_matrix_mul_f64] change
    nothing: a double times 1.0 is that double. *)
Lemma accumulate_is_gemm_1_1 (a b c : list float) (m n k : nat) :
  (m * n <= length c)%nat ->
  fst (sme_matrix_accumulate a b c (Z.of_nat m) (Z.of_nat n) (Z.of_nat k)) =
  blas_matrix_mul_f64 a b c (Z.of_nat m) (Z.of_nat n) (Z.of_nat k)
    1%float 1%float.
Proof.
  intros Hlen.
  destruct (sme_matrix_accumulate_entries a b c m n k Hlen) as (L1 & I1 & O1).
  destruct (blas_matrix_mul_spec a b c m n k 1%float 1%float Hlen)
    as (L2 & I2 & O2).
  cbv zeta in L1, I1, O1, L2, I2, O2.
  apply (nth_ext _ _ s_zero s_zero); [congruence|].
  intros p _.
  match goal with |- nth p ?x _ = nth p ?y _ => fold (get x p) (get y p) end.
  destruct (Nat.lt_ge_cases p (m * n)) as [Hp|Hp].
  - destruct n as [|n']; [lia|].
    assert (Ep : p = (p / S n' * S n' + p mod S n')%nat).
    { pose proof (Nat.div_mod_eq p (S n')). lia. }
    assert (Hj : (p mod S n' < S n')%nat) by (apply Nat.mod_upper_bound; lia).
    assert (Hi : (p / S n' < m)%nat).
    { apply Nat.Div0.div_lt_upper_bound. lia. }
    rewrite Ep. rewrite I1, I2 by assumption.
    cbn [s_add s_mul binary64]. rewrite mul_one_r, mul_one_l. reflexivity.
  - rewrite O1, O2 by exact Hp. reflexivity.
Qed.

Lemma is_zero_SF (x : float) :
  is_zero x = true <-> exists s, Prim2SF x = S754_zero s.
Proof.
  unfold is_zero. rewrite FloatAxioms.eqb_spec.
  change (Prim2SF zero) with (S754_zero false). split.
  - apply SFeqb_zero.
  - intros [s ->]. reflexivity.
Qed.

(** A finite double times 0.0 is a zero; a NaN or an infinity is not
    cleared. *)
Lemma finite_mul_zero (x : float) :
  is_finite x = true -> is_zero (x * 0) = true.
Proof.
  unfold is_finite, is_nan, is_infinity.
  rewrite !FloatAxioms.eqb_spec, FloatAxioms.abs_spec.
  change (Prim2SF infinity) with (S754_infinity false).
  intros H. apply is_zero_SF. rewrite FloatAxioms.mul_spec.
  change (Prim2SF 0) with (S754_zero false).
  destruct (Prim2SF x) as [s|s| |s m e].
  - exists (xorb s false). reflexivity.
  - destruct s; discriminate H.
  - discriminate H.
  - exists (xorb s false). reflexivity.
Qed.

Lemma zero_add_same (z y : float) :
  is_zero z = true -> same_double (z + y) y.
Proof.
  intros Hz. apply is_zero_SF in Hz. destruct Hz as [s Hz].
  destruct (Prim2SF y) as [sy|sy| |sy my ey] eqn:Ey.
  - right. split; apply is_zero_SF.
    + rewrite FloatAxioms.add_spec, Hz, Ey.
      destruct s, sy; eexists; reflexivity.
    + exists sy. exact Ey.
  - left. apply Prim2SF_inj. rewrite FloatAxioms.add_spec, Hz, Ey. reflexivity.
  - left. apply Prim2SF_inj. rewrite FloatAxioms.add_spec, Hz, Ey. reflexivity.
  - left. apply Prim2SF_inj. rewrite FloatAxioms.add_spec, Hz, Ey. reflexivity.
Qed.

(** X15.  In [double] arithmetic and for all inputs, NaNs and infinities
    included, the loop build of [sme_matrix_accumulate] returns exactly
    the array that [blas_matrix_mul_f64] returns with
    [alpha = beta = 1.0], and reports that SME was not used: the two
    multiplications by 1.0 of the latter never change a double. *)
Theorem sme_matrix_accumulate_is_gemm (a b c : list float) (m n k : nat) :
  (m * n <= length c)%nat ->
  sme_matrix_accumulate a b c (Z.of_nat m) (Z.of_nat n) (Z.of_nat k) =
  (blas_matrix_mul_f64 a b c (Z.of_nat m) (Z.of_nat n) (Z.of_nat k)
     1%float 1%float,
   false).
Proof.
  intros Hlen.
  rewrite <- (accumulate_is_gemm_1_1 a b c m n k Hlen). reflexivity.
Qed.

(** The doubles nearest 0.1, 0.3 and 0.7, an infinity in [a], a NaN
    beyond the matrix in [c]. *)
Lemma sme_matrix_accumulate_is_gemm_witness :
  sme_matrix_accumulate [0x1.999999999999ap-4; 2; infinity; 4]%float [5; 0x1.3333333333333p-2; 7; 8]%float
    [1; 0x1.6666666666666p-1; 1; 1; nan]%float 2 2 2 =
  (blas_matrix_mul_f64 [0x1.999999999999ap-4; 2; infinity; 4]%float [5; 0x1.3333333333333p-2; 7; 8]%float
     [1; 0x1.6666666666666p-1; 1; 1; nan]%float 2 2 2 1%float 1%float,
   false).
Proof.
  apply (sme_matrix_accumulate_is_gemm [0x1.999999999999ap-4; 2; infinity; 4]%float
           [5; 0x1.3333333333333p-2; 7; 8]%float [1; 0x1.6666666666666p-1; 1; 1; nan]%float 2 2 2).
  simpl. lia.
Defined.

(** X16.  Called as the addon calls it, with [alpha = 1.0] and
    [beta = 0.0], over an output buffer whose first [m * n] elements are
    finite doubles, [blas_matrix_mul_f64] computes the plain product in
    [double] arithmetic: entry [(i, j)] is the dot product of row [i] of
    [a] and column [j] of [b] as the loop accumulates it, NaN and
    infinite dot products included; only the sign of a zero may
    differ. *)
Theorem blas_matrix_mul_plain_product (a b c : list float) (m n k : nat) :
  (m * n <= length c)%nat ->
  (forall p, (p < m * n)%nat -> is_finite (get c p) = true) ->
  forall i j, (i < m)%nat -> (j < n)%nat ->
    same_double
      (get (blas_matrix_mul_f64 a b c (Z.of_nat m) (Z.of_nat n) (Z.of_nat k)
              1%float 0%float) (i * n + j))
      (dot a b n k i j).
Proof.
  intros Hlen Hfin i j Hi Hj.
  destruct (blas_matrix_mul_spec a b c m n k 1%float 0%float Hlen)
    as (_ & I2 & _).
  cbv zeta in I2. rewrite I2 by assumption.
  cbn [s_add s_mul binary64]. rewrite mul_one_l.
  apply zero_add_same, finite_mul_zero, Hfin. nia.
Qed.

Lemma blas_matrix_mul_plain_product_witness :
  same_double
    (get (blas_matrix_mul_f64 [1; 2; 3; 4]%float [0.5; 6; 7; 8]%float
            [9; -9; 0x1.999999999999ap-4; 9]%float 2 2 2 1%float 0%float) (1 * 2 + 0))
    (dot [1; 2; 3; 4]%float [0.5; 6; 7; 8]%float 2 2 1 0).
Proof.
  apply (blas_matrix_mul_plain_product [1; 2; 3; 4]%float [0.5; 6; 7; 8]%float
           [9; -9; 0x1.999999999999ap-4; 9]%float 2 2 2).
  - simpl. lia.
  - intros p Hp. do 4 (destruct p as [|p]; [vm_compute; reflexivity|]).
    simpl in Hp. lia.
  - lia.
  - lia.
Defined.

(** ** The cached SME probe *)

Lemma sme_available_calls_checked (probes : list bool) (st : sme_flags) :
  g_sme_checked st = true ->
  sme_available_calls probes st =
  (repeat (g_sme_available st) (length probes), st).
Proof.
  intros Hc. induction probes as [|p ps IH]; [reflexivity|].
  simpl. unfold sme_available at 1. rewrite Hc, IH. reflexivity.
Qed.

(** X17.  [sme_available] asks the hardware once: in any run of calls
    from program start, every call returns the answer that the probe gave
    at the first call, whatever the probe would answer later, and the
    flags end up holding that answer. *)
Theorem sme_available_cached (p : bool) (probes : list bool) :
  sme_available_calls (p :: probes) sme_flags_init =
  (repeat p (S (length probes)),
   {| g_sme_checked := true; g_sme_available := p |}).
Proof.
  change (sme_available_calls (p :: probes) sme_flags_init)
    with (let '(rs, st) :=
            sme_available_calls probes
              {| g_sme_checked := true; g_sme_available := p |} in
          (p :: rs, st)).
  rewrite sme_available_calls_checked by reflexivity. reflexivity.
Qed.

(** ** [sme_bucket_outer_product] slot by slot *)

Lemma sme_bucket_outer_product_spec {T : Type} {ST : Scalar T}
    (scalars : list Z) (points buckets : list T)
    (num_scalars num_buckets : nat) (w : Z) :
  0 <= w < 64 ->
  length buckets = num_buckets ->
  let out := fst (sme_bucket_outer_product scalars points buckets
                    num_scalars num_buckets w) in
  length out = num_buckets /\
  forall s, (s < num_buckets)%nat ->
    get out s =
    for_loop num_scalars
      (fun i x =>
         if digit w (nth i scalars 0) =? Z.of_nat s + 1
         then s_add x (get points i) else x)
      (get buckets s).
Proof.
  intros Hw Hlen. cbv zeta. unfold sme_bucket_outer_product. cbn [fst].
  rewrite bucket_mask_ones by exact Hw.
  set (body := fun (i : nat) (buckets : list T) => _).
  induction num_scalars as [|k IH].
  - rewrite for_loop_0. split; [exact Hlen|reflexivity].
  - rewrite for_loop_S. destruct IH as [Hl Hval].
    set (bk := for_loop k body buckets) in *.
    assert (Eb : body k bk =
      let d := digit w (nth k scalars 0) in
      if (d >? 0) && (d <=? Z.of_nat num_buckets) then
        upd bk (Z.to_nat (d - 1)) (s_add (get bk (Z.to_nat (d - 1))) (get points k))
      else bk) by reflexivity.
    rewrite Eb. clear Eb. cbv zeta.
    pose proof (digit_range w (nth k scalars 0) ltac:(lia)) as Hd.
    set (d := digit w (nth k scalars 0)) in *.
    destruct (Z.gtb_spec d 0) as [Hpos|Hzero];
      [destruct (Z.leb_spec d (Z.of_nat num_buckets)) as [Hle|Hbig]|]; cbn [andb].
    + split; [rewrite upd_length; exact Hl|]. intros s Hs.
      rewrite for_loop_S. fold d. unfold get at 1.
      destruct (Z.eqb_spec d (Z.of_nat s + 1)) as [E|Hne].
      * replace (Z.to_nat (d - 1)) with s by lia.
        rewrite nth_upd_same by lia. rewrite <- (Hval s Hs). reflexivity.
      * rewrite nth_upd_other by lia. apply (Hval s Hs).
    + split; [exact Hl|]. intros s Hs. rewrite for_loop_S. fold d.
      destruct (Z.eqb_spec d (Z.of_nat s + 1)) as [E|_]; [lia|]. apply (Hval s Hs).
    + split; [exact Hl|]. intros s Hs. rewrite for_loop_S. fold d.
      destruct (Z.eqb_spec d (Z.of_nat s + 1)) as [E|_]; [lia|]. apply (Hval s Hs).
Qed.

(** X18.  For a window size [0 <= w < 64] and a bucket array of
    [num_buckets] slots, [sme_bucket_outer_product] (loop build) leaves
    in slot [s] its prior value plus, in point order, exactly the points
    whose digit is [s + 1]: digit 0 and every digit above [num_buckets]
    are skipped, no slot is written out of range, and the function
    reports that SME was not used. *)
Theorem sme_bucket_slots {T : Type} {ST : Scalar T}
    (scalars : list Z) (points buckets : list T)
    (num_scalars num_buckets : nat) (w : Z) :
  0 <= w < 64 ->
  length buckets = num_buckets ->
  let '(out, used_sme) := sme_bucket_outer_product scalars points buckets
                            num_scalars num_buckets w in
  used_sme = false /\
  length out = num_buckets /\
  forall s, (s < num_buckets)%nat ->
    get out s =
    for_loop num_scalars
      (fun i x =>
         if digit w (nth i scalars 0) =? Z.of_nat s + 1
         then s_add x (get points i) else x)
      (get buckets s).
Proof.
  intros Hw Hlen.
  pose proof (sme_bucket_outer_product_spec scalars points buckets num_scalars
                num_buckets w Hw Hlen) as H.
  unfold sme_bucket_outer_product in *. cbn [fst] in H.
  split; [reflexivity|exact H].
Qed.

(** Window size 3 with only five buckets: the digits 6 and 7 are
    skipped. *)
Lemma sme_bucket_slots_witness :
  let scalars := [6; 1; 15; 0; 13; 9] in
  let points := [1; 2; 4; 8; 16; 32]%float in
  let buckets := [0; 0; 0; 0; 0]%float in
  let '(out, used_sme) := sme_bucket_outer_product scalars points buckets 6 5 3 in
  used_sme = false /\
  length out = 5%nat /\
  forall s, (s < 5)%nat ->
    get out s =
    for_loop 6
      (fun i x =>
         if digit 3 (nth i scalars 0) =? Z.of_nat s + 1
         then s_add x (get points i) else x)
      (get buckets s).
Proof.
  intros scalars points buckets.
  apply (sme_bucket_slots scalars points buckets 6 5 3).
  - split; [discriminate|reflexivity].
  - reflexivity.
Defined.

(** ** The two bucket kernels against each other *)

(** X19.  [sme_bucket_outer_product] is [blas_bucket_accumulate] behind a
    change of index: given for each scalar the slot [digit - 1] (and an
    out-of-range index for the digits that are skipped), with
    [coord_size = 1], the direct scatter-add returns the same array, bit
    for bit, in any element arithmetic. *)
Theorem sme_is_blas_on_digit_indices {T : Type} {ST : Scalar T}
    (scalars : list Z) (points buckets : list T)
    (num_scalars num_buckets : nat) (w : Z) :
  0 <= w < 64 ->
  (num_scalars <= length scalars)%nat ->
  fst (sme_bucket_outer_product scalars points buckets num_scalars num_buckets w) =
  blas_bucket_accumulate (map (index_of_digit w num_buckets) scalars) points
    buckets num_scalars num_buckets 1.
Proof.
  intros Hw Hn. unfold sme_bucket_outer_product, blas_bucket_accumulate.
  cbn [fst]. rewrite bucket_mask_ones by exact Hw.
  apply for_loop_ext. intros i acc Hi.
  rewrite (nth_indep _ O (index_of_digit w num_buckets 0))
    by (rewrite length_map; lia).
  rewrite map_nth. unfold index_of_digit.
  set (d := Z.land (nth i scalars 0) (2 ^ w - 1)).
  destruct ((d >? 0) && (d <=? Z.of_nat num_buckets)) eqn:E.
  - apply andb_prop in E. destruct E as [E1 E2].
    apply Z.gtb_lt in E1. apply Z.leb_le in E2.
    replace (Z.to_nat (d - 1) <? num_buckets)%nat with true
      by (symmetry; apply Nat.ltb_lt; lia).
    rewrite for_loop_S, for_loop_0.
    rewrite !Nat.mul_1_r, !Nat.add_0_r. reflexivity.
  - rewrite Nat.ltb_irrefl. reflexivity.
Qed.

(** The scenario of the specification, in binary64. *)
Lemma sme_is_blas_on_digit_indices_witness :
  fst (sme_bucket_outer_product [1; 0; 2; 3; 1] [10; 20; 30; 40; 50]%float
         [0; 0; 0]%float 5 3 2) =
  blas_bucket_accumulate (map (index_of_digit 2 3) [1; 0; 2; 3; 1])
    [10; 20; 30; 40; 50]%float [0; 0; 0]%float 5 3 1.
Proof.
  apply (sme_is_blas_on_digit_indices [1; 0; 2; 3; 1] [10; 20; 30; 40; 50]%float
           [0; 0; 0]%float 5 3 2).
  - split; [discriminate|reflexivity].
  - simpl. lia.
Defined.

(** ** Matrix dimensions that are not positive *)

Lemma for_loop_id {S : Type} (n : nat) (s : S) :
  for_loop n (fun _ s => s) s = s.
Proof. induction n as [|n IH]; [reflexivity|]. rewrite for_loop_S. exact IH. Qed.

(** X20.  When [m] or [n] is not positive, the multiplication loops of
    [blas_matrix_mul_f64] (loop build) do not run and [a] and [b] are
    never read: the result is [c] with its first [m * n] elements
    multiplied by [beta], which is [c] itself unless both [m] and [n] are
    negative. *)
Theorem blas_matrix_mul_no_rows {T : Type} {ST : Scalar T}
    (a b c : list T) (m n k : Z) (alpha beta : T) :
  m <= 0 \/ n <= 0 ->
  (Z.to_nat (m * n) <= length c)%nat ->
  filled (fun i => s_mul (get c i) beta) (Z.to_nat (m * n)) c
    (blas_matrix_mul_f64 a b c m n k alpha beta) /\
  (m * n <= 0 -> blas_matrix_mul_f64 a b c m n k alpha beta = c).
Proof.
  intros Hmn Hlen. unfold blas_matrix_mul_f64. cbv zeta.
  set (c1 := for_loop (Z.to_nat (m * n)) _ c).
  match goal with
  | |- filled _ _ _ ?x /\ _ => assert (E : x = c1)
  end.
  { destruct Hmn as [Hm|Hn].
    - replace (Z.to_nat m) with O by lia. reflexivity.
    - replace (Z.to_nat n) with O by lia. apply for_loop_id. }
  rewrite E. clear E. split.
  - destruct (modify_range_spec (fun _ x => s_mul x beta) 0 (Z.to_nat (m * n)) c Hlen)
      as (L1 & I1 & O1).
    split; [exact L1|]. split.
    + intros i Hi. exact (I1 i Hi).
    + intros i Hi. apply O1. unfold region. lia.
  - intros Hz. unfold c1. replace (Z.to_nat (m * n)) with O by lia. reflexivity.
Qed.

(** Both dimensions negative: [m * n = 6] elements are scaled. *)
Lemma blas_matrix_mul_no_rows_witness :
  let c := [1; 2; 3; 4; 5; 6; 7]%float in
  filled (fun i => s_mul (get c i) 2%float) (Z.to_nat (-2 * -3)) c
    (blas_matrix_mul_f64 [] [] c (-2) (-3) 4 1%float 2%float) /\
  (-2 * -3 <= 0 -> blas_matrix_mul_f64 [] [] c (-2) (-3) 4 1%float 2%float = c).
Proof.
  intros c.
  apply (blas_matrix_mul_no_rows [] [] c (-2) (-3) 4 1%float 2%float).
  - left. discriminate.
  - simpl. lia.
Defined.
